(** * LocalDatabase: a query layer over IndexedDB

    A shallow embedding of the module build of LocalDatabase
    (ColumnSchema, TableSchema, DatabaseSchema and LocalDatabase) together
    with the part of the browser it talks to: the IndexedDB factory, object
    stores, indexes, key ranges and [JSON.stringify] / [JSON.parse].

    The file has three parts: the definitions (values and JSON, the schema
    classes, IndexedDB, LocalDatabase, the example page), facts about them,
    and the properties of [select], [add], [delete] and [init].

    Scope of the model.
    - JavaScript values are [undefined], [null], booleans, integer-valued
      numbers and strings; a row is an object with such fields, kept as the
      ordered list of its own properties.
    - Of the IndexedDB key types only numbers and strings are modelled
      (numbers sort before strings); operands of [$gt], [$gte], [$lt] and
      [$lte], which the code feeds to [Math.max] / [Math.min], are numbers.
      A string is a sequence of code units below 256. Rows are flat: a
      key path with a dot, which the engine reads as a path into nested
      objects, is accepted as a key path, and what it finds in a row is
      outside the model. The options [multiEntry] and [locale] of a column
      are carried along and not interpreted.
    - A promise is modelled by its fate, see [outcome]. The engine serves
      the requests on one database in the order they were made; a request
      that the model lets succeed does so before the continuation runs. *)

From Stdlib Require Import ZArith Ascii String Decimal DecimalString DecimalPos DecimalZ.
From stdpp Require Import base list strings gmap.

Local Open Scope Z_scope.

(** ** JavaScript values and rows *)

Inductive value : Type :=
| VUndefined
| VNull
| VBool (b : bool)
| VNum (z : Z)
| VStr (s : string).

#[global] Instance value_eq_dec : EqDecision value.
Proof. solve_decision. Defined.

(** A row is a JavaScript object: its own properties in insertion order. *)
Abbreviation row := (list (string * value)).

(** [r[f]]: reading a property that is not there yields [undefined]. *)
Fixpoint row_get (r : row) (f : string) : value :=
  match r with
  | [] => VUndefined
  | (k, v) :: r' => if decide (k = f) then v else row_get r' f
  end.

(** ** JSON.stringify and JSON.parse on rows *)

Module JSON.

Definition dquote : ascii := "034"%char.
Definition bslash : ascii := "092"%char.

Definition hex_digit (n : nat) : ascii :=
  match n with
  | 0 => "0" | 1 => "1" | 2 => "2" | 3 => "3" | 4 => "4" | 5 => "5"
  | 6 => "6" | 7 => "7" | 8 => "8" | 9 => "9" | 10 => "a" | 11 => "b"
  | 12 => "c" | 13 => "d" | 14 => "e" | _ => "f"
  end%nat%char.

Definition hex_value (c : ascii) : option nat :=
  let n := nat_of_ascii c in
  if (48 <=? n)%nat && (n <=? 57)%nat then Some (n - 48)%nat
  else if (97 <=? n)%nat && (n <=? 102)%nat then Some (n - 87)%nat
  else if (65 <=? n)%nat && (n <=? 70)%nat then Some (n - 55)%nat
  else None.

(** QuoteJSONString: the two-character escapes, [\u00xx] for the other
    control characters, every other character as it is. *)
Definition escape_char (c : ascii) : string :=
  let n := nat_of_ascii c in
  if decide (c = dquote) then String bslash (String dquote EmptyString)
  else if decide (c = bslash) then String bslash (String bslash EmptyString)
  else if decide (n = 8%nat) then String bslash "b"
  else if decide (n = 9%nat) then String bslash "t"
  else if decide (n = 10%nat) then String bslash "n"
  else if decide (n = 12%nat) then String bslash "f"
  else if decide (n = 13%nat) then String bslash "r"
  else if (n <? 32)%nat then
    String bslash
      (String "u" (String "0" (String "0"
        (String (hex_digit (n / 16)) (String (hex_digit (n mod 16)) EmptyString)))))
  else String c EmptyString.

Fixpoint escape (s : string) : string :=
  match s with
  | EmptyString => EmptyString
  | String c s' => escape_char c +:+ escape s'
  end.

Definition quote (s : string) : string :=
  String dquote (escape s +:+ String dquote EmptyString).

Definition number_to_string (z : Z) : string :=
  NilZero.string_of_int (Z.to_int z).

(** A property whose value is [undefined] is left out of the object. *)
Definition stringify_value (v : value) : option string :=
  match v with
  | VUndefined => None
  | VNull => Some "null"
  | VBool true => Some "true"
  | VBool false => Some "false"
  | VNum z => Some (number_to_string z)
  | VStr s => Some (quote s)
  end.

Fixpoint members (r : row) : list string :=
  match r with
  | [] => []
  | (k, v) :: r' =>
      match stringify_value v with
      | Some s => (quote k +:+ ":" +:+ s) :: members r'
      | None => members r'
      end
  end.

Fixpoint join_comma (l : list string) : string :=
  match l with
  | [] => EmptyString
  | [m] => m
  | m :: l' => m +:+ "," +:+ join_comma l'
  end.

Definition stringify (r : row) : string :=
  "{" +:+ join_comma (members r) +:+ "}".

(** *** Parsing *)

Fixpoint strip_prefix (p s : string) : option string :=
  match p, s with
  | EmptyString, _ => Some s
  | String a p', String b s' => if decide (a = b) then strip_prefix p' s' else None
  | String _ _, EmptyString => None
  end.

Definition unescape (e : ascii) : option ascii :=
  if decide (e = dquote) then Some dquote
  else if decide (e = bslash) then Some bslash
  else if decide (e = "/"%char) then Some "/"%char
  else if decide (e = "b"%char) then Some "008"%char
  else if decide (e = "t"%char) then Some "009"%char
  else if decide (e = "n"%char) then Some "010"%char
  else if decide (e = "f"%char) then Some "012"%char
  else if decide (e = "r"%char) then Some "013"%char
  else None.

Definition unicode_escape (h1 h2 h3 h4 : ascii) : option ascii :=
  match hex_value h1, hex_value h2, hex_value h3, hex_value h4 with
  | Some 0%nat, Some 0%nat, Some a, Some b => Some (ascii_of_nat (16 * a + b))
  | _, _, _, _ => None
  end.

(** The characters of a string literal after its opening quote, up to the
    closing quote; returns the text and what follows the literal. *)
Fixpoint parse_chars (s : string) : option (string * string) :=
  match s with
  | EmptyString => None
  | String c s' =>
      if decide (c = dquote) then Some (EmptyString, s')
      else if decide (c = bslash) then
        match s' with
        | String e s'' =>
            if decide (e = "u"%char) then
              match s'' with
              | String h1 (String h2 (String h3 (String h4 rest))) =>
                  match unicode_escape h1 h2 h3 h4, parse_chars rest with
                  | Some a, Some (t, rest') => Some (String a t, rest')
                  | _, _ => None
                  end
              | _ => None
              end
            else
              match unescape e, parse_chars s'' with
              | Some a, Some (t, rest') => Some (String a t, rest')
              | _, _ => None
              end
        | EmptyString => None
        end
      else if (nat_of_ascii c <? 32)%nat then None
      else
        match parse_chars s' with
        | Some (t, rest') => Some (String c t, rest')
        | None => None
        end
  end.

Definition parse_string (s : string) : option (string * string) :=
  match s with
  | String c s' => if decide (c = dquote) then parse_chars s' else None
  | EmptyString => None
  end.

Definition digit_of (c : ascii) : option (uint -> uint) :=
  match nat_of_ascii c with
  | 48 => Some D0 | 49 => Some D1 | 50 => Some D2 | 51 => Some D3
  | 52 => Some D4 | 53 => Some D5 | 54 => Some D6 | 55 => Some D7
  | 56 => Some D8 | 57 => Some D9 | _ => None
  end%nat.

Fixpoint parse_digits (s : string) : uint * string :=
  match s with
  | EmptyString => (Nil, EmptyString)
  | String c s' =>
      match digit_of c with
      | Some d => let '(u, rest) := parse_digits s' in (d u, rest)
      | None => (Nil, s)
      end
  end.

Definition parse_number (s : string) : option (Z * string) :=
  match strip_prefix "-" s with
  | Some s' =>
      match parse_digits s' with
      | (Nil, _) => None
      | (u, rest) => Some (Z.of_int (Neg u), rest)
      end
  | None =>
      match parse_digits s with
      | (Nil, _) => None
      | (u, rest) => Some (Z.of_int (Pos u), rest)
      end
  end.

Definition parse_value (s : string) : option (value * string) :=
  match strip_prefix "null" s with
  | Some rest => Some (VNull, rest)
  | None =>
  match strip_prefix "true" s with
  | Some rest => Some (VBool true, rest)
  | None =>
  match strip_prefix "false" s with
  | Some rest => Some (VBool false, rest)
  | None =>
  match parse_string s with
  | Some (t, rest) => Some (VStr t, rest)
  | None =>
  match parse_number s with
  | Some (z, rest) => Some (VNum z, rest)
  | None => None
  end end end end end.

(** The members of an object after its opening brace, through the closing
    brace, which must end the text. One unit of fuel per member. *)
Fixpoint parse_members (fuel : nat) (s : string) : option row :=
  match fuel with
  | O => None
  | S fuel' =>
      match parse_string s with
      | Some (k, s0) =>
          match strip_prefix ":" s0 with
          | Some s1 =>
              match parse_value s1 with
              | Some (v, s2) =>
                  match strip_prefix "," s2 with
                  | Some s3 =>
                      match parse_members fuel' s3 with
                      | Some r => Some ((k, v) :: r)
                      | None => None
                      end
                  | None => if decide (s2 = "}") then Some [(k, v)] else None
                  end
              | None => None
              end
          | None => None
          end
      | None => None
      end
  end.

(** [JSON.parse] on the text of a flat object in the compact form that
    [JSON.stringify] writes; [None] stands for the SyntaxError. *)
Definition parse (s : string) : option row :=
  match strip_prefix "{" s with
  | Some s' =>
      if decide (s' = "}") then Some [] else parse_members (String.length s') s'
  | None => None
  end.

(** What survives a round trip: the properties that are not [undefined]. *)
Definition normal (r : row) : row :=
  filter (fun kv => kv.2 <> VUndefined) r.

(** What may follow a number in the text: not a digit. *)
Definition nondigit_start (s : string) : Prop :=
  match s with
  | EmptyString => True
  | String c _ => digit_of c = None
  end.

(** The first character of a number: a digit or the minus sign. *)
Definition number_start (c : ascii) : bool :=
  bool_decide (c = "-"%char) || bool_decide (digit_of c <> None).

End JSON.

(** ** Errors and the fate of a promise *)

Inductive error : Type :=
| Error (message : string)
| TypeError (message : string)
| DOMException (name : string).

#[global] Instance error_eq_dec : EqDecision error.
Proof. solve_decision. Defined.

Definition DataError : error := DOMException "DataError".
Definition NotFoundError : error := DOMException "NotFoundError".
Definition ConstraintError : error := DOMException "ConstraintError".
Definition InvalidStateError : error := DOMException "InvalidStateError".
Definition VersionError : error := DOMException "VersionError".
Definition SyntaxError : error := DOMException "SyntaxError".
Definition InvalidAccessError : error := DOMException "InvalidAccessError".

(** What becomes of a call that is to return a promise:
    - [Throws e]: the call throws before any promise is returned;
    - [Rejects e]: the promise is rejected (also when the executor throws);
    - [Resolves a]: the promise is fulfilled with [a];
    - [Pending e]: the promise is never settled, because [e] was thrown or
      rejected in a continuation that has no handler. *)
Inductive outcome (A : Type) : Type :=
| Throws (e : error)
| Rejects (e : error)
| Resolves (a : A)
| Pending (e : error).
Arguments Throws {A} e.
Arguments Rejects {A} e.
Arguments Resolves {A} a.
Arguments Pending {A} e.

(** Code that may throw: [inl e] is the exception. *)
#[global] Instance throw_ret : MRet (sum error) := fun A x => inr x.
#[global] Instance throw_bind : MBind (sum error) := fun A B f m =>
  match m with
  | inl e => inl e
  | inr x => f x
  end.
#[global] Instance throw_fmap : FMap (sum error) := fun A B f m =>
  match m with
  | inl e => inl e
  | inr x => inr (f x)
  end.

(** A loop whose body may throw: the first exception ends it. *)
Fixpoint for_of {A S : Type} (body : S -> A -> error + S) (l : list A) (s : S)
    : error + S :=
  match l with
  | [] => inr s
  | x :: l' =>
      match body s x with
      | inl e => inl e
      | inr s' => for_of body l' s'
      end
  end.

(** [r[f] = v]: overwrites the property, or adds it after the others. *)
Fixpoint row_set (r : row) (f : string) (v : value) : row :=
  match r with
  | [] => [(f, v)]
  | (k, x) :: r' => if decide (k = f) then (k, v) :: r' else (k, x) :: row_set r' f v
  end.

(** ** The schema classes *)

Module ColumnSchema.
Record ColumnSchemaOptions : Type := {
  unique : bool;
  multiEntry : bool;
  locale : option string
}.
Record t : Type := { name : string; options : ColumnSchemaOptions }.

(** The class field initialiser, which is the default of the constructor. *)
Definition default_options : ColumnSchemaOptions :=
  {| unique := false; multiEntry := false; locale := None |}.

Definition constructor (name : string) (options : option ColumnSchemaOptions) : t :=
  {| name := name; options := default default_options options |}.
End ColumnSchema.

Module TableSchema.
Record t : Type := {
  name : string;
  keyColumn : ColumnSchema.t;
  otherColumns : list ColumnSchema.t;
  autoIncrement : bool
}.

(** [!name] holds of the empty string; [keyColumn] is [None] for a missing
    or null argument. The duplicate-column test only warns. *)
Definition constructor (name : string) (keyColumn : option ColumnSchema.t)
    (otherColumns : list ColumnSchema.t) (autoIncrement : bool) : error + t :=
  if decide (name = EmptyString) then
    inl (Error "Error in TableSchema. Attempting to generate a table without providing a table name.")
  else
    match keyColumn with
    | None =>
        inl (Error "Error in TableSchema. Attempting to generate a table without providing a key column.")
    | Some key =>
        inr {| name := name; keyColumn := key; otherColumns := otherColumns;
               autoIncrement := autoIncrement |}
    end.
End TableSchema.

Module DatabaseSchema.
Record t : Type := {
  name : string;
  tables : list TableSchema.t;
  tableMap : gmap string TableSchema.t;
  tableNames : list string
}.

(** [tables.map(table => { tableMap[table.name] = table;
    tableNames.push(table.name) })] starting from [{}] and [[]]. *)
Definition constructor (name : string) (tables : list TableSchema.t) : t :=
  {| name := name;
     tables := tables;
     tableMap :=
       foldl (fun m table => <[TableSchema.name table := table]> m) ∅ tables;
     tableNames :=
       foldl (fun names table => names ++ [TableSchema.name table]) [] tables |}.
End DatabaseSchema.

(** ** IndexedDB, as far as LocalDatabase uses it *)

Module IDB.

(** Numbers and strings are keys; [undefined], [null] and booleans are not. *)
Definition valid_key (v : value) : bool :=
  match v with
  | VNum _ | VStr _ => true
  | _ => false
  end.

(** The key order: numbers by value, before strings by code unit. *)
Definition key_compare (a b : value) : comparison :=
  match a, b with
  | VNum x, VNum y => (x ?= y)%Z
  | VNum _, VStr _ => Lt
  | VStr _, VNum _ => Gt
  | VStr x, VStr y => String.compare x y
  | _, _ => Eq
  end.

Definition key_le (a b : value) : bool :=
  match key_compare a b with
  | Gt => false
  | _ => true
  end.

Definition key_eqb (a b : value) : bool :=
  match key_compare a b with
  | Eq => true
  | _ => false
  end.

(** The key paths the engine accepts: the empty string, an identifier, or
    identifiers separated by periods. An identifier is an IdentifierName
    of ECMAScript, written without escape sequences; among the code units
    below 256 it starts with a letter, [$] or [_] and goes on with these,
    digits and the middle dot. *)
Definition letter (c : ascii) : bool :=
  let n := nat_of_ascii c in
  ((65 <=? n) && (n <=? 90) || (97 <=? n) && (n <=? 122)
   || (n =? 170) || (n =? 181) || (n =? 186)
   || (192 <=? n) && (n <=? 214) || (216 <=? n) && (n <=? 246)
   || (248 <=? n))%nat.

Definition identifier_start (c : ascii) : bool :=
  letter c || bool_decide (c = "$"%char) || bool_decide (c = "_"%char).

Definition identifier_part (c : ascii) : bool :=
  let n := nat_of_ascii c in
  identifier_start c || ((48 <=? n) && (n <=? 57) || (n =? 183))%nat.

(** [start]: an identifier is to begin here. *)
Fixpoint identifiers (start : bool) (s : string) : bool :=
  match s with
  | EmptyString => negb start
  | String c s' =>
      if start then identifier_start c && identifiers false s'
      else if bool_decide (c = "."%char) then identifiers true s'
      else identifier_part c && identifiers false s'
  end.

Definition valid_key_path (keyPath : string) : bool :=
  match keyPath with
  | EmptyString => true
  | _ => identifiers true keyPath
  end.

(** Stable insertion sort, for the record order of stores and indexes. *)
Section sorting.
Context {A : Type} (le : A -> A -> bool).

Fixpoint insert_sorted (x : A) (l : list A) : list A :=
  match l with
  | [] => [x]
  | y :: l' => if le x y then x :: l else y :: insert_sorted x l'
  end.

Definition sort_by (l : list A) : list A := foldr insert_sorted [] l.
End sorting.

Module IDBKeyRange.
(** [lower] / [upper] read [undefined] on the side that is unbounded. *)
Record t : Type := {
  lower : value;
  upper : value;
  lowerOpen : bool;
  upperOpen : bool
}.

Definition only (v : value) : error + t :=
  if valid_key v
  then inr {| lower := v; upper := v; lowerOpen := false; upperOpen := false |}
  else inl DataError.

Definition lowerBound (lower : value) (open : bool) : error + t :=
  if valid_key lower
  then inr {| lower := lower; upper := VUndefined; lowerOpen := open; upperOpen := true |}
  else inl DataError.

Definition upperBound (upper : value) (open : bool) : error + t :=
  if valid_key upper
  then inr {| lower := VUndefined; upper := upper; lowerOpen := true; upperOpen := open |}
  else inl DataError.

Definition bound (lower upper : value) (lowerOpen upperOpen : bool) : error + t :=
  if negb (valid_key lower) || negb (valid_key upper) then inl DataError
  else
    let r := {| lower := lower; upper := upper;
                lowerOpen := lowerOpen; upperOpen := upperOpen |} in
    match key_compare lower upper with
    | Gt => inl DataError
    | Eq => if lowerOpen || upperOpen then inl DataError else inr r
    | Lt => inr r
    end.

(** No bound on either side: what a null or missing query stands for. *)
Definition unbounded : t :=
  {| lower := VUndefined; upper := VUndefined; lowerOpen := true; upperOpen := true |}.

Definition includes (r : t) (key : value) : bool :=
  (if valid_key (lower r) then
     match key_compare (lower r) key with
     | Lt => true
     | Eq => negb (lowerOpen r)
     | Gt => false
     end
   else true)
  &&
  (if valid_key (upper r) then
     match key_compare key (upper r) with
     | Lt => true
     | Eq => negb (upperOpen r)
     | Gt => false
     end
   else true).
End IDBKeyRange.

(** The argument of [getAll]: a value (a key, or null / undefined) or a
    key range. A value that is no key, such as a boolean, is a DataError
    by the standard, which the model follows; the properties below that
    say what [select] returns are for other arguments. *)
Definition query_to_range (query : value + IDBKeyRange.t) : error + IDBKeyRange.t :=
  match query with
  | inr range => inr range
  | inl VUndefined | inl VNull => inr IDBKeyRange.unbounded
  | inl v => IDBKeyRange.only v
  end.

Module IDBIndex.
Record t : Type := {
  name : string;
  keyPath : string;
  unique : bool;
  multiEntry : bool
}.
End IDBIndex.

Module IDBObjectStore.
(** [records] are kept in key order; [generator] is the key generator's
    current number. *)
Record t : Type := {
  name : string;
  keyPath : string;
  autoIncrement : bool;
  generator : Z;
  indexes : list IDBIndex.t;
  records : list row
}.

Definition set_records (store : t) (rs : list row) (g : Z) : t :=
  {| name := name store; keyPath := keyPath store;
     autoIncrement := autoIncrement store; generator := g;
     indexes := indexes store; records := rs |}.

Definition index (store : t) (n : string) : error + IDBIndex.t :=
  match list_find (fun ix => IDBIndex.name ix = n) (indexes store) with
  | Some (_, ix) => inr ix
  | None => inl NotFoundError
  end.

(** [store.createIndex(name, keyPath, options)]: a name that is taken is
    a ConstraintError, a key path that is none a SyntaxError. *)
Definition createIndex (store : t) (n keyPath : string)
    (options : ColumnSchema.ColumnSchemaOptions) : error + t :=
  match index store n with
  | inr _ => inl ConstraintError
  | inl _ =>
      if negb (valid_key_path keyPath) then inl SyntaxError
      else
      inr {| name := name store; keyPath := IDBObjectStore.keyPath store;
             autoIncrement := autoIncrement store; generator := generator store;
             indexes := indexes store ++
               [{| IDBIndex.name := n; IDBIndex.keyPath := keyPath;
                   IDBIndex.unique := ColumnSchema.unique options;
                   IDBIndex.multiEntry := ColumnSchema.multiEntry options |}];
             records := records store |}
  end.

(** The records an index refers to, in index order: those whose indexed
    property is a key, by that key and then by primary key. *)
Definition index_records (store : t) (ix : IDBIndex.t) : list row :=
  sort_by (fun a b => key_le (row_get a (IDBIndex.keyPath ix))
                             (row_get b (IDBIndex.keyPath ix)))
    (filter (fun r => valid_key (row_get r (IDBIndex.keyPath ix)) = true)
            (records store)).

(** [index.getAll(query)] *)
Definition getAll (store : t) (ix : IDBIndex.t) (query : value + IDBKeyRange.t)
    : error + list row :=
  match query_to_range query with
  | inl e => inl e
  | inr range =>
      inr (filter (fun r => IDBKeyRange.includes range
                              (row_get r (IDBIndex.keyPath ix)) = true)
                  (index_records store ix))
  end.

(** What a write request comes to: the call itself throws, or the request
    fails later (which aborts its transaction), or the row is stored. *)
Inductive write_result : Type :=
| WriteThrows (e : error)
| WriteFails (e : error)
| Written (store : t).

Definition has_key (store : t) (key : value) : bool :=
  existsb (fun r => key_eqb (row_get r (keyPath store)) key) (records store).

(** Another record already holds the row's key in a unique index; a
    record whose indexed property is no key is not in the index. *)
Definition violates_unique (store : t) (key : value) (r : row) : bool :=
  existsb (fun ix =>
    IDBIndex.unique ix && valid_key (row_get r (IDBIndex.keyPath ix)) &&
    existsb (fun r' =>
      valid_key (row_get r' (IDBIndex.keyPath ix)) &&
      key_eqb (row_get r' (IDBIndex.keyPath ix)) (row_get r (IDBIndex.keyPath ix)) &&
      negb (key_eqb (row_get r' (keyPath store)) key)) (records store))
    (indexes store).

Definition max_generator : Z := 2 ^ 53.

(** The key of a row to store, the row as stored, and the key generator's
    next number. A store with a key generator supplies a missing key. *)
Definition extract_key (store : t) (r : row) : write_result + (value * row * Z) :=
  let k := row_get r (keyPath store) in
  if valid_key k then
    inr (k, r,
         match k with
         | VNum n =>
             if autoIncrement store && (generator store <=? n)
             then Z.min n max_generator + 1
             else generator store
         | _ => generator store
         end)
  else if autoIncrement store && bool_decide (k = VUndefined) then
    if max_generator <? generator store then inl (WriteFails ConstraintError)
    else inr (VNum (generator store),
              row_set r (keyPath store) (VNum (generator store)),
              generator store + 1)
  else inl (WriteThrows DataError).

(** [store.put(r)] when [overwrite], [store.add(r)] otherwise. *)
Definition store_row (store : t) (overwrite : bool) (r : row) : write_result :=
  match extract_key store r with
  | inl failure => failure
  | inr (key, r', g) =>
      if negb overwrite && has_key store key then WriteFails ConstraintError
      else if violates_unique store key r' then WriteFails ConstraintError
      else
        Written (set_records store
          (insert_sorted
             (fun a b => key_le (row_get a (keyPath store)) (row_get b (keyPath store)))
             r'
             (filter (fun x => key_eqb (row_get x (keyPath store)) key = false)
                     (records store)))
          g)
  end.

(** [store.delete(key)] *)
Definition delete (store : t) (key : value) : error + t :=
  if valid_key key then
    inr (set_records store
           (filter (fun x => key_eqb (row_get x (keyPath store)) key = false)
                   (records store))
           (generator store))
  else inl DataError.
End IDBObjectStore.

Module IDBDatabase.
Record t : Type := {
  name : string;
  version : Z;
  objectStores : gmap string IDBObjectStore.t
}.

Definition set_store (db : t) (store : IDBObjectStore.t) : t :=
  {| name := name db; version := version db;
     objectStores := <[IDBObjectStore.name store := store]> (objectStores db) |}.

Definition set_version (db : t) (v : Z) : t :=
  {| name := name db; version := v; objectStores := objectStores db |}.

(** [db.createObjectStore(name, { keyPath, autoIncrement })]: a key path
    that is none is a SyntaxError, a name that is taken a ConstraintError,
    a key generator with the empty key path an InvalidAccessError. *)
Definition createObjectStore (db : t) (n keyPath : string) (autoIncrement : bool)
    : error + IDBObjectStore.t :=
  if negb (valid_key_path keyPath) then inl SyntaxError
  else
  match objectStores db !! n with
  | Some _ => inl ConstraintError
  | None =>
      if autoIncrement && bool_decide (keyPath = EmptyString)
      then inl InvalidAccessError
      else
      inr {| IDBObjectStore.name := n; IDBObjectStore.keyPath := keyPath;
             IDBObjectStore.autoIncrement := autoIncrement;
             IDBObjectStore.generator := 1;
             IDBObjectStore.indexes := []; IDBObjectStore.records := [] |}
  end.
End IDBDatabase.

Inductive mode : Type := readonly | readwrite.

(** The calls that reach the storage engine. *)
Inductive call : Type :=
| call_deleteDatabase (name : string)
| call_open (name : string) (version : Z)
| call_transaction (database store : string) (m : mode)
| call_getAll (store index : string) (query : value + IDBKeyRange.t)
| call_put (store : string) (r : row)
| call_add (store : string) (r : row)
| call_delete (store : string) (key : value).

Module IDBFactory.
(** [window.indexedDB]: the databases the browser keeps, and the calls
    made so far (latest last). *)
Record t : Type := {
  databases : gmap string IDBDatabase.t;
  calls : list call
}.

Definition log (c : call) (f : t) : t :=
  {| databases := databases f; calls := calls f ++ [c] |}.

Definition set_database (db : IDBDatabase.t) (f : t) : t :=
  {| databases := <[IDBDatabase.name db := db]> (databases f); calls := calls f |}.

(** [indexedDB.deleteDatabase(name)] *)
Definition deleteDatabase (n : string) (f : t) : t :=
  log (call_deleteDatabase n)
    {| databases := delete n (databases f); calls := calls f |}.

(** [indexedDB.open(name, version)] with the handler for [upgradeneeded].
    A database that is not there is created at version 0. An exception in
    the handler aborts the upgrade and fails the request. *)
Definition open (n : string) (version : Z)
    (onupgradeneeded : IDBDatabase.t -> error + IDBDatabase.t) (f : t)
    : (error + unit) * t :=
  let f := log (call_open n version) f in
  let db := default {| IDBDatabase.name := n; IDBDatabase.version := 0;
                       IDBDatabase.objectStores := ∅ |} (databases f !! n) in
  if version <? IDBDatabase.version db then (inl VersionError, f)
  else if IDBDatabase.version db <? version then
    match onupgradeneeded db with
    | inl _ => (inl (DOMException "AbortError"), f)
    | inr db' => (inr tt, set_database (IDBDatabase.set_version db' version) f)
    end
  else (inr tt, f).
End IDBFactory.

End IDB.

(** ** LocalDatabase *)

Module LocalDatabase.
Import IDB.

(** The static fields of the class and the browser's [window.indexedDB].
    [instance] is the open connection, named by its database; [None] is the
    initial [undefined]. [schema] is [None] for the initial [null]. *)
Record state : Type := {
  supported : bool;
  indexedDB : IDBFactory.t;
  instance : option string;
  schema : option DatabaseSchema.t
}.

Definition version : Z := 1.

Definition set_indexedDB (f : IDBFactory.t) (st : state) : state :=
  {| supported := supported st; indexedDB := f;
     instance := instance st; schema := schema st |}.

Definition log (c : call) (st : state) : state :=
  set_indexedDB (IDBFactory.log c (indexedDB st)) st.

Definition nl : string := String "010"%char EmptyString.

(** The [name] and the [message] of an exception. The wording of the
    message of an engine exception belongs to the browser and is not
    modelled: where a text is needed the model repeats the name, and no
    property below reads it. *)
Definition error_name (e : error) : string :=
  match e with
  | Error _ => "Error"
  | TypeError _ => "TypeError"
  | DOMException n => n
  end.

Definition error_message (e : error) : string :=
  match e with
  | Error m | TypeError m => m
  | DOMException n => n
  end.

(** *** init and upgrade *)

Definition upgrade (schema : DatabaseSchema.t) (db : IDBDatabase.t)
    : error + IDBDatabase.t :=
  for_of (fun db table =>
    tableStore ← IDBDatabase.createObjectStore db (TableSchema.name table)
                   (ColumnSchema.name (TableSchema.keyColumn table))
                   (TableSchema.autoIncrement table);
    tableStore ← for_of (fun store column =>
                   IDBObjectStore.createIndex store (ColumnSchema.name column)
                     (ColumnSchema.name column) (ColumnSchema.options column))
                   (TableSchema.otherColumns table) tableStore;
    mret (IDBDatabase.set_store db tableStore))
    (DatabaseSchema.tables schema) db.

(** The error [init] rejects with, from the name and the message of the
    engine's error. *)
Definition opening_error (name message : string) : error :=
  Error ("Error in opening IndexedDb. Make sure your browser supports IndexedDb and that you accept the request to initialise a local database. Also make sure you are running the right version!"
         +:+ nl +:+ nl +:+ "IndexedDb error:" +:+ nl
         +:+ name +:+ ": " +:+ message).

(** [deleteDatabase] and [open] are queued by the engine in this order. The
    database was just deleted, so the open always runs the upgrade, whose
    handler stores the connection in [instance] before it builds the tables;
    after a failed upgrade that connection is closed and names no database. *)
Definition init (schema : DatabaseSchema.t) (st : state) : outcome unit * state :=
  if negb (supported st) then
    (Throws (Error "Your browser doesn't support a stable version of IndexedDB. As such, this app cannot run properly."), st)
  else
    let f := IDBFactory.deleteDatabase (DatabaseSchema.name schema) (indexedDB st) in
    let '(opened, f) :=
      IDBFactory.open (DatabaseSchema.name schema) version (upgrade schema) f in
    let st' := {| supported := supported st; indexedDB := f;
                  instance := Some (DatabaseSchema.name schema);
                  schema := Some schema |} in
    match opened with
    | inl e => (Rejects (opening_error (error_name e) (error_message e)), st')
    | inr _ => (Resolves tt, st')
    end.

(** *** Transactions on the open connection *)

(** [LocalDatabase.instance.transaction(table, mode).objectStore(table)] *)
Definition transaction (connection table : string) (m : mode) (st : state)
    : (error + (IDBDatabase.t * IDBObjectStore.t)) * state :=
  let st' := log (call_transaction connection table m) st in
  match IDBFactory.databases (indexedDB st) !! connection with
  | None => (inl InvalidStateError, st')
  | Some db =>
      match IDBDatabase.objectStores db !! table with
      | None => (inl NotFoundError, st')
      | Some store => (inr (db, store), st')
      end
  end.

(** Committing a transaction that changed one store. *)
Definition commit (db : IDBDatabase.t) (store : IDBObjectStore.t) (st : state) : state :=
  set_indexedDB (IDBFactory.set_database (IDBDatabase.set_store db store) (indexedDB st)) st.

(** The three guards every operation starts with, and their errors. The
    text of the third names [messageOperation], which in [add] is not the
    operation's own name. *)
Definition not_initialised_error (operation : string) : error :=
  Error ("Error in LocalDatabase." +:+ operation +:+
    ": The database has not yet been initialised! Please make sure you run `await LocalDatabase.init()` before using this.").

Definition no_table_error (operation noTable : string) : error :=
  Error ("Error in LocalDatabase." +:+ operation +:+ ": No " +:+ noTable +:+ " defined.").

Definition missing_table_error (messageOperation table : string) : error :=
  Error ("Error in LocalDatabase." +:+ messageOperation +:+
    ": The specified table (" +:+ table +:+
    ") was not found in the schema used to initialise the database.").

Definition check (operation messageOperation noTable : string) (table : string)
    (st : state) : error + (string * DatabaseSchema.t) :=
  match instance st with
  | None => inl (not_initialised_error operation)
  | Some connection =>
      if decide (table = EmptyString) then inl (no_table_error operation noTable)
      else
        match schema st with
        | None => inl (TypeError "Cannot read properties of null (reading 'tableNames')")
        | Some s =>
            if bool_decide (table ∈ DatabaseSchema.tableNames s) then inr (connection, s)
            else inl (missing_table_error messageOperation table)
        end
  end.

(** *** add and multiAdd *)

Definition add (table : string) (object : row) (upsert : bool) (st : state)
    : outcome unit * state :=
  match check "add" "select" "store" table st with
  | inl e => (Throws e, st)
  | inr (connection, _) =>
      match transaction connection table readwrite st with
      | (inl e, st) => (Rejects e, st)
      | (inr (db, store), st) =>
          let st := log (if upsert then call_put table object
                         else call_add table object) st in
          match IDBObjectStore.store_row store upsert object with
          | IDBObjectStore.WriteThrows e => (Rejects e, st)
          | IDBObjectStore.WriteFails _ =>
              (Rejects (Error ("Error in LocalDatabase.add for store (" +:+ table
                               +:+ "). Check console.")), st)
          | IDBObjectStore.Written store' => (Resolves tt, commit db store' st)
          end
      end
  end.

(** [Promise.all] over promises that are already settled ([inl]: rejected):
    the first rejection, or all the values. *)
Definition Promise_all {A : Type} (promises : list (error + A)) : error + list A :=
  mapM id promises.

(** [objects.map(object => add(...))]: an [add] that throws ends the map;
    otherwise the adds all run and their promises are joined. *)
Fixpoint multiAdd_map (table : string) (objects : list row) (upsert : bool)
    (st : state) : (error + list (error + unit)) * state :=
  match objects with
  | [] => (inr [], st)
  | object :: objects' =>
      match add table object upsert st with
      | (Throws e, st') => (inl e, st')
      | (Resolves _, st') =>
          let '(rest, st'') := multiAdd_map table objects' upsert st' in
          (cons (inr tt) <$> rest, st'')
      | (Rejects e, st') | (Pending e, st') =>
          let '(rest, st'') := multiAdd_map table objects' upsert st' in
          (cons (inl e) <$> rest, st'')
      end
  end.

Definition multiAdd (table : string) (objects : list row) (upsert : bool)
    (st : state) : outcome (list unit) * state :=
  match multiAdd_map table objects upsert st with
  | (inl e, st') => (Throws e, st')
  | (inr promises, st') =>
      match Promise_all promises with
      | inl e => (Rejects e, st')
      | inr events => (Resolves events, st')
      end
  end.

(** *** select *)

(** An operator object [{ $gt, $gte, $lt, $lte, $ne }]; [None] and
    [VUndefined] are properties that are not there. *)
Record operators : Type := {
  op_gt : option Z;
  op_gte : option Z;
  op_lt : option Z;
  op_lte : option Z;
  op_ne : value
}.

(** The number, or [undefined]. *)
Definition number (n : option Z) : value :=
  match n with
  | Some z => VNum z
  | None => VUndefined
  end.

(** What a column of the query maps to, and the query's entries in the
    order of [Object.entries]. *)
Abbreviation columnEntry := (value + operators)%type.
Abbreviation query := (list (string * columnEntry)).

(** [[columnName, value-or-range]]: the index to scan and the argument
    of its [getAll]. *)
Abbreviation clause := (string * (value + IDBKeyRange.t))%type.

Definition _isPrimitive (variable : value) : bool :=
  match variable with
  | VNum _ | VStr _ | VBool _ => true
  | VNull | VUndefined => false
  end.

Definition Math_max (a b : Z) : Z := Z.max a b.
Definition Math_min (a b : Z) : Z := Z.min a b.

(** The body of the loop over [Object.entries(query)]. *)
Definition parse_entry (queries : list clause * list clause)
    (entry : string * columnEntry) : error + (list clause * list clause) :=
  let '(additiveQueries, subtractiveQueries) := queries in
  let '(columnName, columnEntry) := entry in
  match columnEntry with
  | inl v =>
      if _isPrimitive v || bool_decide (v = VNull)
      then inr (additiveQueries ++ [(columnName, inl v)], subtractiveQueries)
      else inl (TypeError "Cannot read properties of undefined (reading '$gt')")
  | inr columnEntry =>
      let greaterThan :=
        if bool_decide (op_gt columnEntry <> None)
        then op_gt columnEntry else op_gte columnEntry in
      let greaterThan :=
        match op_gt columnEntry, op_gte columnEntry with
        | Some gt, Some gte => Some (Math_max gt gte)
        | _, _ => greaterThan
        end in
      let isGte := bool_decide (greaterThan = op_gte columnEntry) in
      let lessThan :=
        if bool_decide (op_lt columnEntry <> None)
        then op_lt columnEntry else op_lte columnEntry in
      let lessThan :=
        match op_lt columnEntry, op_lte columnEntry with
        | Some lt, Some lte => Some (Math_min lt lte)
        | _, _ => lessThan
        end in
      let isLte := bool_decide (lessThan = op_lte columnEntry) in
      additiveQueries ←
        (if bool_decide (lessThan <> None) && bool_decide (greaterThan <> None) then
           range ← IDBKeyRange.bound (number greaterThan) (number lessThan)
                     (negb isGte) (negb isLte);
           mret (additiveQueries ++ [(columnName, inr range)])
         else mret additiveQueries);
      additiveQueries ←
        (if bool_decide (lessThan <> None) && bool_decide (greaterThan = None) then
           range ← IDBKeyRange.upperBound (number (op_lt columnEntry)) (negb isLte);
           mret (additiveQueries ++ [(columnName, inr range)])
         else mret additiveQueries);
      additiveQueries ←
        (if bool_decide (lessThan = None) && bool_decide (greaterThan <> None) then
           range ← IDBKeyRange.lowerBound (number (op_gt columnEntry)) (negb isGte);
           mret (additiveQueries ++ [(columnName, inr range)])
         else mret additiveQueries);
      mret (additiveQueries,
            if bool_decide (op_ne columnEntry <> VUndefined)
            then subtractiveQueries ++ [(columnName, inl (op_ne columnEntry))]
            else subtractiveQueries)
  end.

Definition parse_query (q : query) : error + (list clause * list clause) :=
  for_of parse_entry q ([], []).

Definition _getIndex (store : IDBObjectStore.t) (name errorMessagePrepend : string)
    : error + IDBIndex.t :=
  match IDBObjectStore.index store name with
  | inr index => inr index
  | inl e =>
      inl (Error (errorMessagePrepend +:+ nl +:+
        "Errored while trying to find column (" +:+ name +:+ ") in table (" +:+
        IDBObjectStore.name store +:+
        "). Make sure your specified column exists and is available!" +:+ nl +:+ nl +:+
        "IndexedDb Error:" +:+ nl +:+ error_message e))
  end.

(** One scan: the fate of the promise made for a clause ([inl]: rejected,
    because its executor threw). *)
Definition scan (store : IDBObjectStore.t) (q : clause) : error + list row :=
  index ← _getIndex store q.1 "Error in LocalDatabase.select";
  IDBObjectStore.getAll store index q.2.

Definition log_scan (store : IDBObjectStore.t) (st : state) (q : clause) : state :=
  match IDBObjectStore.index store q.1 with
  | inr index => log (call_getAll (IDBObjectStore.name store) (IDBIndex.name index) q.2) st
  | inl _ => st
  end.

(** Opens a read-only transaction and starts one scan per clause. *)
Definition getPromisesFromQueryArray (connection table : string)
    (queryArray : list clause) (st : state)
    : (error + list (error + list row)) * state :=
  match transaction connection table readonly st with
  | (inl e, st) => (inl e, st)
  | (inr (_, store), st) =>
      (inr (scan store <$> queryArray), foldl (log_scan store) st queryArray)
  end.

Definition _intersect (baseArray arrayToMerge : list string) : list string :=
  filter (fun entry => entry ∈ baseArray) arrayToMerge.

Definition _difference (baseArray arrayToCompare : list string) : list string :=
  filter (fun entry => entry ∉ arrayToCompare) baseArray.

Definition _stringifyArrayElements (array : list row) : list string :=
  JSON.stringify <$> array.

Definition _parseArrayElements (array : list string) : error + list row :=
  mapM (fun element =>
          match JSON.parse element with
          | Some r => inr r
          | None => inl (Error "SyntaxError")
          end) array.

(** [arrayOfArrays.reduce(..., _stringifyArrayElements(arrayOfArrays[0]))],
    the callback skipping its first call; on an empty array the initial
    value is computed from [undefined], which throws. *)
Definition intersectAndStringifyArrayOfArrays (arrayOfArrays : list (list row))
    : error + list string :=
  match arrayOfArrays with
  | [] => inl (TypeError "Cannot read properties of undefined (reading 'map')")
  | first :: _ =>
      inr (foldl (fun '(isFirst, accumulation) current =>
                    if isFirst : bool then (false, accumulation)
                    else (false, _intersect accumulation
                                   (_stringifyArrayElements current)))
                 (true, _stringifyArrayElements first) arrayOfArrays).2
  end.

(** What [select] resolves with: [additiveResult[0]] may be [undefined]. *)
Inductive result : Type :=
| Undefined
| Rows (rows : list row).

(** The continuation of [Promise.all(additivePromises)]. An exception in it,
    or a rejected [Promise.all], is handled nowhere: the promise that
    [select] returned stays pending. *)
Definition merge (subtractiveQueries : list clause)
    (subtractivePromises : list (error + list row))
    (additiveResult : list (list row)) : outcome result :=
  if bool_decide (length subtractiveQueries = 0%nat)
     && bool_decide (length additiveResult <= 1)%nat then
    Resolves (match additiveResult with
              | [] => Undefined
              | batch :: _ => Rows batch
              end)
  else
    match intersectAndStringifyArrayOfArrays additiveResult with
    | inl e => Pending e
    | inr stringifiedAdditiveResults =>
        if bool_decide (length subtractivePromises = 0%nat) then
          match _parseArrayElements stringifiedAdditiveResults with
          | inl e => Pending e
          | inr rows => Resolves (Rows rows)
          end
        else
          match Promise_all subtractivePromises with
          | inl e => Pending e
          | inr subtractiveResult =>
              match intersectAndStringifyArrayOfArrays subtractiveResult with
              | inl e => Pending e
              | inr stringifiedSubtractiveResults =>
                  match _parseArrayElements
                          (_difference stringifiedAdditiveResults
                                       stringifiedSubtractiveResults) with
                  | inl e => Pending e
                  | inr rows => Resolves (Rows rows)
                  end
              end
          end
    end.

Definition select (table : string) (q : query) (st : state)
    : outcome result * state :=
  match check "select" "select" "table" table st with
  | inl e => (Throws e, st)
  | inr (connection, _) =>
      match parse_query q with
      | inl e => (Rejects e, st)
      | inr (additiveQueries, subtractiveQueries) =>
          match getPromisesFromQueryArray connection table additiveQueries st with
          | (inl e, st) => (Rejects e, st)
          | (inr additivePromises, st) =>
              match getPromisesFromQueryArray connection table subtractiveQueries st with
              | (inl e, st) => (Rejects e, st)
              | (inr subtractivePromises, st) =>
                  (match Promise_all additivePromises with
                   | inl e => Pending e
                   | inr additiveResult =>
                       merge subtractiveQueries subtractivePromises additiveResult
                   end, st)
              end
          end
      end
  end.

(** The store a transaction on the connection reaches, and the fate of
    [select] read off the stored data alone, without the call log. *)
Definition open_store (connection table : string) (st : state)
    : error + IDBObjectStore.t :=
  match IDBFactory.databases (indexedDB st) !! connection with
  | None => inl InvalidStateError
  | Some db =>
      match IDBDatabase.objectStores db !! table with
      | None => inl NotFoundError
      | Some store => inr store
      end
  end.

Definition select_outcome (table : string) (q : query) (st : state) : outcome result :=
  match check "select" "select" "table" table st with
  | inl e => Throws e
  | inr (connection, _) =>
      match parse_query q with
      | inl e => Rejects e
      | inr (additiveQueries, subtractiveQueries) =>
          match open_store connection table st with
          | inl e => Rejects e
          | inr store =>
              match Promise_all (scan store <$> additiveQueries) with
              | inl e => Pending e
              | inr additiveResult =>
                  merge subtractiveQueries (scan store <$> subtractiveQueries)
                        additiveResult
              end
          end
      end
  end.

(** *** delete *)

(** One delete transaction per key; a promise whose executor throws is
    rejected and the loop goes on. *)
Fixpoint delete_keys (connection table : string) (keyArray : list value)
    (st : state) : list (error + unit) * state :=
  match keyArray with
  | [] => ([], st)
  | key :: keyArray' =>
      match transaction connection table readwrite st with
      | (inl e, st) =>
          let '(promises, st) := delete_keys connection table keyArray' st in
          (inl e :: promises, st)
      | (inr (db, store), st) =>
          let st := log (call_delete table key) st in
          match IDBObjectStore.delete store key with
          | inl e =>
              let '(promises, st) := delete_keys connection table keyArray' st in
              (inl e :: promises, st)
          | inr store' =>
              let '(promises, st) :=
                delete_keys connection table keyArray' (commit db store' st) in
              (inr tt :: promises, st)
          end
      end
  end.

Definition delete (table : string) (q : query) (st : state)
    : outcome (list unit) * state :=
  match check "delete" "delete" "table" table st with
  | inl e => (Throws e, st)
  | inr (connection, s) =>
      match select table q st with
      | (Throws e, st) => (Rejects e, st)
      | (Rejects e, st) | (Pending e, st) => (Pending e, st)
      | (Resolves Undefined, st) =>
          (Pending (TypeError "Cannot read properties of undefined (reading 'map')"), st)
      | (Resolves (Rows results), st) =>
          match DatabaseSchema.tableMap s !! table with
          | None =>
              (Pending (TypeError "Cannot read properties of undefined (reading 'keyColumn')"), st)
          | Some tableSchema =>
              let keyColumn := ColumnSchema.name (TableSchema.keyColumn tableSchema) in
              let keyArray := (fun entry => row_get entry keyColumn) <$> results in
              let '(deletePromises, st) :=
                delete_keys connection (TableSchema.name tableSchema) keyArray st in
              match Promise_all deletePromises with
              | inl e => (Pending e, st)
              | inr resolution => (Resolves resolution, st)
              end
          end
      end
  end.

(** *** Notions used in the statements *)

(** One step of the fold in [intersectAndStringifyArrayOfArrays]. *)
Definition intersect_step (accumulation : list string) (current : list row)
    : list string :=
  _intersect accumulation (_stringifyArrayElements current).

(** The contents found in every batch. *)
Definition in_all_batches (batches : list (list row)) (s : string) : Prop :=
  forall b, b ∈ batches -> s ∈ _stringifyArrayElements b.

(** Strings that [JSON.stringify] wrote. *)
Definition stringified (l : list string) : Prop :=
  forall s, s ∈ l -> exists r : row, s = JSON.stringify r.

(** The early return of the merge: no [$ne] clause, at most one batch. *)
Definition direct (subtractiveQueries : list clause)
    (additiveResult : list (list row)) : Prop :=
  length subtractiveQueries = 0%nat /\ (length additiveResult <= 1)%nat.

(** An index as [upgrade] makes it: its key path is the column it is named
    for. *)
Definition indexed (store : IDBObjectStore.t) (column : string) : Prop :=
  exists ix, IDBObjectStore.index store column = inr ix /\
             IDBIndex.keyPath ix = column.

(** A query of equality fields only, and the clauses it parses to. *)
Definition equalities (fields : list (string * value)) : query :=
  (fun field => (field.1, inl field.2)) <$> fields.

Definition equality_clauses (fields : list (string * value)) : list clause :=
  (fun field => (field.1, inl field.2)) <$> fields.

(** The row holds every given value in its column. *)
Definition matches (fields : list (string * value)) (r : row) : Prop :=
  forall column v, (column, v) ∈ fields -> row_get r column = v.

(** The rows stored in a table, as a transaction on the open connection
    finds them. *)
Definition stored_rows (table : string) (st : state) : list row :=
  match instance st with
  | Some connection =>
      match open_store connection table st with
      | inr store => IDBObjectStore.records store
      | inl _ => []
      end
  | None => []
  end.

(** [select] resolves with rows, whose contents are exactly the contents
    of the stored rows that match all fields. *)
Definition selects_matching_rows (st : state) (table : string)
    (fields : list (string * value)) : Prop :=
  exists rows,
    (select table (equalities fields) st).1 = Resolves (Rows rows) /\
    forall content,
      content ∈ JSON.stringify <$> rows <->
      exists r, r ∈ stored_rows table st /\ matches fields r /\
                JSON.stringify r = content.

(** [select] resolves with rows, none of which holds the excluded value in
    the column. *)
Definition removes_excluded (st : state) (table : string) (q : query)
    (column : string) (excluded : value) : Prop :=
  exists rows,
    (select table q st).1 = Resolves (Rows rows) /\
    forall r, r ∈ rows -> row_get r column <> excluded.

(** Two fates of [select] that agree: both resolve, with [undefined] or
    with the same set of row contents, or neither resolves, in the same
    way. *)
Definition same_rows (o o' : outcome result) : Prop :=
  match o, o' with
  | Resolves Undefined, Resolves Undefined => True
  | Resolves (Rows rows), Resolves (Rows rows') =>
      forall content,
        content ∈ JSON.stringify <$> rows <-> content ∈ JSON.stringify <$> rows'
  | Throws _, Throws _ | Rejects _, Rejects _ | Pending _, Pending _ => True
  | _, _ => False
  end.

(** The clauses one entry of the query contributes. *)
Definition entry_clauses (entry : string * columnEntry)
    : error + (list clause * list clause) :=
  parse_entry ([], []) entry.

(** Both fail, or both succeed with the same elements. *)
Definition same_clauses (x y : error + (list clause * list clause)) : Prop :=
  match x, y with
  | inl _, inl _ => True
  | inr (a, s), inr (a', s') => a ≡ₚ a' /\ s ≡ₚ s'
  | _, _ => False
  end.

Definition same_batches {A : Type} (x y : error + list A) : Prop :=
  match x, y with
  | inl _, inl _ => True
  | inr l, inr l' => l ≡ₚ l'
  | _, _ => False
  end.

(** Every store of the database is without records. *)
Definition empty_database (db : IDBDatabase.t) : Prop :=
  forall table store,
    IDBDatabase.objectStores db !! table = Some store ->
    IDBObjectStore.records store = [].

(** The index [createIndex] makes for a column, and the store [upgrade]
    makes for a table. *)
Definition column_index (column : ColumnSchema.t) : IDBIndex.t :=
  {| IDBIndex.name := ColumnSchema.name column;
     IDBIndex.keyPath := ColumnSchema.name column;
     IDBIndex.unique := ColumnSchema.unique (ColumnSchema.options column);
     IDBIndex.multiEntry := ColumnSchema.multiEntry (ColumnSchema.options column) |}.

Definition table_store (table : TableSchema.t) : IDBObjectStore.t :=
  {| IDBObjectStore.name := TableSchema.name table;
     IDBObjectStore.keyPath := ColumnSchema.name (TableSchema.keyColumn table);
     IDBObjectStore.autoIncrement := TableSchema.autoIncrement table;
     IDBObjectStore.generator := 1;
     IDBObjectStore.indexes := column_index <$> TableSchema.otherColumns table;
     IDBObjectStore.records := [] |}.

(** Table names are distinct, and so are the column names of each table. *)
Definition well_formed (schema : DatabaseSchema.t) : Prop :=
  NoDup (TableSchema.name <$> DatabaseSchema.tables schema) /\
  forall table, table ∈ DatabaseSchema.tables schema ->
    NoDup (ColumnSchema.name <$> TableSchema.otherColumns table).

(** The engine accepts the key paths that [upgrade] asks for: the names
    of the key column and of the other columns of every table are key
    paths, and no table with a key generator has the empty key path. *)
Definition key_paths_accepted (schema : DatabaseSchema.t) : Prop :=
  forall table, table ∈ DatabaseSchema.tables schema ->
    valid_key_path (ColumnSchema.name (TableSchema.keyColumn table)) = true /\
    (TableSchema.autoIncrement table = true ->
     ColumnSchema.name (TableSchema.keyColumn table) <> EmptyString) /\
    forall column, column ∈ TableSchema.otherColumns table ->
      valid_key_path (ColumnSchema.name column) = true.

End LocalDatabase.

(** ** The example page

    The schema, the rows and the calls of the example page that ships with
    the library. *)

Module Example.
Import LocalDatabase.

Definition peopleTable : TableSchema.t :=
  {| TableSchema.name := "People";
     TableSchema.keyColumn :=
       ColumnSchema.constructor "id"
         (Some {| ColumnSchema.unique := true; ColumnSchema.multiEntry := false;
                  ColumnSchema.locale := None |});
     TableSchema.otherColumns :=
       [ColumnSchema.constructor "firstName" None;
        ColumnSchema.constructor "lastName" None;
        ColumnSchema.constructor "age" None];
     TableSchema.autoIncrement := false |}.

Definition dbSchema : DatabaseSchema.t :=
  DatabaseSchema.constructor "MyDatabase" [peopleTable].

Definition person (id : Z) (firstName lastName : string) (age : Z) : row :=
  [("id", VNum id); ("firstName", VStr firstName);
   ("lastName", VStr lastName); ("age", VNum age)].

(** A browser with IndexedDB and nothing stored, before [init]. *)
Definition browser : state :=
  {| supported := true;
     indexedDB := {| IDB.IDBFactory.databases := ∅; IDB.IDBFactory.calls := [] |};
     instance := None;
     schema := None |}.

(** No operator given. *)
Definition no_operators : operators :=
  {| op_gt := None; op_gte := None; op_lt := None; op_lte := None;
     op_ne := VUndefined |}.

Definition under_18 : query :=
  [("age", inr {| op_gt := None; op_gte := None; op_lt := Some 18; op_lte := None;
                  op_ne := VUndefined |})].

(** After the page's [init], its two [add]s and its [multiAdd]. *)
Definition inserted : state :=
  let st := (init dbSchema browser).2 in
  let st := (add "People" (person 1 "John" "Doe" 42) true st).2 in
  let st := (add "People" (person 2 "Bob" "Smith" 35) true st).2 in
  (multiAdd "People"
     [person 4 "David" "Gray" 20; person 6 "John" "Gilmore" 69;
      person 5 "John" "Robson" 69; person 3 "Harry" "Gardener" 66;
      person 7 "Billy" "Jean" 19; person 8 "Sarah" "Jones" 19;
      person 9 "Karen" "Maker" 19; person 10 "Al" "Young" 5] true st).2.

(** After the page's [delete] of the people under 18. *)
Definition populated : state := (delete "People" under_18 inserted).2.

(** The People store as it is then. *)
Definition peopleStore : IDB.IDBObjectStore.t :=
  Eval vm_compute in
    match open_store "MyDatabase" "People" populated with
    | inr store => store
    | inl _ =>
        {| IDB.IDBObjectStore.name := "People"; IDB.IDBObjectStore.keyPath := "id";
           IDB.IDBObjectStore.autoIncrement := false;
           IDB.IDBObjectStore.generator := 1;
           IDB.IDBObjectStore.indexes := []; IDB.IDBObjectStore.records := [] |}
    end.

(** The queries of the page. *)
Definition all_entries : query :=
  [("age", inr {| op_gt := Some 0; op_gte := None; op_lt := None; op_lte := None;
                  op_ne := VUndefined |})].

Definition people_20_to_60 : query :=
  [("age", inr {| op_gt := None; op_gte := Some 20; op_lt := Some 60; op_lte := None;
                  op_ne := VUndefined |})].

(** A row with a property that is [undefined], and a state that stores it. *)
Definition anonymous : row :=
  [("id", VNum 11); ("firstName", VStr "Ann"); ("lastName", VUndefined);
   ("age", VNum 30)].

Definition with_anonymous : state := (add "People" anonymous true populated).2.

(** A row whose last name is [null], and a state that stores it. *)
Definition nameless : row :=
  [("id", VNum 12); ("firstName", VStr "Eve"); ("lastName", VNull);
   ("age", VNum 33)].

Definition with_nameless : state := (add "People" nameless true populated).2.

(** Rows and queries of the examples. *)
Definition john : row := person 1 "John" "Doe" 42.

Definition john_69 : list (string * value) :=
  [("firstName", VStr "John"); ("age", VNum 69)].

Definition aged_69 : query := [("age", inl (VNum 69))].

Definition not_gilmore : query :=
  [("lastName", inr {| op_gt := None; op_gte := None; op_lt := None; op_lte := None;
                       op_ne := VStr "Gilmore" |})].

Definition john_69_not_gilmore : query :=
  [("firstName", inl (VStr "John")); ("age", inl (VNum 69));
   ("lastName", inr {| op_gt := None; op_gte := None; op_lt := None; op_lte := None;
                       op_ne := VStr "Gilmore" |})].

(** Two [$ne] fields, a [$ne] of [null], and a [$ne] on the key column. *)
Definition not_equal (v : value) : columnEntry :=
  inr {| op_gt := None; op_gte := None; op_lt := None; op_lte := None; op_ne := v |}.

Definition john_not_gilmore_not_42 : query :=
  [("firstName", inl (VStr "John")); ("lastName", not_equal (VStr "Gilmore"));
   ("age", not_equal (VNum 42))].

Definition john_not_gilmore_not_69 : query :=
  [("firstName", inl (VStr "John")); ("lastName", not_equal (VStr "Gilmore"));
   ("age", not_equal (VNum 69))].

Definition eve_not_null : query :=
  [("firstName", inl (VStr "Eve")); ("lastName", not_equal VNull)].

Definition john_not_6 : query :=
  [("firstName", inl (VStr "John")); ("id", not_equal (VNum 6))].

(** Both operators of one side, with the same operand. *)
Definition tie_lower (n : Z) : operators :=
  {| op_gt := Some n; op_gte := Some n; op_lt := None; op_lte := None;
     op_ne := VUndefined |}.
Definition tie_upper (n : Z) : operators :=
  {| op_gt := None; op_gte := None; op_lt := Some n; op_lte := Some n;
     op_ne := VUndefined |}.

(** One inclusive operator alone. *)
Definition only_lte (n : Z) : operators :=
  {| op_gt := None; op_gte := None; op_lt := None; op_lte := Some n;
     op_ne := VUndefined |}.
Definition only_gte (n : Z) : operators :=
  {| op_gt := None; op_gte := Some n; op_lt := None; op_lte := None;
     op_ne := VUndefined |}.

End Example.

(** ** Notions for the properties of stored data *)

Module Stored.
Import IDB LocalDatabase.

(** The primary key of a stored row. *)
Definition key_of (store : IDBObjectStore.t) (r : row) : value :=
  row_get r (IDBObjectStore.keyPath store).

(** Every record has a key, and no two records have the same. *)
Definition keyed (store : IDBObjectStore.t) : Prop :=
  Forall (fun r => valid_key (key_of store r) = true) (IDBObjectStore.records store) /\
  NoDup (key_of store <$> IDBObjectStore.records store).

(** The store is the one [upgrade] made for the table, with the records
    and the key generator as they are now. *)
Definition store_of (table : TableSchema.t) (store : IDBObjectStore.t) : Prop :=
  store = IDBObjectStore.set_records (table_store table)
            (IDBObjectStore.records store) (IDBObjectStore.generator store).

(** The schema came out of its constructor. *)
Definition constructed (s : DatabaseSchema.t) : Prop :=
  s = DatabaseSchema.constructor (DatabaseSchema.name s) (DatabaseSchema.tables s).

(** The state [init] leaves for the schema, and every operation keeps: the
    connection is to the schema's database, which holds a keyed store for
    every table. *)
Definition ready (s : DatabaseSchema.t) (st : state) : Prop :=
  constructed s /\
  instance st = Some (DatabaseSchema.name s) /\
  schema st = Some s /\
  exists db,
    IDBFactory.databases (indexedDB st) !! DatabaseSchema.name s = Some db /\
    IDBDatabase.name db = DatabaseSchema.name s /\
    forall table, table ∈ DatabaseSchema.tables s ->
      exists store,
        IDBDatabase.objectStores db !! TableSchema.name table = Some store /\
        store_of table store /\ keyed store.

(** No column of the table has a unique index. *)
Definition plain (table : TableSchema.t) : Prop :=
  forall column, column ∈ TableSchema.otherColumns table ->
    ColumnSchema.unique (ColumnSchema.options column) = false.

(** The row's value in the clause's column is a key that the argument of
    the clause's [getAll] admits. *)
Definition clause_holds (c : clause) (r : row) : bool :=
  valid_key (row_get r c.1) &&
  match query_to_range c.2 with
  | inr range => IDBKeyRange.includes range (row_get r c.1)
  | inl _ => false
  end.

(** The row meets every inclusion clause and, if there are exclusion
    clauses, fails one of them. *)
Definition selected (additiveQueries subtractiveQueries : list clause) (r : row) : bool :=
  forallb (fun c => clause_holds c r) additiveQueries &&
  match subtractiveQueries with
  | [] => true
  | _ => negb (forallb (fun c => clause_holds c r) subtractiveQueries)
  end.

(** The clause names an indexed column of the table and its argument is
    not a boolean. *)
Definition scannable (table : TableSchema.t) (c : clause) : Prop :=
  c.1 ∈ ColumnSchema.name <$> TableSchema.otherColumns table /\
  forall b, c.2 <> inl (VBool b).

(** The number meets every operator that is given. *)
Definition satisfies (o : operators) (n : Z) : bool :=
  from_option (fun gt => gt <? n) true (op_gt o) &&
  from_option (fun gte => gte <=? n) true (op_gte o) &&
  from_option (fun lt => n <? lt) true (op_lt o) &&
  from_option (fun lte => n <=? lte) true (op_lte o).

(** The two operators of a side, when both are given, differ. *)
Definition untied (o : operators) : Prop :=
  (forall n, op_gt o = Some n -> op_gte o <> Some n) /\
  (forall n, op_lt o = Some n -> op_lte o <> Some n).

(** The bound the parser reads off the operators of a side: the operand
    that binds, and whether the bound is open. Two operators with the same
    operand give a closed bound. *)
Definition lower_operand (o : operators) : option (Z * bool) :=
  match op_gt o, op_gte o with
  | Some gt, Some gte => Some (Z.max gt gte, bool_decide (gte < gt))
  | Some gt, None => Some (gt, true)
  | None, Some gte => Some (gte, false)
  | None, None => None
  end.

Definition upper_operand (o : operators) : option (Z * bool) :=
  match op_lt o, op_lte o with
  | Some lt, Some lte => Some (Z.min lt lte, bool_decide (lt < lte))
  | Some lt, None => Some (lt, true)
  | None, Some lte => Some (lte, false)
  | None, None => None
  end.

(** One strict operator alone. *)
Definition only_gt (n : Z) : operators :=
  {| op_gt := Some n; op_gte := None; op_lt := None; op_lte := None;
     op_ne := VUndefined |}.
Definition only_lt (n : Z) : operators :=
  {| op_gt := None; op_gte := None; op_lt := Some n; op_lte := None;
     op_ne := VUndefined |}.

(** The entries of a query that make its parsing fail: a value that is
    [undefined]; bounds on both sides that leave no key between them; on
    one side alone, an inclusive operator without the strict one. *)
Definition rejected (entry : columnEntry) : Prop :=
  match entry with
  | inl v => v = VUndefined
  | inr o =>
      match lower_operand o, upper_operand o with
      | Some (lo, lowerOpen), Some (hi, upperOpen) =>
          hi < lo \/ (lo = hi /\ (lowerOpen = true \/ upperOpen = true))
      | Some _, None => op_gt o = None
      | None, Some _ => op_lt o = None
      | None, None => False
      end
  end.

(** The outcomes of the [add]s of [multiAdd], each in the state the one
    before it left. *)
Fixpoint add_each (table : string) (objects : list row) (upsert : bool)
    (st : state) : list (outcome unit) :=
  match objects with
  | [] => []
  | object :: objects' =>
      (add table object upsert st).1
      :: add_each table objects' upsert (add table object upsert st).2
  end.

(** The calls a page makes once [init] has resolved, and the state each
    leaves. *)
Inductive operation : Type :=
| Select (table : string) (q : query)
| Add (table : string) (object : row) (upsert : bool)
| MultiAdd (table : string) (objects : list row) (upsert : bool)
| Delete (table : string) (q : query).

Definition perform (st : state) (op : operation) : state :=
  match op with
  | Select table q => (select table q st).2
  | Add table object upsert => (add table object upsert st).2
  | MultiAdd table objects upsert => (multiAdd table objects upsert st).2
  | Delete table q => (delete table q st).2
  end.

(** Calls that read. *)
Definition reads (c : call) : bool :=
  match c with
  | call_transaction _ _ readonly | call_getAll _ _ _ => true
  | _ => false
  end.

End Stored.

(** * Facts about the model *)

Import JSON IDB LocalDatabase Example.

(** ** Strings *)

Lemma append_cons (x : ascii) (a b : string) : String x a +:+ b = String x (a +:+ b).
Proof. reflexivity. Qed.

Lemma append_empty (b : string) : EmptyString +:+ b = b.
Proof. reflexivity. Qed.

Lemma append_assoc (a b c : string) : (a +:+ b) +:+ c = a +:+ (b +:+ c).
Proof.
  induction a as [|x a IH]; [reflexivity|].
  rewrite !append_cons. by rewrite IH.
Qed.

Lemma length_append (a b : string) :
  String.length (a +:+ b) = (String.length a + String.length b)%nat.
Proof.
  induction a as [|x a IH]; [reflexivity|].
  rewrite append_cons. simpl. by rewrite IH.
Qed.

Lemma strip_prefix_app (p s : string) : strip_prefix p (p +:+ s) = Some s.
Proof.
  induction p as [|a p IH]; [reflexivity|].
  rewrite append_cons. simpl.
  destruct (decide (a = a)); [exact IH | congruence].
Qed.

(** ** JSON.parse reads back what JSON.stringify wrote *)

(** One escaped character is read back as that character. *)
Lemma parse_chars_escape_char (c : ascii) (x : string) :
  parse_chars (escape_char c +:+ x) =
  match parse_chars x with
  | Some (t, rest) => Some (String c t, rest)
  | None => None
  end.
Proof.
  destruct c as [[] [] [] [] [] [] [] []]; reflexivity.
Qed.

Lemma parse_chars_escape (s rest : string) :
  parse_chars (escape s +:+ String dquote rest) = Some (s, rest).
Proof.
  induction s as [|c s IH]; simpl.
  - reflexivity.
  - rewrite append_assoc, parse_chars_escape_char, IH. reflexivity.
Qed.

Lemma parse_string_quote (s rest : string) :
  parse_string (quote s +:+ rest) = Some (s, rest).
Proof.
  unfold quote, parse_string. rewrite append_cons.
  destruct (decide (dquote = dquote)); [|congruence].
  rewrite append_assoc. apply parse_chars_escape.
Qed.

(** The digits of a number are read back, up to what follows them. *)
Lemma parse_digits_print (u : uint) (rest : string) :
  nondigit_start rest ->
  parse_digits (NilEmpty.string_of_uint u +:+ rest) = (u, rest).
Proof.
  intros Hrest. induction u; simpl NilEmpty.string_of_uint;
    rewrite ?append_cons, ?append_empty.
  - destruct rest as [|c r]; [reflexivity|]. simpl in *. by rewrite Hrest.
  - simpl. by rewrite IHu.
  - simpl. by rewrite IHu.
  - simpl. by rewrite IHu.
  - simpl. by rewrite IHu.
  - simpl. by rewrite IHu.
  - simpl. by rewrite IHu.
  - simpl. by rewrite IHu.
  - simpl. by rewrite IHu.
  - simpl. by rewrite IHu.
  - simpl. by rewrite IHu.
Qed.

Lemma number_start_not_keyword (c : ascii) (s : string) :
  number_start c = true ->
  strip_prefix "null" (String c s) = None /\
  strip_prefix "true" (String c s) = None /\
  strip_prefix "false" (String c s) = None /\
  parse_string (String c s) = None.
Proof.
  destruct c as [[] [] [] [] [] [] [] []]; vm_compute; intros H;
    first [discriminate H | repeat split].
Qed.

Lemma uint_print_start (d : uint) (rest : string) :
  d <> Nil ->
  exists c s, NilEmpty.string_of_uint d +:+ rest = String c s /\
              digit_of c <> None.
Proof.
  destruct d; [congruence| ..]; intros _; simpl; rewrite append_cons;
    eexists _, _; (split; [reflexivity | discriminate]).
Qed.

Lemma number_to_string_cases (z : Z) :
  exists d, d <> Nil /\
    ((number_to_string z = NilEmpty.string_of_uint d /\ Z.of_int (Pos d) = z) \/
     (number_to_string z = String "-" (NilEmpty.string_of_uint d) /\
      Z.of_int (Neg d) = z)).
Proof.
  unfold number_to_string. pose proof (DecimalZ.of_to z) as Hz.
  destruct z as [|p|p].
  - exists (D0 Nil). split; [discriminate | by left].
  - exists (Pos.to_uint p). pose proof (Unsigned.to_uint_nonnil p) as Hp.
    split; [done | left]. split; [|exact Hz].
    change (Z.to_int (Z.pos p)) with (Pos (Pos.to_uint p)).
    unfold NilZero.string_of_int, NilZero.string_of_uint.
    by destruct (Pos.to_uint p).
  - exists (Pos.to_uint p). pose proof (Unsigned.to_uint_nonnil p) as Hp.
    split; [done | right]. split; [|exact Hz].
    change (Z.to_int (Z.neg p)) with (Neg (Pos.to_uint p)).
    unfold NilZero.string_of_int, NilZero.string_of_uint.
    by destruct (Pos.to_uint p).
Qed.

Lemma number_print_start (z : Z) (rest : string) :
  exists c s, number_to_string z +:+ rest = String c s /\ number_start c = true.
Proof.
  destruct (number_to_string_cases z) as (d & Hd & [[-> _] | [-> _]]).
  - destruct (uint_print_start d rest Hd) as (c & s & -> & Hc).
    exists c, s. split; [done|]. unfold number_start.
    rewrite (bool_decide_eq_true_2 _ Hc). apply orb_true_r.
  - rewrite append_cons. by eexists _, _.
Qed.

Lemma parse_number_print (z : Z) (rest : string) :
  nondigit_start rest ->
  parse_number (number_to_string z +:+ rest) = Some (z, rest).
Proof.
  intros Hrest. unfold parse_number.
  destruct (number_to_string_cases z) as (d & Hd & [[-> Hz] | [-> Hz]]).
  - destruct (uint_print_start d rest Hd) as (c & s & Hs & Hc).
    assert (strip_prefix "-" (NilEmpty.string_of_uint d +:+ rest) = None) as ->.
    { rewrite Hs. simpl. destruct (decide ("-"%char = c)) as [<-|]; [|done].
      by destruct Hc. }
    rewrite parse_digits_print by done. rewrite Hz. by destruct d.
  - change (String "-" (NilEmpty.string_of_uint d) +:+ rest)
      with ("-" +:+ (NilEmpty.string_of_uint d +:+ rest)).
    rewrite strip_prefix_app, parse_digits_print by done.
    rewrite Hz. by destruct d.
Qed.

(** A value is read back, when what follows is not a digit. *)
Lemma parse_value_print (v : value) (sv rest : string) :
  stringify_value v = Some sv ->
  nondigit_start rest ->
  parse_value (sv +:+ rest) = Some (v, rest).
Proof.
  intros Hv Hrest. unfold parse_value.
  destruct v as [| |[]|z|s]; simpl in Hv; simplify_eq.
  - by rewrite strip_prefix_app.
  - by rewrite (strip_prefix_app "true").
  - by rewrite (strip_prefix_app "false").
  - destruct (number_print_start z rest) as (c & s & Hs & Hc).
    destruct (number_start_not_keyword c s Hc) as (H1 & H2 & H3 & H4).
    rewrite <- Hs in H1, H2, H3, H4. rewrite H1, H2, H3, H4.
    by rewrite parse_number_print.
  - rewrite parse_string_quote. reflexivity.
Qed.

Lemma normal_cons_undefined (k : string) (r : row) :
  normal ((k, VUndefined) :: r) = normal r.
Proof. unfold normal. by rewrite filter_cons_False by (simpl; tauto). Qed.

Lemma normal_cons (k : string) (v : value) (r : row) :
  v <> VUndefined -> normal ((k, v) :: r) = (k, v) :: normal r.
Proof. intros Hv. unfold normal. by rewrite filter_cons_True. Qed.

Lemma stringify_value_some (v : value) (sv : string) :
  stringify_value v = Some sv -> v <> VUndefined.
Proof. by destruct v. Qed.

Lemma stringify_value_none (v : value) :
  stringify_value v = None -> v = VUndefined.
Proof. by destruct v as [| |[]| |]. Qed.

Lemma members_nil_normal (r : row) : members r = [] -> normal r = [].
Proof.
  induction r as [|[k v] r IH]; [done|]. simpl members.
  destruct (stringify_value v) eqn:Hv; [done|].
  apply stringify_value_none in Hv as ->.
  rewrite normal_cons_undefined. exact IH.
Qed.

Lemma members_normal (r : row) : members (normal r) = members r.
Proof.
  induction r as [|[k v] r IH]; [done|].
  destruct (stringify_value v) as [sv|] eqn:Hv.
  - rewrite normal_cons by eauto using stringify_value_some.
    simpl. by rewrite Hv, IH.
  - pose proof (stringify_value_none v Hv) as ->.
    rewrite normal_cons_undefined. simpl. exact IH.
Qed.

Lemma parse_members_S (fuel : nat) (s : string) :
  parse_members (S fuel) s =
  match parse_string s with
  | Some (k, s0) =>
      match strip_prefix ":" s0 with
      | Some s1 =>
          match parse_value s1 with
          | Some (v, s2) =>
              match strip_prefix "," s2 with
              | Some s3 =>
                  match parse_members fuel s3 with
                  | Some r => Some ((k, v) :: r)
                  | None => None
                  end
              | None => if decide (s2 = "}") then Some [(k, v)] else None
              end
          | None => None
          end
      | None => None
      end
  | None => None
  end.
Proof. reflexivity. Qed.

(** The members of an object are read back, with enough fuel. *)
Lemma parse_members_print (r : row) (fuel : nat) :
  members r <> [] ->
  (length (members r) <= fuel)%nat ->
  parse_members fuel (join_comma (members r) +:+ "}") = Some (normal r).
Proof.
  revert fuel. induction r as [|[k v] r IH]; intros fuel Hne Hfuel; [done|].
  simpl members in *.
  destruct (stringify_value v) as [sv|] eqn:Hv.
  - rewrite normal_cons by eauto using stringify_value_some.
    destruct fuel as [|fuel]; [simpl in Hfuel; lia|].
    simpl in Hfuel. rewrite parse_members_S.
    destruct (members r) as [|m' l] eqn:Hm.
    + simpl join_comma.
      rewrite !append_assoc, parse_string_quote.
      rewrite strip_prefix_app.
      rewrite (parse_value_print v sv "}") by done.
      simpl. by rewrite (members_nil_normal r Hm).
    + change (join_comma ((quote k +:+ ":" +:+ sv) :: m' :: l))
        with ((quote k +:+ ":" +:+ sv) +:+ "," +:+ join_comma (m' :: l)).
      rewrite !append_assoc, parse_string_quote.
      rewrite strip_prefix_app.
      rewrite (parse_value_print v sv) by done.
      rewrite strip_prefix_app.
      rewrite IH; [done | done | simpl in *; lia].
  - pose proof (stringify_value_none v Hv) as ->.
    rewrite normal_cons_undefined. apply IH; done.
Qed.

Lemma members_length (r : row) :
  (length (members r) <= String.length (join_comma (members r)))%nat.
Proof.
  assert (Forall (fun m => (1 <= String.length m)%nat) (members r)) as HF.
  { induction r as [|[k v] r IH]; simpl; [constructor|].
    destruct (stringify_value v); [|done].
    constructor; [|done]. unfold quote. rewrite append_cons. simpl. lia. }
  induction HF as [|m l Hm HF IH]; [simpl; lia|].
  destruct l as [|m' l]; [simpl; lia|].
  change (join_comma (m :: m' :: l)) with (m +:+ "," +:+ join_comma (m' :: l)).
  rewrite !length_append. simpl in *. lia.
Qed.

(** [JSON.parse] reads back what [JSON.stringify] wrote: the row less its
    properties that are [undefined]. *)
Theorem parse_stringify (r : row) : parse (stringify r) = Some (normal r).
Proof.
  unfold parse, stringify. rewrite strip_prefix_app.
  destruct (members r) as [|m l] eqn:Hm.
  - simpl. by rewrite (members_nil_normal r Hm).
  - pose proof (members_length r) as Hlen. rewrite Hm in Hlen.
    destruct (decide (join_comma (m :: l) +:+ "}" = "}")) as [E|_].
    + apply (f_equal String.length) in E. rewrite length_append in E.
      simpl in *. lia.
    + rewrite <- Hm. apply parse_members_print; [by rewrite Hm|].
      rewrite length_append. rewrite Hm. lia.
Qed.

Lemma stringify_normal (r : row) : stringify (normal r) = stringify r.
Proof. unfold stringify. by rewrite members_normal. Qed.

(** Rows with the same text differ in [undefined] properties only. *)
Lemma stringify_inj (r1 r2 : row) :
  stringify r1 = stringify r2 -> normal r1 = normal r2.
Proof.
  intros E. pose proof (parse_stringify r1) as H1.
  rewrite E, parse_stringify in H1. congruence.
Qed.

Lemma row_get_not_in (r : row) (column : string) :
  column ∉ r.*1 -> row_get r column = VUndefined.
Proof.
  induction r as [|[k v] r IH]; [done|]. rewrite fmap_cons, not_elem_of_cons.
  intros [Hk Hr]. simpl in *. destruct (decide (k = column)); [congruence|]. auto.
Qed.

(** Leaving out the [undefined] properties of an object changes no read. *)
Lemma row_get_normal (r : row) (column : string) :
  NoDup r.*1 -> row_get (JSON.normal r) column = row_get r column.
Proof.
  induction r as [|[k v] r IH]; [done|]. rewrite fmap_cons, NoDup_cons.
  intros [Hk Hr]. destruct (decide (v = VUndefined)) as [->|Hv].
  - rewrite normal_cons_undefined, (IH Hr). simpl.
    destruct (decide (k = column)) as [<-|]; [|done].
    by apply row_get_not_in.
  - rewrite normal_cons by done. simpl.
    destruct (decide (k = column)); [done|]. by apply IH.
Qed.

(** ** Sorting keeps the elements *)

Section sorting_facts.
  Context {A : Type} (le : A -> A -> bool).

Lemma insert_sorted_perm (x : A) (l : list A) : insert_sorted le x l ≡ₚ x :: l.
Proof.
  induction l as [|y l IH]; simpl; [done|].
  destruct (le x y); [done|]. rewrite IH. apply Permutation_swap.
Qed.

Lemma sort_by_perm (l : list A) : sort_by le l ≡ₚ l.
Proof.
  induction l as [|x l IH]; simpl; [done|].
  rewrite insert_sorted_perm. by rewrite IH.
Qed.

Lemma elem_of_sort_by (x : A) (l : list A) : x ∈ sort_by le l <-> x ∈ l.
Proof. by rewrite sort_by_perm. Qed.

Lemma NoDup_sort_by (l : list A) : NoDup (sort_by le l) <-> NoDup l.
Proof. by rewrite sort_by_perm. Qed.
End sorting_facts.

(** ** Keys and scans *)

Lemma string_compare_refl (s : string) : String.compare s s = Eq.
Proof.
  induction s as [|c s IH]; [done|]. simpl.
  unfold Ascii.compare. by rewrite N.compare_refl.
Qed.

(** Keys compare equal only when they are the same. *)
Lemma key_compare_eq (a b : value) :
  valid_key a = true -> valid_key b = true ->
  key_compare a b = Eq <-> a = b.
Proof.
  destruct a as [| | |x|x], b as [| | |y|y]; try done; intros _ _;
    unfold key_compare.
  - rewrite Z.compare_eq_iff. split; congruence.
  - split; [intros H; by apply String.compare_eq_iff in H as ->|].
    intros [= ->]. apply string_compare_refl.
Qed.

Lemma key_compare_antisym (a b : value) :
  key_compare a b = CompOpp (key_compare b a).
Proof.
  destruct a as [| | |x|x], b as [| | |y|y]; try done; unfold key_compare.
  - apply Z.compare_antisym.
  - apply String.compare_antisym.
Qed.

(** The range of a single key holds that key alone. *)
Lemma includes_only (v key : value) (range : IDBKeyRange.t) :
  IDBKeyRange.only v = inr range ->
  valid_key key = true ->
  IDBKeyRange.includes range key = true <-> key = v.
Proof.
  unfold IDBKeyRange.only. destruct (valid_key v) eqn:Hv; [|done].
  intros [= <-] Hk. unfold IDBKeyRange.includes. simpl. rewrite Hv.
  rewrite (key_compare_antisym key v).
  pose proof (key_compare_eq v key Hv Hk) as Heq.
  destruct (key_compare v key); simpl.
  - split; [intros _; symmetry; by apply Heq | done].
  - split; [done|]. intros ->. by destruct Heq as [_ Heq]; specialize (Heq eq_refl).
  - split; [done|]. intros ->. by destruct Heq as [_ Heq]; specialize (Heq eq_refl).
Qed.

Lemma elem_of_index_records (store : IDBObjectStore.t) (ix : IDBIndex.t) (r : row) :
  r ∈ IDBObjectStore.index_records store ix <->
  r ∈ IDBObjectStore.records store /\
  valid_key (row_get r (IDBIndex.keyPath ix)) = true.
Proof.
  unfold IDBObjectStore.index_records.
  rewrite elem_of_sort_by, list_elem_of_filter. tauto.
Qed.

(** What [getAll] returns: the stored rows whose indexed property is a key
    within the range. *)
Lemma elem_of_getAll (store : IDBObjectStore.t) (ix : IDBIndex.t)
    (q : value + IDBKeyRange.t) (range : IDBKeyRange.t) (batch : list row) (r : row) :
  query_to_range q = inr range ->
  IDBObjectStore.getAll store ix q = inr batch ->
  r ∈ batch <->
  r ∈ IDBObjectStore.records store /\
  valid_key (row_get r (IDBIndex.keyPath ix)) = true /\
  IDBKeyRange.includes range (row_get r (IDBIndex.keyPath ix)) = true.
Proof.
  unfold IDBObjectStore.getAll. intros ->. intros [= <-].
  rewrite list_elem_of_filter, elem_of_index_records. tauto.
Qed.

(** The scan of an equality clause on a key: the stored rows holding it. *)
Lemma scan_equality (store : IDBObjectStore.t) (column : string) (v : value) :
  indexed store column ->
  valid_key v = true ->
  exists batch, scan store (column, inl v) = inr batch /\
    forall r, r ∈ batch <-> r ∈ IDBObjectStore.records store /\ row_get r column = v.
Proof.
  intros (ix & Hix & Hpath) Hv. unfold scan, _getIndex. simpl. rewrite Hix. simpl.
  assert (query_to_range (inl v) = IDBKeyRange.only v) as Hq by (by destruct v).
  destruct (IDBKeyRange.only v) as [e|range] eqn:Hr.
  { unfold IDBKeyRange.only in Hr. by rewrite Hv in Hr. }
  unfold IDBObjectStore.getAll. rewrite Hq. eexists. split; [reflexivity|].
  intros r. rewrite list_elem_of_filter, elem_of_index_records, Hpath.
  split.
  - intros (Hin & Hrec & Hk). split; [done|]. by apply (includes_only v _ range).
  - intros (Hrec & <-). split; [|done]. by apply (includes_only (row_get r column) _ range).
Qed.

(** ** Loops and joined promises *)

Lemma for_of_cons {A S : Type} (body : S -> A -> error + S) (x : A) (l : list A) (s : S) :
  for_of body (x :: l) s
  = match body s x with
    | inl e => inl e
    | inr s' => for_of body l s'
    end.
Proof. reflexivity. Qed.

(** An invariant of the loop body is an invariant of the loop. *)
Lemma for_of_invariant {A S : Type} (P : S -> Prop) (body : S -> A -> error + S)
    (l : list A) (s s' : S) :
  (forall s x s', body s x = inr s' -> P s -> P s') ->
  for_of body l s = inr s' -> P s -> P s'.
Proof.
  intros Hbody. revert s. induction l as [|x l IH]; intros s.
  - by intros [= ->].
  - rewrite for_of_cons. destruct (body s x) as [|s1] eqn:Hs1; [done|]. eauto.
Qed.

Lemma Promise_all_nil {A : Type} : Promise_all (@nil (error + A)) = inr [].
Proof. reflexivity. Qed.

Lemma Promise_all_cons {A : Type} (p : error + A) (l : list (error + A)) :
  Promise_all (p :: l)
  = match p with
    | inl e => inl e
    | inr x => match Promise_all l with
               | inl e => inl e
               | inr xs => inr (x :: xs)
               end
    end.
Proof.
  unfold Promise_all. simpl. destruct p; [done|]. simpl. by destruct (mapM id l).
Qed.

Lemma Promise_all_length {A : Type} (l : list (error + A)) (xs : list A) :
  Promise_all l = inr xs -> length xs = length l.
Proof.
  revert xs. induction l as [|p l IH]; intros xs.
  - by intros [= <-].
  - rewrite Promise_all_cons. destruct p; [done|].
    destruct (Promise_all l) as [|ys]; [done|]. intros [= <-]. simpl. by rewrite (IH ys).
Qed.

Lemma same_batches_trans {A : Type} (x y z : error + list A) :
  same_batches x y -> same_batches y z -> same_batches x z.
Proof.
  destruct x, y, z; simpl; try done. intros. by etrans.
Qed.

(** Joining permuted promises: both joins reject, or they fulfil with
    permuted values. *)
Lemma Promise_all_perm {A : Type} (l l' : list (error + A)) :
  l ≡ₚ l' -> same_batches (Promise_all l) (Promise_all l').
Proof.
  induction 1 as [|x l l' Hl IH|x y l|l l' l'' H1 IH1 H2 IH2].
  - simpl. reflexivity.
  - rewrite !Promise_all_cons. destruct x; [done|].
    destruct (Promise_all l), (Promise_all l'); simpl in *; try done. by f_equiv.
  - rewrite !Promise_all_cons. destruct x, y; try done.
    destruct (Promise_all l); simpl; [done|]. apply Permutation_swap.
  - by eapply same_batches_trans.
Qed.

(** ** The guards *)

(** The third guard: an initialised database, a name, not a table. *)
Lemma check_missing (operation messageOperation noTable table : string)
    (st : state) (s : DatabaseSchema.t) :
  instance st <> None ->
  schema st = Some s ->
  table <> EmptyString ->
  table ∉ DatabaseSchema.tableNames s ->
  check operation messageOperation noTable table st
  = inl (missing_table_error messageOperation table).
Proof.
  intros Hi Hs Ht Hn. unfold check.
  destruct (instance st); [|done]. rewrite Hs.
  destruct (decide (table = EmptyString)); [done|].
  by rewrite bool_decide_eq_false_2.
Qed.

Lemma check_instance (operation messageOperation noTable table : string)
    (st : state) (connection : string) (s : DatabaseSchema.t) :
  check operation messageOperation noTable table st = inr (connection, s) ->
  instance st = Some connection.
Proof.
  unfold check. destruct (instance st); [|done].
  destruct (decide _); [done|]. destruct (schema st); [|done].
  destruct (bool_decide _); [|done]. by intros [= -> _].
Qed.

(** ** The parser *)

(** What an entry adds does not depend on what was collected before. *)
Lemma parse_entry_acc (additiveQueries subtractiveQueries : list clause)
    (entry : string * columnEntry) :
  parse_entry (additiveQueries, subtractiveQueries) entry
  = match entry_clauses entry with
    | inl e => inl e
    | inr (a, s) => inr (additiveQueries ++ a, subtractiveQueries ++ s)
    end.
Proof.
  unfold entry_clauses, parse_entry. destruct entry as [columnName [v|o]].
  - destruct (_isPrimitive v || bool_decide (v = VNull)); simpl;
      rewrite ?app_nil_r; reflexivity.
  - simpl.
    repeat match goal with
           | |- context [if ?b then _ else _] => destruct b
           | |- context [IDBKeyRange.bound ?a ?b ?c ?d] =>
               destruct (IDBKeyRange.bound a b c d)
           | |- context [IDBKeyRange.upperBound ?a ?b] =>
               destruct (IDBKeyRange.upperBound a b)
           | |- context [IDBKeyRange.lowerBound ?a ?b] =>
               destruct (IDBKeyRange.lowerBound a b)
           | _ => progress simpl
           end;
      rewrite <- ?app_assoc, ?app_nil_r; reflexivity.
Qed.

Lemma same_clauses_trans (x y z : error + (list clause * list clause)) :
  same_clauses x y -> same_clauses y z -> same_clauses x z.
Proof.
  destruct x as [?|[a s]], y as [?|[a' s']], z as [?|[a'' s'']]; simpl; try done.
  intros [H1 H2] [H3 H4]. split; by etrans.
Qed.

Lemma for_of_parse_entry_cons (entry : string * columnEntry) (q : query)
    (acc : list clause * list clause) :
  for_of parse_entry (entry :: q) acc
  = match entry_clauses entry with
    | inl e => inl e
    | inr (a, s) => for_of parse_entry q (acc.1 ++ a, acc.2 ++ s)
    end.
Proof.
  destruct acc as [additiveQueries subtractiveQueries].
  rewrite for_of_cons, parse_entry_acc. by destruct (entry_clauses entry) as [|[??]].
Qed.

Lemma for_of_parse_same (q : query) (acc acc' : list clause * list clause) :
  acc.1 ≡ₚ acc'.1 -> acc.2 ≡ₚ acc'.2 ->
  same_clauses (for_of parse_entry q acc) (for_of parse_entry q acc').
Proof.
  revert acc acc'. induction q as [|entry q IH]; intros [a s] [a' s'] Ha Hs.
  - by split.
  - rewrite !for_of_parse_entry_cons.
    destruct (entry_clauses entry) as [|[ea es]]; [done|].
    apply IH; simpl in *; by f_equiv.
Qed.

(** Parsing permuted entries: both parses throw, or they collect
    permuted clauses. *)
Lemma for_of_parse_perm (q q' : query) :
  q ≡ₚ q' ->
  forall acc acc' : list clause * list clause,
    acc.1 ≡ₚ acc'.1 -> acc.2 ≡ₚ acc'.2 ->
    same_clauses (for_of parse_entry q acc) (for_of parse_entry q' acc').
Proof.
  induction 1 as [|x l l' Hl IH|x y l|l l' l'' H1 IH1 H2 IH2]; intros acc acc' Ha Hs.
  - destruct acc, acc'. by split.
  - rewrite !for_of_parse_entry_cons.
    destruct (entry_clauses x) as [|[ea es]]; [done|].
    apply IH; simpl; by f_equiv.
  - rewrite (for_of_parse_entry_cons y), (for_of_parse_entry_cons x).
    destruct (entry_clauses x) as [|[xa xs]] eqn:Hx,
             (entry_clauses y) as [|[ya ys]] eqn:Hy;
      rewrite ?for_of_parse_entry_cons, ?Hx, ?Hy; try done.
    apply for_of_parse_same; simpl; rewrite <- !app_assoc.
    + rewrite Ha. f_equiv. apply Permutation_app_comm.
    + rewrite Hs. f_equiv. apply Permutation_app_comm.
  - eapply same_clauses_trans; [by apply IH1|]. by apply IH2.
Qed.

Lemma parse_query_perm (q q' : query) :
  q ≡ₚ q' -> same_clauses (parse_query q) (parse_query q').
Proof. intros H. unfold parse_query. by apply for_of_parse_perm. Qed.

(** Equality fields on keys parse to one clause each, in order. *)
Lemma for_of_parse_equalities (fields : list (string * value))
    (additiveQueries subtractiveQueries : list clause) :
  (forall column v, (column, v) ∈ fields -> valid_key v = true) ->
  for_of parse_entry (equalities fields) (additiveQueries, subtractiveQueries)
  = inr (additiveQueries ++ equality_clauses fields, subtractiveQueries).
Proof.
  revert additiveQueries. induction fields as [|[column v] fields IH];
    intros additiveQueries Hv.
  - simpl. by rewrite app_nil_r.
  - assert (valid_key v = true) as Hvalid by (apply (Hv column); by left).
    unfold equalities, equality_clauses. rewrite !fmap_cons. simpl.
    assert (_isPrimitive v || bool_decide (v = VNull) = true) as ->
      by (by destruct v).
    fold (equalities fields). rewrite IH.
    + by rewrite <- app_assoc.
    + intros c w Hin. apply (Hv c). by right.
Qed.

Lemma parse_equalities (fields : list (string * value)) :
  (forall column v, (column, v) ∈ fields -> valid_key v = true) ->
  parse_query (equalities fields) = inr (equality_clauses fields, []).
Proof. intros Hv. unfold parse_query. by rewrite for_of_parse_equalities. Qed.

(** ** The fold of the merge *)

(** After its first call the callback of the reduce is [intersect_step]. *)
Lemma reduce_skip_first (rest : list (list row)) (acc : list string) :
  (foldl (fun '(isFirst, accumulation) current =>
            if isFirst : bool then (false, accumulation)
            else (false, _intersect accumulation (_stringifyArrayElements current)))
         (false, acc) rest).2
  = foldl intersect_step acc rest.
Proof.
  revert acc. induction rest as [|b rest IH]; intros acc; simpl; [done|].
  apply IH.
Qed.

Lemma intersectAndStringify_cons (first : list row) (rest : list (list row)) :
  intersectAndStringifyArrayOfArrays (first :: rest)
  = inr (foldl intersect_step (_stringifyArrayElements first) rest).
Proof.
  unfold intersectAndStringifyArrayOfArrays. simpl. by rewrite reduce_skip_first.
Qed.

Lemma elem_of_intersect (base arr : list string) (s : string) :
  s ∈ _intersect base arr <-> s ∈ base /\ s ∈ arr.
Proof. unfold _intersect. by rewrite list_elem_of_filter. Qed.

Lemma elem_of_difference (base arr : list string) (s : string) :
  s ∈ _difference base arr <-> s ∈ base /\ s ∉ arr.
Proof. unfold _difference. rewrite list_elem_of_filter. tauto. Qed.

Lemma elem_of_fold_intersect (rest : list (list row)) (acc : list string) (s : string) :
  s ∈ foldl intersect_step acc rest <->
  s ∈ acc /\ forall b, b ∈ rest -> s ∈ _stringifyArrayElements b.
Proof.
  revert acc. induction rest as [|b rest IH]; intros acc;
    [|change (foldl intersect_step acc (b :: rest))
        with (foldl intersect_step (intersect_step acc b) rest)].
  - simpl. split; [intros H; split; [done|] | tauto].
    intros b Hb. by apply elem_of_nil in Hb.
  - rewrite IH. unfold intersect_step. rewrite elem_of_intersect.
    split.
    + intros [[H1 H2] H3]. split; [done|]. intros b' Hb'.
      apply elem_of_cons in Hb' as [->|Hb']; auto.
    + intros [H1 H2]. repeat split; [done | |].
      * apply H2. by left.
      * intros b' Hb'. apply H2. by right.
Qed.

(** The fold keeps exactly the contents found in every batch. *)
Lemma elem_of_intersectAndStringify (batches : list (list row)) (l : list string) (s : string) :
  intersectAndStringifyArrayOfArrays batches = inr l ->
  s ∈ l <-> in_all_batches batches s.
Proof.
  destruct batches as [|first rest]; [done|].
  rewrite intersectAndStringify_cons. intros [= <-].
  rewrite elem_of_fold_intersect. unfold in_all_batches. split.
  - intros [H1 H2] b Hb. apply elem_of_cons in Hb as [->|Hb]; auto.
  - intros H. split; [apply H; by left|]. intros b Hb. apply H. by right.
Qed.

Lemma intersectAndStringify_nonempty (batches : list (list row)) :
  batches <> [] -> exists l, intersectAndStringifyArrayOfArrays batches = inr l.
Proof.
  destruct batches as [|first rest]; [done|]. intros _.
  rewrite intersectAndStringify_cons. eauto.
Qed.

(** The fold keeps a subsequence of the last batch. *)
Lemma fold_intersect_sublist (rest : list (list row)) (acc : list string) (b : list row) :
  last rest = Some b ->
  sublist (foldl intersect_step acc rest) (_stringifyArrayElements b).
Proof.
  revert acc. induction rest as [|b0 rest IH]; intros acc Hlast; [done|].
  simpl. destruct rest as [|b1 rest].
  - simpl in *. injection Hlast as ->. apply sublist_filter.
  - apply IH. by rewrite last_cons_cons in Hlast.
Qed.

Lemma intersectAndStringify_sublist (batches : list (list row)) (l : list string) (b : list row) :
  intersectAndStringifyArrayOfArrays batches = inr l ->
  last batches = Some b ->
  sublist l (_stringifyArrayElements b).
Proof.
  destruct batches as [|first rest]; [done|].
  rewrite intersectAndStringify_cons. intros [= <-] Hlast.
  destruct rest as [|b1 rest].
  - simpl in *. by injection Hlast as ->.
  - apply fold_intersect_sublist. by rewrite last_cons_cons in Hlast.
Qed.

Lemma in_all_batches_singleton (batch : list row) (content : string) :
  in_all_batches [batch] content <-> content ∈ _stringifyArrayElements batch.
Proof.
  unfold in_all_batches. split.
  - intros H. apply H. by left.
  - intros H b Hb. by apply list_elem_of_singleton in Hb as ->.
Qed.

Lemma in_all_batches_perm (batches batches' : list (list row)) (content : string) :
  batches ≡ₚ batches' ->
  in_all_batches batches content <-> in_all_batches batches' content.
Proof.
  intros H. unfold in_all_batches. by setoid_rewrite H.
Qed.

Lemma parseArrayElements_cons (s : string) (l : list string) :
  _parseArrayElements (s :: l) =
  match JSON.parse s with
  | Some r =>
      match _parseArrayElements l with
      | inr rows => inr (r :: rows)
      | inl e => inl e
      end
  | None => inl (Error "SyntaxError")
  end.
Proof.
  unfold _parseArrayElements. simpl. destruct (JSON.parse s); [|done].
  simpl. by destruct (mapM _ l).
Qed.

(** What was stringified parses, to rows with the same texts. *)
Lemma parseArrayElements_stringified (l : list string) :
  stringified l ->
  exists rows, _parseArrayElements l = inr rows /\
               _stringifyArrayElements rows = l.
Proof.
  induction l as [|s l IH]; intros Hl.
  - by exists [].
  - destruct (Hl s) as [r ->]; [by left|].
    destruct IH as (rows & Hrows & Hstr).
    { intros s Hs. apply Hl. by right. }
    exists (JSON.normal r :: rows). split.
    + by rewrite parseArrayElements_cons, parse_stringify, Hrows.
    + unfold _stringifyArrayElements in *.
      by rewrite fmap_cons, stringify_normal, Hstr.
Qed.

Lemma stringified_intersect (batches : list (list row)) (l : list string) :
  intersectAndStringifyArrayOfArrays batches = inr l -> stringified l.
Proof.
  intros Hl s Hs. rewrite (elem_of_intersectAndStringify _ _ _ Hl) in Hs.
  destruct batches as [|first rest]; [done|].
  specialize (Hs first (list_elem_of_here _ _)).
  apply list_elem_of_fmap in Hs as (r & -> & _). by exists r.
Qed.

Lemma stringified_difference (l l' : list string) :
  stringified l -> stringified (_difference l l').
Proof. intros Hl s Hs. apply elem_of_difference in Hs as [Hs _]. auto. Qed.

Lemma intersectAndStringify_perm (batches batches' : list (list row)) :
  batches ≡ₚ batches' ->
  match intersectAndStringifyArrayOfArrays batches,
        intersectAndStringifyArrayOfArrays batches' with
  | inl _, inl _ => True
  | inr l, inr l' => stringified l /\ stringified l' /\ forall s, s ∈ l <-> s ∈ l'
  | _, _ => False
  end.
Proof.
  intros H.
  destruct batches as [|b batches], batches' as [|b' batches'].
  - done.
  - by apply Permutation_nil_l in H.
  - by apply Permutation_nil_r in H.
  - destruct (intersectAndStringifyArrayOfArrays (b :: batches)) as [|l] eqn:Hl;
      [by rewrite intersectAndStringify_cons in Hl|].
    destruct (intersectAndStringifyArrayOfArrays (b' :: batches')) as [|l'] eqn:Hl';
      [by rewrite intersectAndStringify_cons in Hl'|].
    split; [by eapply stringified_intersect|].
    split; [by eapply stringified_intersect|].
    intros s. rewrite (elem_of_intersectAndStringify _ _ _ Hl).
    rewrite (elem_of_intersectAndStringify _ _ _ Hl').
    by apply in_all_batches_perm.
Qed.

Lemma parse_same_strings (l l' : list string) :
  stringified l -> stringified l' -> (forall s, s ∈ l <-> s ∈ l') ->
  same_rows
    match _parseArrayElements l with
    | inl e => Pending e
    | inr rows => Resolves (Rows rows)
    end
    match _parseArrayElements l' with
    | inl e => Pending e
    | inr rows => Resolves (Rows rows)
    end.
Proof.
  intros Hl Hl' Heq.
  destruct (parseArrayElements_stringified l Hl) as (rows & -> & <-).
  destruct (parseArrayElements_stringified l' Hl') as (rows' & -> & <-).
  exact Heq.
Qed.

(** ** The ways through the merge *)

(** The early return. *)
Lemma merge_direct (subtractiveQueries : list clause)
    (subtractivePromises : list (error + list row)) (additiveResult : list (list row)) :
  direct subtractiveQueries additiveResult ->
  merge subtractiveQueries subtractivePromises additiveResult
  = Resolves (match additiveResult with
              | [] => Undefined
              | batch :: _ => Rows batch
              end).
Proof.
  intros [H1 H2]. unfold merge.
  rewrite (bool_decide_eq_true_2 _ H1), (bool_decide_eq_true_2 _ H2). reflexivity.
Qed.

(** Past the early return. *)
Lemma merge_not_direct (subtractiveQueries : list clause)
    (subtractivePromises : list (error + list row)) (additiveResult : list (list row)) :
  ~ direct subtractiveQueries additiveResult ->
  merge subtractiveQueries subtractivePromises additiveResult
  = match intersectAndStringifyArrayOfArrays additiveResult with
    | inl e => Pending e
    | inr stringifiedAdditiveResults =>
        if bool_decide (length subtractivePromises = 0%nat) then
          match _parseArrayElements stringifiedAdditiveResults with
          | inl e => Pending e
          | inr rows => Resolves (Rows rows)
          end
        else
          match Promise_all subtractivePromises with
          | inl e => Pending e
          | inr subtractiveResult =>
              match intersectAndStringifyArrayOfArrays subtractiveResult with
              | inl e => Pending e
              | inr stringifiedSubtractiveResults =>
                  match _parseArrayElements
                          (_difference stringifiedAdditiveResults
                                       stringifiedSubtractiveResults) with
                  | inl e => Pending e
                  | inr rows => Resolves (Rows rows)
                  end
              end
          end
    end.
Proof.
  intros Hd. unfold merge.
  destruct (bool_decide (length subtractiveQueries = 0%nat)) eqn:H1;
    destruct (bool_decide (length additiveResult <= 1)%nat) eqn:H2; try done.
  destruct Hd. split; by eapply bool_decide_eq_true_1.
Qed.

(** No batch at all, with a [$ne] clause: the fold throws. *)
Lemma merge_no_inclusion (subtractiveQueries : list clause)
    (subtractivePromises : list (error + list row)) :
  subtractiveQueries <> [] ->
  merge subtractiveQueries subtractivePromises []
  = Pending (TypeError "Cannot read properties of undefined (reading 'map')").
Proof.
  intros Hne. unfold merge.
  rewrite bool_decide_eq_false_2; [done|]. by destruct subtractiveQueries.
Qed.

(** Batches and no [$ne] clause: the intersection. *)
Lemma merge_inclusion_only (subtractiveQueries : list clause)
    (additiveResult : list (list row)) :
  ~ direct subtractiveQueries additiveResult ->
  additiveResult <> [] ->
  exists rows l,
    intersectAndStringifyArrayOfArrays additiveResult = inr l /\
    merge subtractiveQueries [] additiveResult = Resolves (Rows rows) /\
    _stringifyArrayElements rows = l.
Proof.
  intros Hd Hne. rewrite merge_not_direct by done.
  destruct (intersectAndStringify_nonempty additiveResult Hne) as [l Hl].
  destruct (parseArrayElements_stringified l) as (rows & Hrows & Hstr).
  { by eapply stringified_intersect. }
  exists rows, l. by rewrite Hl, Hrows.
Qed.

(** Batches and [$ne] scans that succeed: the difference of the two
    intersections. *)
Lemma merge_exclusion (subtractiveQueries : list clause)
    (subtractivePromises : list (error + list row))
    (subtractiveResult additiveResult : list (list row)) :
  ~ direct subtractiveQueries additiveResult ->
  additiveResult <> [] ->
  subtractivePromises <> [] ->
  Promise_all subtractivePromises = inr subtractiveResult ->
  exists rows l l',
    intersectAndStringifyArrayOfArrays additiveResult = inr l /\
    intersectAndStringifyArrayOfArrays subtractiveResult = inr l' /\
    merge subtractiveQueries subtractivePromises additiveResult = Resolves (Rows rows) /\
    _stringifyArrayElements rows = _difference l l'.
Proof.
  intros Hd Hne Hsub Hall. rewrite merge_not_direct by done.
  destruct (intersectAndStringify_nonempty additiveResult Hne) as [l Hl].
  destruct (intersectAndStringify_nonempty subtractiveResult) as [l' Hl'].
  { apply Promise_all_length in Hall. destruct subtractiveResult; [|done].
    by destruct subtractivePromises. }
  destruct (parseArrayElements_stringified (_difference l l')) as (rows & Hrows & Hstr).
  { eapply stringified_difference, stringified_intersect; done. }
  exists rows, l, l'. rewrite Hl, Hall, Hl', Hrows.
  rewrite bool_decide_eq_false_2; [done|]. by destruct subtractivePromises.
Qed.

Lemma merge_inclusion_contents (additiveResult : list (list row)) :
  additiveResult <> [] ->
  exists rows,
    merge [] [] additiveResult = Resolves (Rows rows) /\
    forall content,
      content ∈ JSON.stringify <$> rows <-> in_all_batches additiveResult content.
Proof.
  intros Hne. destruct (decide (direct [] additiveResult)) as [Hd|Hd].
  - rewrite merge_direct by done. destruct Hd as [_ Hd].
    destruct additiveResult as [|b [|b' rest]]; simpl in *; [done| |lia].
    exists b. split; [done|]. intros content. by rewrite in_all_batches_singleton.
  - destruct (merge_inclusion_only [] additiveResult Hd Hne) as (rows & l & Hl & Hm & Hs).
    exists rows. split; [done|]. intros content.
    unfold _stringifyArrayElements in Hs. rewrite Hs.
    by apply elem_of_intersectAndStringify.
Qed.

(** The merge of permuted batches and permuted [$ne] scans. *)
Lemma merge_perm (subtractiveQueries subtractiveQueries' : list clause)
    (subtractivePromises subtractivePromises' : list (error + list row))
    (additiveResult additiveResult' : list (list row)) :
  subtractiveQueries ≡ₚ subtractiveQueries' ->
  subtractivePromises ≡ₚ subtractivePromises' ->
  additiveResult ≡ₚ additiveResult' ->
  same_rows (merge subtractiveQueries subtractivePromises additiveResult)
            (merge subtractiveQueries' subtractivePromises' additiveResult').
Proof.
  intros Hq Hp Ha.
  pose proof (Permutation_length Hq) as Hlq.
  pose proof (Permutation_length Hp) as Hlp.
  pose proof (Permutation_length Ha) as Hla.
  destruct (decide (direct subtractiveQueries additiveResult)) as [Hd|Hd].
  - assert (direct subtractiveQueries' additiveResult') as Hd'.
    { destruct Hd. split; congruence. }
    rewrite !merge_direct by done. destruct Hd as [_ Hd].
    destruct additiveResult as [|b [|b' rest]]; simpl in Hd; [| |lia].
    + by apply Permutation_nil_l in Ha as <-.
    + by apply Permutation_singleton_l in Ha as <-.
  - assert (~ direct subtractiveQueries' additiveResult') as Hd'.
    { intros []. apply Hd. split; congruence. }
    rewrite !merge_not_direct by done.
    pose proof (intersectAndStringify_perm _ _ Ha) as Hi.
    destruct (intersectAndStringifyArrayOfArrays additiveResult) as [|l],
             (intersectAndStringifyArrayOfArrays additiveResult') as [|l'];
      try done.
    destruct Hi as (Hl & Hl' & Heq). rewrite <- Hlp.
    destruct (bool_decide (length subtractivePromises = 0%nat)).
    + by apply parse_same_strings.
    + pose proof (Promise_all_perm _ _ Hp) as Hall.
      destruct (Promise_all subtractivePromises) as [|sr],
               (Promise_all subtractivePromises') as [|sr']; try done.
      simpl in Hall.
      pose proof (intersectAndStringify_perm _ _ Hall) as Hi.
      destruct (intersectAndStringifyArrayOfArrays sr) as [|k],
               (intersectAndStringifyArrayOfArrays sr') as [|k']; try done.
      destruct Hi as (_ & _ & Heq').
      apply parse_same_strings; [by apply stringified_difference ..|].
      intros s. rewrite !elem_of_difference, Heq, Heq'. done.
Qed.

(** ** select without the call log *)

Lemma databases_log (c : call) (st : state) :
  IDBFactory.databases (indexedDB (log c st)) = IDBFactory.databases (indexedDB st).
Proof. reflexivity. Qed.

Lemma databases_log_scans (store : IDBObjectStore.t) (l : list clause) (st : state) :
  IDBFactory.databases (indexedDB (foldl (log_scan store) st l))
  = IDBFactory.databases (indexedDB st).
Proof.
  revert st. induction l as [|c l IH]; intros st; simpl; [done|].
  rewrite IH. unfold log_scan. by destruct (IDBObjectStore.index store c.1).
Qed.

Lemma open_store_databases (connection table : string) (st st' : state) :
  IDBFactory.databases (indexedDB st') = IDBFactory.databases (indexedDB st) ->
  open_store connection table st' = open_store connection table st.
Proof. unfold open_store. by intros ->. Qed.

Lemma getPromises_fst (connection table : string) (l : list clause) (st : state) :
  (getPromisesFromQueryArray connection table l st).1
  = (fun store => scan store <$> l) <$> open_store connection table st.
Proof.
  unfold getPromisesFromQueryArray, transaction, open_store.
  destruct (IDBFactory.databases (indexedDB st) !! connection) as [db|]; [|done].
  by destruct (IDBDatabase.objectStores db !! table).
Qed.

Lemma getPromises_databases (connection table : string) (l : list clause) (st : state) :
  IDBFactory.databases (indexedDB (getPromisesFromQueryArray connection table l st).2)
  = IDBFactory.databases (indexedDB st).
Proof.
  unfold getPromisesFromQueryArray, transaction.
  destruct (IDBFactory.databases (indexedDB st) !! connection) as [db|]; [|done].
  destruct (IDBDatabase.objectStores db !! table); [|done].
  simpl. by rewrite databases_log_scans.
Qed.

(** The fate of [select] is [select_outcome]: the log of calls plays no
    part in it. *)
Lemma select_fst (table : string) (q : query) (st : state) :
  (select table q st).1 = select_outcome table q st.
Proof.
  unfold select, select_outcome.
  destruct (check _ _ _ table st) as [e|[connection s]]; [done|].
  destruct (parse_query q) as [e|[additiveQueries subtractiveQueries]]; [done|].
  pose proof (getPromises_fst connection table additiveQueries st) as H1.
  pose proof (getPromises_databases connection table additiveQueries st) as HD.
  destruct (getPromisesFromQueryArray connection table additiveQueries st)
    as [[e|additivePromises] st1]; simpl in H1, HD.
  - destruct (open_store connection table st); by simplify_eq/=.
  - pose proof (getPromises_fst connection table subtractiveQueries st1) as H2.
    rewrite (open_store_databases _ _ _ _ HD) in H2.
    destruct (open_store connection table st) as [e|store]; [done|].
    simpl in H1, H2. injection H1 as ->.
    destruct (getPromisesFromQueryArray connection table subtractiveQueries st1)
      as [[e|subtractivePromises] st2]; simpl in H2; [done|].
    injection H2 as ->. simpl.
    by destruct (Promise_all (scan store <$> additiveQueries)).
Qed.

(** The scans of equality clauses on keys of indexed columns succeed, each
    with the stored rows that hold the key. *)
Lemma scans_equalities (store : IDBObjectStore.t) (fields : list (string * value)) :
  (forall column v, (column, v) ∈ fields ->
     valid_key v = true /\ indexed store column) ->
  exists batches,
    Promise_all (scan store <$> equality_clauses fields) = inr batches /\
    Forall2 (fun field batch =>
               forall r, r ∈ batch <->
                 r ∈ IDBObjectStore.records store /\ row_get r field.1 = field.2)
            fields batches.
Proof.
  induction fields as [|[column v] fields IH]; intros Hf.
  - exists []. split; [done | constructor].
  - destruct (Hf column v) as [Hv Hix]; [by left|].
    destruct (scan_equality store column v Hix Hv) as (batch & Hscan & Hbatch).
    destruct IH as (batches & Hall & HF).
    { intros c w Hin. apply Hf. by right. }
    exists (batch :: batches). split.
    + unfold equality_clauses in *. rewrite !fmap_cons, Promise_all_cons. simpl.
      by rewrite Hscan, Hall.
    + by constructor.
Qed.

Lemma in_all_batches_equalities (store : IDBObjectStore.t)
    (fields : list (string * value)) (batches : list (list row)) (content : string) :
  Forall2 (fun field batch =>
             forall r, r ∈ batch <->
               r ∈ IDBObjectStore.records store /\ row_get r field.1 = field.2)
          fields batches ->
  in_all_batches batches content <->
  forall field, field ∈ fields ->
    exists r, r ∈ IDBObjectStore.records store /\ row_get r field.1 = field.2 /\
              JSON.stringify r = content.
Proof.
  unfold in_all_batches, _stringifyArrayElements.
  induction 1 as [|field batch fields batches Hb HF IH].
  - split; intros _ x Hx; by apply elem_of_nil in Hx.
  - split.
    + intros H f Hf. apply elem_of_cons in Hf as [->|Hf].
      * specialize (H batch (list_elem_of_here _ _)).
        apply list_elem_of_fmap in H as (r & -> & Hr). apply Hb in Hr as [??].
        by exists r.
      * apply IH; [|done]. intros b Hin. apply H. by right.
    + intros H b Hin. apply elem_of_cons in Hin as [->|Hin].
      * destruct (H field) as (r & Hr & Hcol & <-); [by left|].
        apply list_elem_of_fmap_2. by apply Hb.
      * apply IH; [|done]. intros f Hf. apply H. by right.
Qed.

(** ** upgrade makes empty tables *)

Lemma createIndex_records (store store' : IDBObjectStore.t) (n keyPath : string)
    (options : ColumnSchema.ColumnSchemaOptions) :
  IDBObjectStore.createIndex store n keyPath options = inr store' ->
  IDBObjectStore.name store' = IDBObjectStore.name store /\
  IDBObjectStore.records store' = IDBObjectStore.records store.
Proof.
  unfold IDBObjectStore.createIndex.
  destruct (IDBObjectStore.index store n); [|done].
  destruct (valid_key_path keyPath); [|done]. by intros [= <-].
Qed.

Lemma upgrade_table_empty (db db' : IDBDatabase.t) (table : TableSchema.t) :
  (tableStore ← IDBDatabase.createObjectStore db (TableSchema.name table)
                  (ColumnSchema.name (TableSchema.keyColumn table))
                  (TableSchema.autoIncrement table);
   tableStore ← for_of (fun store column =>
                  IDBObjectStore.createIndex store (ColumnSchema.name column)
                    (ColumnSchema.name column) (ColumnSchema.options column))
                  (TableSchema.otherColumns table) tableStore;
   mret (IDBDatabase.set_store db tableStore)) = inr db' ->
  IDBDatabase.name db' = IDBDatabase.name db /\
  (empty_database db -> empty_database db').
Proof.
  unfold IDBDatabase.createObjectStore.
  destruct (valid_key_path _); [|done].
  destruct (IDBDatabase.objectStores db !! TableSchema.name table); [done|].
  destruct (_ && _); [done|].
  simpl.
  match goal with
  | |- context [for_of ?body ?l ?s0] =>
      destruct (for_of body l s0) as [|store] eqn:Hfor; [done|];
      apply (for_of_invariant
               (fun store => IDBObjectStore.records store = []) body l s0 store)
        in Hfor as Hrec; [| |done]
  end.
  - simpl. intros [= <-]. split; [done|].
    intros Hdb t store0. unfold IDBDatabase.set_store. simpl.
    rewrite lookup_insert. destruct (decide _); [by intros [= <-] | by apply Hdb].
  - intros s0 x s1 Hx Hs0. apply createIndex_records in Hx as [_ ->]. done.
Qed.

(** [upgrade] keeps the name of the database and adds empty stores only. *)
Lemma upgrade_empty (schema : DatabaseSchema.t) (db db' : IDBDatabase.t) :
  upgrade schema db = inr db' ->
  IDBDatabase.name db' = IDBDatabase.name db /\
  (empty_database db -> empty_database db').
Proof.
  unfold upgrade. intros H.
  apply (for_of_invariant
           (fun d => IDBDatabase.name d = IDBDatabase.name db /\
                     (empty_database db -> empty_database d))) in H; [done| |done].
  intros d table d' Hd [Hname Hempty].
  apply upgrade_table_empty in Hd as [Hn He]. split; [congruence | auto].
Qed.

(** ** init on a well-formed schema *)

Lemma index_not_found (store : IDBObjectStore.t) (n : string) :
  n ∉ IDBIndex.name <$> IDBObjectStore.indexes store ->
  IDBObjectStore.index store n = inl NotFoundError.
Proof.
  intros Hn. unfold IDBObjectStore.index.
  destruct (list_find _ _) as [[i ix]|] eqn:Hf; [|done].
  apply list_find_Some in Hf as (Hi & Hix & _). destruct Hn.
  apply list_elem_of_fmap. exists ix. split; [done|]. by eapply list_elem_of_lookup_2.
Qed.

(** Distinct column names that are key paths, none indexed yet: every
    [createIndex] succeeds. *)
Lemma createIndex_columns (columns : list ColumnSchema.t) (store : IDBObjectStore.t) :
  NoDup (ColumnSchema.name <$> columns) ->
  (forall column, column ∈ columns ->
     valid_key_path (ColumnSchema.name column) = true) ->
  (forall column, column ∈ columns ->
     ColumnSchema.name column ∉ IDBIndex.name <$> IDBObjectStore.indexes store) ->
  for_of (fun store column =>
            IDBObjectStore.createIndex store (ColumnSchema.name column)
              (ColumnSchema.name column) (ColumnSchema.options column))
         columns store
  = inr {| IDBObjectStore.name := IDBObjectStore.name store;
           IDBObjectStore.keyPath := IDBObjectStore.keyPath store;
           IDBObjectStore.autoIncrement := IDBObjectStore.autoIncrement store;
           IDBObjectStore.generator := IDBObjectStore.generator store;
           IDBObjectStore.indexes :=
             IDBObjectStore.indexes store ++ (column_index <$> columns);
           IDBObjectStore.records := IDBObjectStore.records store |}.
Proof.
  revert store.
  induction columns as [|column columns IH]; intros store Hnd Hpaths Hfresh.
  - simpl. rewrite app_nil_r. by destruct store.
  - rewrite fmap_cons, NoDup_cons in Hnd. destruct Hnd as [Hc Hnd].
    rewrite for_of_cons. unfold IDBObjectStore.createIndex at 1.
    rewrite index_not_found by (apply Hfresh; by left).
    rewrite (Hpaths column) by (by left). cbn [negb].
    rewrite IH; [|done| |].
    + simpl. rewrite <- app_assoc. reflexivity.
    + intros c Hin. apply Hpaths. by right.
    + intros c Hin. simpl. rewrite fmap_app, elem_of_app. intros [H|H].
      * by apply (Hfresh c); [right|].
      * apply list_elem_of_singleton in H. simpl in H. apply Hc. rewrite <- H.
        by apply list_elem_of_fmap_2.
Qed.

(** On distinct names [upgrade] succeeds and makes [table_store] of every
    table. *)
Lemma upgrade_tables (tables : list TableSchema.t) (db : IDBDatabase.t) :
  NoDup (TableSchema.name <$> tables) ->
  (forall table, table ∈ tables ->
     NoDup (ColumnSchema.name <$> TableSchema.otherColumns table) /\
     IDBDatabase.objectStores db !! TableSchema.name table = None /\
     valid_key_path (ColumnSchema.name (TableSchema.keyColumn table)) = true /\
     (TableSchema.autoIncrement table = true ->
      ColumnSchema.name (TableSchema.keyColumn table) <> EmptyString) /\
     forall column, column ∈ TableSchema.otherColumns table ->
       valid_key_path (ColumnSchema.name column) = true) ->
  exists db',
    for_of (fun db table =>
      tableStore ← IDBDatabase.createObjectStore db (TableSchema.name table)
                     (ColumnSchema.name (TableSchema.keyColumn table))
                     (TableSchema.autoIncrement table);
      tableStore ← for_of (fun store column =>
                     IDBObjectStore.createIndex store (ColumnSchema.name column)
                       (ColumnSchema.name column) (ColumnSchema.options column))
                     (TableSchema.otherColumns table) tableStore;
      mret (IDBDatabase.set_store db tableStore)) tables db = inr db' /\
    IDBDatabase.name db' = IDBDatabase.name db /\
    IDBDatabase.version db' = IDBDatabase.version db /\
    (forall table, table ∈ tables ->
       IDBDatabase.objectStores db' !! TableSchema.name table
       = Some (table_store table)) /\
    (forall n, n ∉ TableSchema.name <$> tables ->
       IDBDatabase.objectStores db' !! n = IDBDatabase.objectStores db !! n).
Proof.
  revert db. induction tables as [|table tables IH]; intros db Hnd Hfresh.
  - exists db. repeat split; try done. intros t Ht. by apply elem_of_nil in Ht.
  - rewrite fmap_cons, NoDup_cons in Hnd. destruct Hnd as [Ht Hnd].
    destruct (Hfresh table) as (Hcols & Hnone & Hkey & Hauto & Hpaths); [by left|].
    rewrite for_of_cons. unfold IDBDatabase.createObjectStore at 1.
    rewrite Hkey, Hnone. cbn [negb].
    assert (TableSchema.autoIncrement table
            && bool_decide (ColumnSchema.name (TableSchema.keyColumn table) = EmptyString)
            = false) as ->.
    { destruct (TableSchema.autoIncrement table); [|done].
      by rewrite bool_decide_eq_false_2 by (by apply Hauto). }
    simpl.
    rewrite createIndex_columns; [|done|done|]; simpl.
    2:{ intros c _ Hin. by apply elem_of_nil in Hin. }
    fold (table_store table).
    destruct (IH (IDBDatabase.set_store db (table_store table)) Hnd)
      as (db' & Hfor & Hname & Hversion & Hin & Hout).
    { intros t Hin. destruct (Hfresh t) as (? & Hn & ?); [by right|]. split; [done|].
      split; [|done].
      simpl. rewrite lookup_insert_ne; [done|].
      intros Heq. apply Ht. rewrite Heq. by apply list_elem_of_fmap_2. }
    exists db'. split; [done|]. split; [done|]. split; [done|]. split.
    + intros t Hin'. apply elem_of_cons in Hin' as [->|Hin']; [|by apply Hin].
      rewrite Hout by done. simpl. by rewrite lookup_insert_eq.
    + intros n Hn. rewrite not_elem_of_cons in Hn. destruct Hn as [Hn1 Hn2].
      rewrite Hout by done. simpl. by rewrite lookup_insert_ne.
Qed.

(** [init] resolves for a well-formed schema whose key paths the engine
    accepts, and then the connection is to a database that holds the
    stores of the schema's tables, without records. *)
Theorem init_resolves (schema : DatabaseSchema.t) (st : state) :
  supported st = true ->
  well_formed schema ->
  key_paths_accepted schema ->
  exists st' db,
    init schema st = (Resolves (), st') /\
    instance st' = Some (DatabaseSchema.name schema) /\
    LocalDatabase.schema st' = Some schema /\
    IDBFactory.databases (indexedDB st') !! DatabaseSchema.name schema = Some db /\
    forall table, table ∈ DatabaseSchema.tables schema ->
      IDBDatabase.objectStores db !! TableSchema.name table = Some (table_store table).
Proof.
  intros Hs [Hnd Hcols] Hpaths. unfold init. rewrite Hs. simpl.
  unfold IDBFactory.open, IDBFactory.deleteDatabase. simpl.
  rewrite lookup_delete_eq. simpl. unfold upgrade.
  destruct (upgrade_tables (DatabaseSchema.tables schema)
              {| IDBDatabase.name := DatabaseSchema.name schema;
                 IDBDatabase.version := 0; IDBDatabase.objectStores := ∅ |} Hnd)
    as (db' & -> & Hname & _ & Hin & _).
  { intros t Ht. split; [by apply Hcols|]. split; [apply lookup_empty|].
    by apply Hpaths. }
  simpl in Hname. eexists _, _. split; [reflexivity|]. simpl.
  rewrite Hname, lookup_insert_eq. repeat split; try done.
Qed.

(** The columns of a table made by [upgrade] are indexed. *)
Lemma table_store_indexed (table : TableSchema.t) (column : ColumnSchema.t) :
  column ∈ TableSchema.otherColumns table ->
  indexed (table_store table) (ColumnSchema.name column).
Proof.
  intros Hin. unfold indexed, IDBObjectStore.index. simpl.
  destruct (list_find _ _) as [[i ix]|] eqn:Hf.
  - apply list_find_Some in Hf as (Hi & Hix & _). exists ix. split; [done|].
    apply list_elem_of_lookup_2, list_elem_of_fmap in Hi as (c & -> & _).
    exact Hix.
  - apply list_find_None in Hf. rewrite Forall_forall in Hf.
    destruct (Hf (column_index column)); [|done].
    by apply list_elem_of_fmap_2.
Qed.

(** ** The example page, run *)

Example page_init : (init dbSchema browser).1 = Resolves ().
Proof. vm_compute. reflexivity. Qed.

Example page_delete : (delete "People" under_18 inserted).1 = Resolves [()].
Proof. vm_compute. reflexivity. Qed.

Example page_all_entries :
  (select "People" all_entries populated).1
  = Resolves (Rows [person 7 "Billy" "Jean" 19; person 8 "Sarah" "Jones" 19;
                    person 9 "Karen" "Maker" 19; person 4 "David" "Gray" 20;
                    person 2 "Bob" "Smith" 35; person 1 "John" "Doe" 42;
                    person 3 "Harry" "Gardener" 66; person 5 "John" "Robson" 69;
                    person 6 "John" "Gilmore" 69]).
Proof. vm_compute. reflexivity. Qed.

Example page_people_20_to_60 :
  (select "People" people_20_to_60 populated).1
  = Resolves (Rows [person 4 "David" "Gray" 20; person 2 "Bob" "Smith" 35;
                    person 1 "John" "Doe" 42]).
Proof. vm_compute. reflexivity. Qed.

Example page_query_result :
  (select "People" john_69_not_gilmore populated).1
  = Resolves (Rows [person 5 "John" "Robson" 69]).
Proof. vm_compute. reflexivity. Qed.

Example page_calls_of_select :
  IDBFactory.calls (indexedDB (select "People" john_69_not_gilmore populated).2)
  = IDBFactory.calls (indexedDB populated)
    ++ [call_transaction "MyDatabase" "People" readonly;
        call_getAll "People" "firstName" (inl (VStr "John"));
        call_getAll "People" "age" (inl (VNum 69));
        call_transaction "MyDatabase" "People" readonly;
        call_getAll "People" "lastName" (inl (VStr "Gilmore"))].
Proof. vm_compute. reflexivity. Qed.

(** An operator object without operators contributes no clause. *)
Example no_operator_no_clause :
  parse_query [("age", inr no_operators)] = inr ([], []).
Proof. reflexivity. Qed.

(** Key paths are identifiers with periods between them. *)
Example key_paths_of_names :
  valid_key_path "firstName" = true /\ valid_key_path "" = true /\
  valid_key_path "address.city" = true /\ valid_key_path "$_1" = true /\
  valid_key_path "first name" = false /\ valid_key_path "2nd" = false /\
  valid_key_path "a..b" = false /\ valid_key_path "a." = false /\
  valid_key_path ".a" = false.
Proof. vm_compute. repeat split. Qed.

(** A column whose name is no key path: the upgrade is aborted, [init] is
    rejected and no database is left. *)
Example init_rejects_key_path :
  let schema :=
    DatabaseSchema.constructor "Shop"
      [{| TableSchema.name := "Customers";
          TableSchema.keyColumn := ColumnSchema.constructor "id" None;
          TableSchema.otherColumns := [ColumnSchema.constructor "first name" None];
          TableSchema.autoIncrement := false |}] in
  (exists message,
     (init schema browser).1 = Rejects (opening_error "AbortError" message)) /\
  IDB.IDBFactory.databases (indexedDB (init schema browser).2) !! "Shop" = None.
Proof. split; [eexists|]; vm_compute; reflexivity. Qed.

(** The key column has no index: a query on it is lost in the scan. *)
Example key_column_is_not_indexed :
  exists e, (select "People" [("id", inl (VNum 1))] populated).1 = Pending e.
Proof. eexists. vm_compute. reflexivity. Qed.

(** One clause returns the stored row, two clauses what JSON keeps of it. *)
Example one_clause_keeps_undefined :
  (select "People" [("age", inl (VNum 30))] with_anonymous).1
  = Resolves (Rows [anonymous]).
Proof. vm_compute. reflexivity. Qed.

Example two_clauses_drop_undefined :
  (select "People" [("age", inl (VNum 30)); ("firstName", inl (VStr "Ann"))]
          with_anonymous).1
  = Resolves (Rows [[("id", VNum 11); ("firstName", VStr "Ann"); ("age", VNum 30)]]).
Proof. vm_compute. reflexivity. Qed.

(** A second [put] of the same row leaves one row with that key. *)
Example upsert_twice :
  (add "People" anonymous true with_anonymous).2.(indexedDB).(IDBFactory.databases)
  = with_anonymous.(indexedDB).(IDBFactory.databases).
Proof. vm_compute. reflexivity. Qed.

(** A strict insert of a stored key is rejected by the engine. *)
Example insert_collision :
  (add "People" anonymous false with_anonymous).1
  = Rejects (Error "Error in LocalDatabase.add for store (People). Check console.").
Proof. vm_compute. reflexivity. Qed.

(** A unique column: the same row can be put again, another row with the
    same value is refused, and a row without the column is outside the
    index. *)
Example unique_column_refuses_second_holder :
  let schema :=
    DatabaseSchema.constructor "Bank"
      [{| TableSchema.name := "Accounts";
          TableSchema.keyColumn := ColumnSchema.constructor "id" None;
          TableSchema.otherColumns :=
            [ColumnSchema.constructor "email"
               (Some {| ColumnSchema.unique := true; ColumnSchema.multiEntry := false;
                        ColumnSchema.locale := None |})];
          TableSchema.autoIncrement := false |}] in
  let ann := [("id", VNum 1); ("email", VStr "ann@example.org")] in
  let st := (add "Accounts" [("id", VNum 3)] true (init schema browser).2).2 in
  let st1 := (add "Accounts" ann true st).2 in
  (add "Accounts" ann true st).1 = Resolves () /\
  (add "Accounts" ann true st1).1 = Resolves () /\
  (add "Accounts" [("id", VNum 2); ("email", VStr "ann@example.org")] true st1).1
  = Rejects (Error "Error in LocalDatabase.add for store (Accounts). Check console.").
Proof. vm_compute. repeat split. Qed.

Example stringify_person :
  JSON.stringify (person 6 "John" "Gilmore" 69)
  = "{" +:+ quote "id" +:+ ":6," +:+ quote "firstName" +:+ ":" +:+ quote "John"
    +:+ "," +:+ quote "lastName" +:+ ":" +:+ quote "Gilmore" +:+ ","
    +:+ quote "age" +:+ ":69}".
Proof. vm_compute. reflexivity. Qed.

(** * Properties of the operations *)

(** C1, as stated, fails in three ways. On the empty mapping every stored
    row matches, there being no field, yet [select] resolves with
    [undefined], not with rows. On a [null] value the scan covers the whole
    index: the rows that hold a last name are returned, and the one row
    whose last name is [null] is not. On a column without index, here the
    key column, [select] never settles. *)
Lemma equality_fields_select_otherwise :
  ((select "People" (equalities []) populated).1 = Resolves Undefined /\
   stored_rows "People" populated <> [] /\
   ~ selects_matching_rows populated "People" []) /\
  ((select "People" (equalities [("lastName", VNull)]) with_nameless).1
   = Resolves (Rows [person 1 "John" "Doe" 42; person 3 "Harry" "Gardener" 66;
                     person 6 "John" "Gilmore" 69; person 4 "David" "Gray" 20;
                     person 7 "Billy" "Jean" 19; person 8 "Sarah" "Jones" 19;
                     person 9 "Karen" "Maker" 19; person 5 "John" "Robson" 69;
                     person 2 "Bob" "Smith" 35]) /\
   nameless ∈ stored_rows "People" with_nameless /\
   matches [("lastName", VNull)] nameless /\
   ~ selects_matching_rows with_nameless "People" [("lastName", VNull)]) /\
  ((exists e, (select "People" (equalities [("id", VNum 1)]) populated).1 = Pending e) /\
   john ∈ stored_rows "People" populated /\
   matches [("id", VNum 1)] john /\
   ~ selects_matching_rows populated "People" [("id", VNum 1)]).
Proof.
  split; [|split].
  - assert ((select "People" (equalities []) populated).1 = Resolves Undefined)
      as H by (vm_compute; reflexivity).
    split; [exact H|]. split; [vm_compute; discriminate|].
    intros (rows & Hrows & _). rewrite H in Hrows. discriminate Hrows.
  - match goal with |- ?o = ?rows /\ _ =>
      assert (o = rows) as H by (vm_compute; reflexivity) end.
    assert (nameless ∈ stored_rows "People" with_nameless) as Hin
      by (apply (bool_decide_unpack _); vm_compute; reflexivity).
    assert (matches [("lastName", VNull)] nameless) as Hm.
    { intros column v Hf. apply list_elem_of_singleton in Hf as [= -> ->]. reflexivity. }
    split; [exact H|]. split; [exact Hin|]. split; [exact Hm|].
    intros (rows & Hrows & Hc). rewrite H in Hrows. injection Hrows as <-.
    destruct (Hc (stringify nameless)) as [_ Hback].
    assert (stringify nameless ∉ stringify <$>
              [person 1 "John" "Doe" 42; person 3 "Harry" "Gardener" 66;
               person 6 "John" "Gilmore" 69; person 4 "David" "Gray" 20;
               person 7 "Billy" "Jean" 19; person 8 "Sarah" "Jones" 19;
               person 9 "Karen" "Maker" 19; person 5 "John" "Robson" 69;
               person 2 "Bob" "Smith" 35]) as Hout
      by (apply (bool_decide_unpack _); vm_compute; reflexivity).
    apply Hout, Hback. exists nameless. split; [exact Hin|]. split; [exact Hm|reflexivity].
  - assert (exists e, (select "People" (equalities [("id", VNum 1)]) populated).1
                      = Pending e) as [e H] by (eexists; vm_compute; reflexivity).
    split; [exists e; exact H|].
    split; [apply (bool_decide_unpack _); vm_compute; reflexivity|].
    split.
    { intros column v Hf. apply list_elem_of_singleton in Hf as [= -> ->]. reflexivity. }
    intros (rows & Hrows & _). rewrite H in Hrows. discriminate Hrows.
Qed.

(** C1, amended. For a mapping of at least one equality field, whose values
    are index keys (numbers or strings) on indexed columns, [select]
    resolves with rows whose contents are exactly the contents of the
    stored rows that hold all the given values (AND across the fields),
    whichever scan produced them. *)
Theorem equality_fields_select_conjunction
    (st : state) (table : string) (fields : list (string * value))
    (connection : string) (s : DatabaseSchema.t) (store : IDBObjectStore.t) :
  check "select" "select" "table" table st = inr (connection, s) ->
  open_store connection table st = inr store ->
  fields <> [] ->
  (forall column v, (column, v) ∈ fields ->
     valid_key v = true /\ indexed store column) ->
  (forall r, r ∈ IDBObjectStore.records store -> NoDup r.*1) ->
  selects_matching_rows st table fields.
Proof.
  intros Hc Ho Hne Hf Hwf. unfold selects_matching_rows, stored_rows.
  rewrite (check_instance _ _ _ _ _ _ _ Hc), Ho.
  rewrite select_fst. unfold select_outcome. rewrite Hc, Ho.
  rewrite parse_equalities by (intros c v Hin; by apply Hf in Hin as [??]).
  destruct (scans_equalities store fields Hf) as (batches & -> & HF).
  rewrite fmap_nil.
  destruct (merge_inclusion_contents batches) as (rows & -> & Hrows).
  { apply Forall2_length in HF. destruct batches; [|done]. by destruct fields. }
  exists rows. split; [done|]. intros content.
  rewrite Hrows, (in_all_batches_equalities store fields batches content HF).
  split.
  - intros H. destruct fields as [|field0 fields]; [done|].
    destruct (H field0) as (r0 & Hr0 & Hcol0 & Hs0); [by left|].
    exists r0. split; [done|]. split; [|done].
    intros column v Hin. destruct (H _ Hin) as (r & Hr & Hcol & Hs). simpl in Hcol.
    rewrite <- Hcol, <- (row_get_normal r0), <- (row_get_normal r) by auto.
    f_equal. apply stringify_inj. congruence.
  - intros (r & Hr & Hm & Hs) [column v] Hin. exists r. simpl. auto.
Qed.

(** C1, on the example page. *)
Lemma equality_fields_select_conjunction_witness :
  selects_matching_rows populated "People" john_69.
Proof.
  apply (equality_fields_select_conjunction populated "People" john_69
           "MyDatabase" dbSchema peopleStore).
  - vm_compute; reflexivity.
  - vm_compute; reflexivity.
  - discriminate.
  - intros column v Hin. unfold john_69 in Hin. rewrite !elem_of_cons in Hin.
    destruct Hin as [[= -> ->]|[[= -> ->]|Hin]]; [| |by apply elem_of_nil in Hin].
    + split; [reflexivity|]. eexists. split; vm_compute; reflexivity.
    + split; [reflexivity|]. eexists. split; vm_compute; reflexivity.
  - apply Forall_forall, (bool_decide_unpack _). vm_compute. reflexivity.
Defined.

(** C2 fails on the code. With [$gt] and [$gte] (or [$lt] and [$lte]) equal
    on one field, [isGte] ([isLte]) is true, so the range is closed at that
    value: the boundary row is returned. *)
Theorem tie_gives_inclusive_bound :
  (forall (columnName : string) (n : Z),
     parse_query [(columnName, inr (tie_lower n))]
     = inr ([(columnName,
              inr {| IDBKeyRange.lower := VNum n; IDBKeyRange.upper := VUndefined;
                     IDBKeyRange.lowerOpen := false; IDBKeyRange.upperOpen := true |})],
            [])) /\
  (forall (columnName : string) (n : Z),
     parse_query [(columnName, inr (tie_upper n))]
     = inr ([(columnName,
              inr {| IDBKeyRange.lower := VUndefined; IDBKeyRange.upper := VNum n;
                     IDBKeyRange.lowerOpen := true; IDBKeyRange.upperOpen := false |})],
            [])) /\
  (select "People" [("age", inr (tie_lower 66))] populated).1
  = Resolves (Rows [person 3 "Harry" "Gardener" 66;
                    person 5 "John" "Robson" 69;
                    person 6 "John" "Gilmore" 69]).
Proof.
  split; [|split].
  - intros columnName n. unfold parse_query, tie_lower. simpl.
    unfold Math_max. rewrite Z.max_id.
    rewrite !bool_decide_eq_true_2 by done. simpl.
    reflexivity.
  - intros columnName n. unfold parse_query, tie_upper. simpl.
    unfold Math_min. rewrite Z.min_id.
    rewrite !bool_decide_eq_true_2 by done. simpl.
    reflexivity.
  - vm_compute. reflexivity.
Qed.

(** C3 fails on the code. A field with an upper bound only is scanned at
    [$lt], not at the smaller of [$lt] and [$lte]: with [$lte] alone the
    key range is built from [undefined] and [select] is rejected before any
    scan; with both, the range ends at [$lt] even when [$lte] is smaller.
    The same holds of [$gte] and [$gt]. *)
Theorem one_sided_bound_reads_strict_operand :
  (forall (columnName : string) (n : Z),
     parse_query [(columnName, inr (only_lte n))] = inl DataError) /\
  (forall (columnName : string) (n : Z),
     parse_query [(columnName, inr (only_gte n))] = inl DataError) /\
  parse_query [("age", inr {| op_gt := None; op_gte := None; op_lt := Some 60;
                              op_lte := Some 50; op_ne := VUndefined |})]
  = inr ([("age",
           inr {| IDBKeyRange.lower := VUndefined; IDBKeyRange.upper := VNum 60;
                  IDBKeyRange.lowerOpen := true; IDBKeyRange.upperOpen := false |})],
         []) /\
  select "People" [("age", inr (only_lte 42))] populated
  = (Rejects DataError, populated).
Proof.
  split; [|split; [|split]].
  - intros columnName n. reflexivity.
  - intros columnName n. reflexivity.
  - reflexivity.
  - vm_compute. reflexivity.
Qed.

(** C4, as stated, fails in three ways. With two [$ne] fields the
    exclusion batches are intersected, so a row that holds one excluded
    value and not the other stays: John Gilmore is returned. With a [$ne]
    of [null] the exclusion scan covers the whole index, so the rows with
    a last name are removed and the row whose last name is [null] stays.
    With a [$ne] on a column without index, here the key column, [select]
    never settles. *)
Lemma exclusion_keeps_excluded_rows :
  ((select "People" john_not_gilmore_not_42 populated).1
   = Resolves (Rows [person 1 "John" "Doe" 42; person 5 "John" "Robson" 69;
                     person 6 "John" "Gilmore" 69]) /\
   ~ removes_excluded populated "People" john_not_gilmore_not_42
       "lastName" (VStr "Gilmore")) /\
  ((select "People" eve_not_null with_nameless).1 = Resolves (Rows [nameless]) /\
   ~ removes_excluded with_nameless "People" eve_not_null "lastName" VNull) /\
  ((exists e, (select "People" john_not_6 populated).1 = Pending e) /\
   ~ removes_excluded populated "People" john_not_6 "id" (VNum 6)).
Proof.
  split; [|split].
  - match goal with |- ?o = ?rows /\ _ =>
      assert (o = rows) as H by (vm_compute; reflexivity) end.
    split; [exact H|]. intros (rows & Hrows & Hr). rewrite H in Hrows.
    injection Hrows as <-.
    apply (Hr (person 6 "John" "Gilmore" 69)); [|reflexivity].
    rewrite !elem_of_cons. right. right. by left.
  - match goal with |- ?o = ?rows /\ _ =>
      assert (o = rows) as H by (vm_compute; reflexivity) end.
    split; [exact H|]. intros (rows & Hrows & Hr). rewrite H in Hrows.
    injection Hrows as <-.
    apply (Hr nameless); [by apply elem_of_cons; left|reflexivity].
  - assert (exists e, (select "People" john_not_6 populated).1 = Pending e)
      as [e H] by (eexists; vm_compute; reflexivity).
    split; [exists e; exact H|].
    intros (rows & Hrows & _). rewrite H in Hrows. discriminate Hrows.
Qed.

(** C4, amended. For a query with inclusion clauses and [$ne] fields, whose
    excluded values are index keys (numbers or strings) on indexed columns,
    [select] resolves with the inclusion intersection minus the rows that
    hold the excluded value of every [$ne] field: a content is returned
    exactly when every inclusion batch has a row of that content and no
    stored row of that content holds all the excluded values. Rows of the
    exclusion scans alone never appear. *)
Theorem exclusion_removes_rows_holding_all
    (st : state) (table : string) (q : query) (connection : string)
    (s : DatabaseSchema.t) (store : IDBObjectStore.t)
    (additiveQueries : list clause) (exclusions : list (string * value))
    (additiveResult : list (list row)) :
  check "select" "select" "table" table st = inr (connection, s) ->
  open_store connection table st = inr store ->
  parse_query q = inr (additiveQueries, equality_clauses exclusions) ->
  additiveQueries <> [] ->
  exclusions <> [] ->
  Promise_all (scan store <$> additiveQueries) = inr additiveResult ->
  (forall column v, (column, v) ∈ exclusions ->
     valid_key v = true /\ indexed store column) ->
  (forall r, r ∈ IDBObjectStore.records store -> NoDup r.*1) ->
  exists rows,
    (select table q st).1 = Resolves (Rows rows) /\
    forall content,
      content ∈ JSON.stringify <$> rows <->
      (forall batch, batch ∈ additiveResult ->
         exists r, r ∈ batch /\ JSON.stringify r = content) /\
      ~ exists r, r ∈ IDBObjectStore.records store /\ matches exclusions r /\
                  JSON.stringify r = content.
Proof.
  intros Hc Ho Hq Hne Hex Hall Hf Hwf.
  rewrite select_fst. unfold select_outcome. rewrite Hc, Hq, Ho, Hall.
  destruct (scans_equalities store exclusions Hf) as (exbatches & Hscans & HF).
  assert (additiveResult <> []) as Hne'.
  { apply Promise_all_length in Hall. rewrite length_fmap in Hall.
    destruct additiveResult; [|done]. by destruct additiveQueries. }
  destruct (merge_exclusion (equality_clauses exclusions)
              (scan store <$> equality_clauses exclusions) exbatches
              additiveResult) as (rows & l & l' & Hl & Hl' & Hm & Hs); try done.
  { intros [Hd _]. unfold equality_clauses in Hd. rewrite length_fmap in Hd.
    by destruct exclusions. }
  { by destruct exclusions. }
  exists rows. split; [done|]. intros content.
  unfold _stringifyArrayElements in Hs. rewrite Hs, elem_of_difference.
  rewrite (elem_of_intersectAndStringify _ _ _ Hl).
  rewrite (elem_of_intersectAndStringify _ _ _ Hl').
  rewrite (in_all_batches_equalities store exclusions exbatches content HF).
  unfold in_all_batches, _stringifyArrayElements.
  assert ((∀ field, field ∈ exclusions →
             ∃ r, r ∈ IDBObjectStore.records store ∧ row_get r field.1 = field.2 ∧
                  stringify r = content) <->
          ∃ r, r ∈ IDBObjectStore.records store ∧ matches exclusions r ∧
               stringify r = content) as ->.
  { split.
    - intros H. destruct exclusions as [|field0 exclusions]; [done|].
      destruct (H field0) as (r0 & Hr0 & Hcol0 & Hs0); [by left|].
      exists r0. split; [done|]. split; [|done].
      intros column v Hin. destruct (H _ Hin) as (r & Hr & Hcol & Hs'). simpl in Hcol.
      rewrite <- Hcol, <- (row_get_normal r0), <- (row_get_normal r) by auto.
      f_equal. apply stringify_inj. congruence.
    - intros (r & Hr & Hm' & Hs') [column v] Hin. exists r. simpl. auto. }
  split; intros [H1 H2]; (split; [|done]).
  - intros batch Hb. specialize (H1 batch Hb).
    apply list_elem_of_fmap in H1 as (r & -> & Hr). by exists r.
  - intros batch Hb. destruct (H1 batch Hb) as (r & Hr & <-).
    by apply list_elem_of_fmap_2.
Qed.

(** C4, on the example page: John Gilmore, aged 69, is removed, and John
    Robson, aged 69 too, stays. *)
Lemma exclusion_removes_rows_holding_all_witness :
  exists rows,
    (select "People" john_not_gilmore_not_69 populated).1 = Resolves (Rows rows) /\
    forall content,
      content ∈ JSON.stringify <$> rows <->
      (forall batch, batch ∈ [[person 1 "John" "Doe" 42; person 5 "John" "Robson" 69;
                                person 6 "John" "Gilmore" 69]] ->
         exists r, r ∈ batch /\ JSON.stringify r = content) /\
      ~ exists r, r ∈ IDBObjectStore.records peopleStore /\
                  matches [("lastName", VStr "Gilmore"); ("age", VNum 69)] r /\
                  JSON.stringify r = content.
Proof.
  apply (exclusion_removes_rows_holding_all populated "People"
           john_not_gilmore_not_69 "MyDatabase" dbSchema peopleStore
           [("firstName", inl (VStr "John"))]
           [("lastName", VStr "Gilmore"); ("age", VNum 69)]).
  - vm_compute; reflexivity.
  - vm_compute; reflexivity.
  - vm_compute; reflexivity.
  - discriminate.
  - discriminate.
  - vm_compute; reflexivity.
  - intros column v Hin. rewrite !elem_of_cons in Hin.
    destruct Hin as [[= -> ->]|[[= -> ->]|Hin]]; [| |by apply elem_of_nil in Hin].
    + split; [reflexivity|]. eexists. split; vm_compute; reflexivity.
    + split; [reflexivity|]. eexists. split; vm_compute; reflexivity.
  - apply Forall_forall, (bool_decide_unpack _). vm_compute. reflexivity.
Defined.

(** C5, as stated, fails: a batch with two content-equal rows comes out of
    the merge with both. *)
Lemma merge_keeps_duplicates :
  merge [] [] [[john]; [john; john]] = Resolves (Rows [john; john]) /\
  ~ NoDup (JSON.stringify <$> [john; john]).
Proof.
  split; [vm_compute; reflexivity|].
  intros H. apply NoDup_cons in H as [H _]. apply H. by left.
Qed.

(** C5, amended. The merge returns rows of the last inclusion batch: no
    two of them have the same content whenever no two rows of that batch
    do. *)
Theorem merge_no_duplicates_from_last_batch
    (subtractiveQueries : list clause) (subtractivePromises : list (error + list row))
    (additiveResult : list (list row)) (batch rows : list row) :
  last additiveResult = Some batch ->
  NoDup (JSON.stringify <$> batch) ->
  merge subtractiveQueries subtractivePromises additiveResult = Resolves (Rows rows) ->
  NoDup (JSON.stringify <$> rows).
Proof.
  intros Hlast Hnd Hm.
  assert (additiveResult <> []) as Hne by (by intros ->).
  destruct (decide (direct subtractiveQueries additiveResult)) as [Hd|Hd].
  - rewrite merge_direct in Hm by done. destruct Hd as [_ Hd].
    destruct additiveResult as [|b [|b' rest]]; simpl in *; [done| |lia].
    by simplify_eq.
  - rewrite merge_not_direct in Hm by done.
    destruct (intersectAndStringifyArrayOfArrays additiveResult) as [e|l] eqn:Hl; [done|].
    pose proof (intersectAndStringify_sublist _ _ _ Hl Hlast) as Hsub.
    pose proof (stringified_intersect _ _ Hl) as Hstr.
    destruct (bool_decide (length subtractivePromises = 0%nat)).
    + destruct (parseArrayElements_stringified l Hstr) as (rows' & Hrows & <-).
      rewrite Hrows in Hm. simplify_eq.
      exact (sublist_NoDup _ (JSON.stringify <$> batch) Hnd Hsub).
    + destruct (Promise_all subtractivePromises) as [e|subtractiveResult]; [done|].
      destruct (intersectAndStringifyArrayOfArrays subtractiveResult) as [e|l']; [done|].
      destruct (parseArrayElements_stringified (_difference l l'))
        as (rows' & Hrows & Hrows').
      { by apply stringified_difference. }
      rewrite Hrows in Hm. simplify_eq.
      unfold _stringifyArrayElements in *. rewrite Hrows'.
      refine (sublist_NoDup _ (JSON.stringify <$> batch) Hnd _).
      etrans; [apply sublist_filter | exact Hsub].
Qed.

(** C5, on two batches. *)
Lemma merge_no_duplicates_from_last_batch_witness :
  last [[john]; [john]] = Some [john] /\
  NoDup (JSON.stringify <$> [john]) /\
  merge [] [] [[john]; [john]] = Resolves (Rows [john]) /\
  NoDup (JSON.stringify <$> [john]).
Proof.
  assert (last [[john]; [john]] = Some [john]) as H1 by reflexivity.
  assert (NoDup (JSON.stringify <$> [john])) as H2.
  { apply NoDup_singleton. }
  assert (merge [] [] [[john]; [john]] = Resolves (Rows [john])) as H3
    by (vm_compute; reflexivity).
  split; [exact H1|]. split; [exact H2|]. split; [exact H3|].
  exact (merge_no_duplicates_from_last_batch [] [] _ _ _ H1 H2 H3).
Defined.

(** C6. With no exclusion clause and at most one inclusion clause, [select]
    resolves with the batch of the single scan as the engine returned it;
    with no clause at all it resolves with [undefined], whatever the table
    holds. *)
Theorem single_clause_returned_directly
    (st : state) (table : string) (q : query)
    (connection : string) (s : DatabaseSchema.t) (store : IDBObjectStore.t) :
  check "select" "select" "table" table st = inr (connection, s) ->
  open_store connection table st = inr store ->
  (parse_query q = inr ([], []) -> (select table q st).1 = Resolves Undefined) /\
  (forall c batch,
     parse_query q = inr ([c], []) ->
     scan store c = inr batch ->
     (select table q st).1 = Resolves (Rows batch)).
Proof.
  intros Hc Ho. rewrite select_fst. unfold select_outcome. rewrite Hc, Ho.
  split.
  - by intros ->.
  - intros c batch -> Hb. rewrite !fmap_cons, !fmap_nil, Hb. reflexivity.
Qed.

(** C6, on the example page. *)
Lemma single_clause_returned_directly_witness :
  (select "People" [("age", inr no_operators)] populated).1
  = Resolves Undefined /\
  (select "People" aged_69 populated).1
  = Resolves (Rows [person 5 "John" "Robson" 69;
                    person 6 "John" "Gilmore" 69]).
Proof.
  assert (check "select" "select" "table" "People" populated
          = inr ("MyDatabase", dbSchema)) as Hc by (vm_compute; reflexivity).
  assert (open_store "MyDatabase" "People" populated
          = inr peopleStore) as Ho by (vm_compute; reflexivity).
  split.
  - apply (proj1 (single_clause_returned_directly populated "People"
                    [("age", inr no_operators)] _ _ _ Hc Ho)).
    vm_compute. reflexivity.
  - apply (proj2 (single_clause_returned_directly populated "People"
                    aged_69 _ _ _ Hc Ho) ("age", inl (VNum 69)));
      vm_compute; reflexivity.
Defined.

(** C7. Once initialised, [select], [add] and [delete] on a table name that
    is not in the schema throw the missing-table error and leave the state,
    with its log of engine calls, as it was: no transaction is opened. *)
Theorem missing_table_throws_before_engine
    (st : state) (s : DatabaseSchema.t) (table : string) (q : query)
    (object : row) (upsert : bool) :
  instance st <> None ->
  schema st = Some s ->
  table <> EmptyString ->
  table ∉ DatabaseSchema.tableNames s ->
  select table q st = (Throws (missing_table_error "select" table), st) /\
  add table object upsert st = (Throws (missing_table_error "select" table), st) /\
  delete table q st = (Throws (missing_table_error "delete" table), st).
Proof.
  intros Hi Hs Ht Hn. unfold select, add, delete.
  by rewrite !(check_missing _ _ _ table st s).
Qed.

(** C7, on the example page. *)
Lemma missing_table_throws_before_engine_witness :
  instance populated <> None /\
  schema populated = Some dbSchema /\
  "NoSuchTable" <> EmptyString /\
  ("NoSuchTable" ∉ DatabaseSchema.tableNames dbSchema) /\
  select "NoSuchTable" [] populated
  = (Throws (missing_table_error "select" "NoSuchTable"), populated).
Proof.
  assert (instance populated <> None) as H1 by (vm_compute; discriminate).
  assert (schema populated = Some dbSchema) as H2 by (vm_compute; reflexivity).
  assert ("NoSuchTable" <> EmptyString) as H3 by discriminate.
  assert ("NoSuchTable" ∉ DatabaseSchema.tableNames dbSchema) as H4
    by (apply (bool_decide_eq_false_1 _); vm_compute; reflexivity).
  split; [exact H1|]. split; [exact H2|]. split; [exact H3|]. split; [exact H4|].
  exact (proj1 (missing_table_throws_before_engine populated dbSchema
                  "NoSuchTable" [] [] true H1 H2 H3 H4)).
Defined.

(** C8. Permuting the entries of the query does not change what [select]
    comes to: the same set of row contents, or in both cases no rows. *)
Theorem select_independent_of_field_order
    (st : state) (table : string) (q q' : query) :
  q ≡ₚ q' ->
  same_rows (select table q st).1 (select table q' st).1.
Proof.
  intros Hq. rewrite !select_fst. unfold select_outcome.
  destruct (check _ _ _ table st) as [|[connection s]]; [done|].
  pose proof (parse_query_perm q q' Hq) as Hp.
  destruct (parse_query q) as [|[a sq]], (parse_query q') as [|[a' sq']]; try done.
  destruct Hp as [Ha Hs].
  destruct (open_store connection table st) as [|store]; [done|].
  pose proof (Promise_all_perm (scan store <$> a) (scan store <$> a')) as Hall.
  destruct (Promise_all (scan store <$> a)) as [|ar],
           (Promise_all (scan store <$> a')) as [|ar'];
    try (by (exfalso + idtac); apply Hall; f_equiv).
  apply merge_perm; [done | by f_equiv |]. apply Hall. by f_equiv.
Qed.

(** C8, on the example page. *)
Lemma select_independent_of_field_order_witness :
  same_rows
    (select "People" john_69_not_gilmore populated).1
    (select "People" (reverse john_69_not_gilmore) populated).1.
Proof.
  apply (select_independent_of_field_order populated "People"
           john_69_not_gilmore (reverse john_69_not_gilmore)).
  apply Permutation_sym, reverse_Permutation.
Defined.

(** C9. A query that yields [$ne] clauses and no inclusion clause never
    resolves: once the guards and the transactions pass, the merge
    stringifies the first entry of an empty list, and the TypeError leaves
    the promise pending. *)
Theorem exclusion_only_never_resolves
    (st : state) (table : string) (q : query) (subtractiveQueries : list clause) :
  parse_query q = inr ([], subtractiveQueries) ->
  subtractiveQueries <> [] ->
  (forall res, (select table q st).1 <> Resolves res) /\
  (forall connection s store,
     check "select" "select" "table" table st = inr (connection, s) ->
     open_store connection table st = inr store ->
     (select table q st).1
     = Pending (TypeError "Cannot read properties of undefined (reading 'map')")).
Proof.
  intros Hq Hne. rewrite select_fst. unfold select_outcome. rewrite Hq.
  split.
  - intros res. destruct (check _ _ _ table st) as [e|[connection s]]; [done|].
    destruct (open_store connection table st) as [e|store]; [done|].
    by rewrite fmap_nil, Promise_all_nil, merge_no_inclusion.
  - intros connection s store -> ->.
    by rewrite fmap_nil, Promise_all_nil, merge_no_inclusion.
Qed.

(** C9, on the example page. *)
Lemma exclusion_only_never_resolves_witness :
  parse_query not_gilmore = inr ([], [("lastName", inl (VStr "Gilmore"))]) /\
  [("lastName", @inl value IDBKeyRange.t (VStr "Gilmore"))] <> [] /\
  (select "People" not_gilmore populated).1
  = Pending (TypeError "Cannot read properties of undefined (reading 'map')").
Proof.
  assert (parse_query not_gilmore = inr ([], [("lastName", inl (VStr "Gilmore"))]))
    as H1 by (vm_compute; reflexivity).
  assert ([("lastName", @inl value IDBKeyRange.t (VStr "Gilmore"))] <> []) as H2
    by discriminate.
  split; [exact H1|]. split; [exact H2|].
  destruct (exclusion_only_never_resolves populated "People" not_gilmore
              _ H1 H2) as [_ H].
  eapply H; vm_compute; reflexivity.
Defined.

(** C10. [init] calls [deleteDatabase] and then [open] on the schema's
    name; when it resolves, the connection is to a database all of whose
    stores are empty, whatever was stored before. *)
Theorem init_deletes_then_opens_empty
    (schema : DatabaseSchema.t) (st st' : state) (o : outcome unit) :
  supported st = true ->
  init schema st = (o, st') ->
  IDBFactory.calls (indexedDB st')
  = IDBFactory.calls (indexedDB st)
    ++ [call_deleteDatabase (DatabaseSchema.name schema);
        call_open (DatabaseSchema.name schema) version] /\
  (o = Resolves () ->
   instance st' = Some (DatabaseSchema.name schema) /\
   (exists db,
      IDBFactory.databases (indexedDB st') !! DatabaseSchema.name schema = Some db /\
      empty_database db) /\
   forall table, stored_rows table st' = []).
Proof.
  intros Hs. unfold init. rewrite Hs. simpl.
  unfold IDBFactory.open, IDBFactory.deleteDatabase. simpl.
  rewrite lookup_delete_eq. simpl.
  destruct (upgrade schema _) as [|db'] eqn:Hup; intros [= <- <-]; simpl.
  { split; [by rewrite <- app_assoc | done]. }
  apply upgrade_empty in Hup as [Hname Hempty]. simpl in Hname.
  assert (empty_database db') as Hdb.
  { apply Hempty. intros t store. simpl. by rewrite lookup_empty. }
  assert (empty_database (IDBDatabase.set_version db' version)) as Hdb' by done.
  split; [by rewrite <- app_assoc|]. intros _. split; [done|].
  unfold stored_rows, open_store. simpl. rewrite Hname, lookup_insert_eq.
  split; [eauto|].
  intros table. destruct (_ !! table) as [store|] eqn:Hstore; [|done].
  by apply (Hdb table).
Qed.

(** C10, on the example page. *)
Lemma init_deletes_then_opens_empty_witness :
  supported populated = true /\
  stored_rows "People" populated <> [] /\
  (init dbSchema populated).1 = Resolves () /\
  forall table,
    stored_rows table (init dbSchema populated).2 = [].
Proof.
  assert (supported populated = true) as Hs by (vm_compute; reflexivity).
  assert ((init dbSchema populated).1 = Resolves ()) as Ho
    by (vm_compute; reflexivity).
  split; [exact Hs|]. split; [vm_compute; discriminate|]. split; [exact Ho|].
  destruct (init_deletes_then_opens_empty dbSchema populated
              (init dbSchema populated).2
              (init dbSchema populated).1 Hs)
    as [_ H].
  - by destruct (init dbSchema populated).
  - apply H. exact Ho.
Defined.

(** * Stored data *)

Import Stored.

(** ** The schema's derived fields *)

(** The loop that pushes the names, from any list of names. *)
Lemma tableNames_fold (tables : list TableSchema.t) (names : list string) :
  foldl (fun names table => names ++ [TableSchema.name table]) names tables
  = names ++ (TableSchema.name <$> tables).
Proof.
  revert names. induction tables as [|table tables IH]; intros names; simpl.
  - by rewrite app_nil_r.
  - rewrite IH, <- app_assoc. reflexivity.
Qed.

(** The loop that fills the map, from any map: a later table of a name
    overwrites an earlier one. *)
Lemma tableMap_fold (tables : list TableSchema.t) (m : gmap string TableSchema.t)
    (n : string) :
  foldl (fun m table => <[TableSchema.name table := table]> m) m tables !! n
  = match last (filter (fun table => TableSchema.name table = n) tables) with
    | Some table => Some table
    | None => m !! n
    end.
Proof.
  revert m. induction tables as [|table tables IH]; intros m; simpl; [done|].
  rewrite IH. destruct (decide (TableSchema.name table = n)) as [Heq|Hne].
  - rewrite filter_cons_True by done. rewrite last_cons.
    destruct (last _); [done|]. rewrite Heq. apply lookup_insert_eq.
  - rewrite filter_cons_False by done.
    destruct (last _); [done|]. by apply lookup_insert_ne.
Qed.

Lemma tableNames_constructor (n : string) (tables : list TableSchema.t) :
  DatabaseSchema.tableNames (DatabaseSchema.constructor n tables)
  = TableSchema.name <$> tables.
Proof. apply (tableNames_fold tables []). Qed.

Lemma tableMap_constructor (n : string) (tables : list TableSchema.t) (k : string) :
  DatabaseSchema.tableMap (DatabaseSchema.constructor n tables) !! k
  = last (filter (fun table => TableSchema.name table = k) tables).
Proof.
  unfold DatabaseSchema.constructor. simpl. rewrite tableMap_fold.
  destruct (last _); [done|]. apply lookup_empty.
Qed.

(** What the map holds for a name is a table of the schema with that name. *)
Lemma tableMap_constructor_Some (n : string) (tables : list TableSchema.t)
    (k : string) (table : TableSchema.t) :
  DatabaseSchema.tableMap (DatabaseSchema.constructor n tables) !! k = Some table ->
  table ∈ tables /\ TableSchema.name table = k.
Proof.
  rewrite tableMap_constructor. intros Hlast.
  apply last_Some in Hlast as [l Hl].
  assert (table ∈ filter (fun table => TableSchema.name table = k) tables) as Hin.
  { rewrite Hl. apply elem_of_app. right. by left. }
  by apply list_elem_of_filter in Hin as [??].
Qed.

(** Every listed name is mapped. *)
Lemma tableMap_constructor_is_Some (n : string) (tables : list TableSchema.t) (k : string) :
  k ∈ TableSchema.name <$> tables ->
  is_Some (DatabaseSchema.tableMap (DatabaseSchema.constructor n tables) !! k).
Proof.
  rewrite tableMap_constructor. intros Hin.
  apply list_elem_of_fmap in Hin as (table & -> & Hin).
  destruct (last _) eqn:Hlast; [by eexists|].
  apply last_None in Hlast.
  assert (table ∈ filter (fun table0 => TableSchema.name table0 = TableSchema.name table) tables) as H
    by (by apply list_elem_of_filter).
  rewrite Hlast in H. by apply elem_of_nil in H.
Qed.

(** ** Keys of stored rows *)

(** A property that is not [undefined] is read the same after the round
    trip through JSON. *)
Lemma row_get_normal_defined (r : row) (column : string) :
  row_get r column <> VUndefined ->
  row_get (normal r) column = row_get r column.
Proof.
  induction r as [|[k v] r IH]; [done|]. intros H.
  destruct (decide (v = VUndefined)) as [->|Hv].
  - rewrite normal_cons_undefined. simpl in *.
    destruct (decide (k = column)); [done|]. by apply IH.
  - rewrite normal_cons by done. simpl in *.
    destruct (decide (k = column)); [done|]. by apply IH.
Qed.

Lemma valid_key_defined (v : value) : valid_key v = true -> v <> VUndefined.
Proof. by intros H ->. Qed.

(** On keys, the engine's comparison decides equality. *)
Lemma key_eqb_eq (a b : value) :
  valid_key a = true -> valid_key b = true -> key_eqb a b = true <-> a = b.
Proof.
  intros Ha Hb. rewrite <- (key_compare_eq a b Ha Hb). unfold key_eqb.
  by destruct (key_compare a b).
Qed.

Lemma key_eqb_ne (a b : value) :
  valid_key a = true -> valid_key b = true -> key_eqb a b = false <-> a <> b.
Proof.
  intros Ha Hb. rewrite <- (key_eqb_eq a b Ha Hb). by destruct (key_eqb a b).
Qed.

Lemma key_eqb_refl (a : value) : valid_key a = true -> key_eqb a a = true.
Proof. intros Ha. by apply key_eqb_eq. Qed.

(** A function without repeated values on a list is injective on it. *)
Lemma NoDup_fmap_inj_on {A B : Type} (f : A -> B) (l : list A) (x y : A) :
  NoDup (f <$> l) -> x ∈ l -> y ∈ l -> f x = f y -> x = y.
Proof.
  induction l as [|a l IH]; intros Hnd Hx Hy Hf; [by apply elem_of_nil in Hx|].
  rewrite fmap_cons, NoDup_cons in Hnd. destruct Hnd as [Ha Hnd].
  apply elem_of_cons in Hx as [->|Hx], Hy as [->|Hy]; auto.
  - destruct Ha. rewrite Hf. by apply list_elem_of_fmap_2.
  - destruct Ha. rewrite <- Hf. by apply list_elem_of_fmap_2.
Qed.

Lemma keyed_valid (store : IDBObjectStore.t) (r : row) :
  keyed store -> r ∈ IDBObjectStore.records store ->
  valid_key (key_of store r) = true.
Proof. intros [Hv _] Hr. rewrite Forall_forall in Hv. by apply Hv. Qed.

(** Two rows of the same content that both hold a key hold the same key. *)
Lemma stringify_key (store : IDBObjectStore.t) (r1 r2 : row) :
  valid_key (key_of store r1) = true ->
  valid_key (key_of store r2) = true ->
  stringify r1 = stringify r2 ->
  key_of store r1 = key_of store r2.
Proof.
  intros H1 H2 Hs. apply stringify_inj in Hs. unfold key_of in *.
  rewrite <- (row_get_normal_defined r1) by by apply valid_key_defined.
  rewrite <- (row_get_normal_defined r2) by by apply valid_key_defined.
  by rewrite Hs.
Qed.

(** In a keyed store, rows of the same content are the same row. *)
Lemma keyed_stringify_inj (store : IDBObjectStore.t) (r1 r2 : row) :
  keyed store ->
  r1 ∈ IDBObjectStore.records store -> r2 ∈ IDBObjectStore.records store ->
  stringify r1 = stringify r2 -> r1 = r2.
Proof.
  intros Hk H1 H2 Hs.
  apply (NoDup_fmap_inj_on (key_of store) (IDBObjectStore.records store));
    [apply Hk|done|done|].
  apply stringify_key; [by apply keyed_valid..|done].
Qed.

(** In a keyed store, no two records have the same content. *)
Lemma keyed_NoDup_contents (store : IDBObjectStore.t) :
  keyed store -> NoDup (stringify <$> IDBObjectStore.records store).
Proof.
  intros Hk. pose proof Hk as [_ Hnd].
  assert (forall r1 r2, r1 ∈ IDBObjectStore.records store ->
            r2 ∈ IDBObjectStore.records store ->
            stringify r1 = stringify r2 -> r1 = r2) as Hinj
    by (intros; by eapply keyed_stringify_inj).
  apply NoDup_fmap_1 in Hnd. clear Hk.
  induction Hnd as [|r l Hr Hnd IH]; [constructor|].
  rewrite fmap_cons. constructor.
  - intros Hin. apply list_elem_of_fmap in Hin as (r' & Hs & Hin).
    apply Hr. rewrite (Hinj r r'); [done|by left|by right|done].
  - apply IH. intros r1 r2 H1 H2. apply Hinj; by right.
Qed.

(** ** Writes to a store *)

(** A property reads as it was set. *)
Lemma row_get_row_set (r : row) (f : string) (v : value) :
  row_get (row_set r f v) f = v.
Proof.
  induction r as [|[k x] r IH]; simpl.
  - by rewrite decide_True.
  - destruct (decide (k = f)) as [->|Hne]; simpl.
    + by rewrite decide_True.
    + by rewrite decide_False.
Qed.

(** The key of a row to store is a key, the stored row holds it, and a row
    that brings its key is stored as it is. *)
Lemma extract_key_valid (store : IDBObjectStore.t) (r r' : row) (k : value) (g : Z) :
  IDBObjectStore.extract_key store r = inr (k, r', g) ->
  valid_key k = true /\ key_of store r' = k /\
  (valid_key (key_of store r) = true -> r' = r).
Proof.
  unfold IDBObjectStore.extract_key, key_of.
  destruct (valid_key (row_get r _)) eqn:Hv.
  - intros [= <- <- <-]. done.
  - destruct (_ && _); [|done]. destruct (_ <? _); [done|].
    intros [= <- <- <-]. split; [done|]. split; [|done]. apply row_get_row_set.
Qed.

Section sorted_insert.
Context {A : Type} (le : A -> A -> bool).

(** Inserting an element that the filter drops does not change the
    filtered list. *)
Lemma filter_insert_sorted (P : A -> Prop) `{!forall x, Decision (P x)} (x : A) (l : list A) :
  ~ P x -> filter P (insert_sorted le x l) = filter P l.
Proof.
  intros Hx. induction l as [|y l IH]; simpl.
  - by rewrite filter_cons_False, filter_nil.
  - destruct (le x y).
    + by rewrite filter_cons_False.
    + rewrite !filter_cons, IH. reflexivity.
Qed.

Lemma elem_of_insert_sorted (x y : A) (l : list A) :
  y ∈ insert_sorted le x l <-> y = x \/ y ∈ l.
Proof. by rewrite (insert_sorted_perm le x l), elem_of_cons. Qed.
End sorted_insert.

Lemma filter_filter_same {A : Type} (P : A -> Prop) `{!forall x, Decision (P x)} (l : list A) :
  filter P (filter P l) = filter P l.
Proof.
  induction l as [|x l IH]; [done|].
  rewrite filter_cons. destruct (decide (P x)).
  - rewrite filter_cons_True, IH; done.
  - done.
Qed.

(** A failure to find the key is no written store. *)
Lemma extract_key_failure (store : IDBObjectStore.t) (r : row)
    (w : IDBObjectStore.write_result) :
  IDBObjectStore.extract_key store r = inl w ->
  forall store', w <> IDBObjectStore.Written store'.
Proof.
  unfold IDBObjectStore.extract_key. intros H store' ->.
  destruct (valid_key _); [done|]. destruct (_ && _); [|done].
  by destruct (_ <? _).
Qed.

(** The records after a write: the row, and the records of other keys. *)
Lemma store_row_written (store store' : IDBObjectStore.t) (overwrite : bool) (r : row) :
  IDBObjectStore.store_row store overwrite r = IDBObjectStore.Written store' ->
  exists k r' g,
    IDBObjectStore.extract_key store r = inr (k, r', g) /\
    store' = IDBObjectStore.set_records store
      (insert_sorted
         (fun a b => key_le (key_of store a) (key_of store b)) r'
         (filter (fun x => key_eqb (key_of store x) k = false)
                 (IDBObjectStore.records store))) g.
Proof.
  unfold IDBObjectStore.store_row.
  destruct (IDBObjectStore.extract_key store r) as [w|[[k r'] g]] eqn:He.
  - intros ->. by destruct (extract_key_failure _ _ _ He store').
  - destruct (_ && _); [done|]. destruct (IDBObjectStore.violates_unique _ _ _); [done|].
    intros [= <-]. by eexists _, _, _.
Qed.

(** A write keeps the store keyed. *)
Lemma keyed_store_row (store store' : IDBObjectStore.t) (overwrite : bool) (r : row) :
  keyed store ->
  IDBObjectStore.store_row store overwrite r = IDBObjectStore.Written store' ->
  keyed store'.
Proof.
  intros [Hv Hnd] Hw. apply store_row_written in Hw as (k & r' & g & He & ->).
  apply extract_key_valid in He as (Hk & Hr' & _).
  unfold keyed, key_of in *. simpl. split.
  - apply Forall_forall. intros x Hx. apply elem_of_insert_sorted in Hx as [->|Hx].
    + unfold key_of in Hr'. by rewrite Hr'.
    + apply list_elem_of_filter in Hx as [_ Hx]. rewrite Forall_forall in Hv. by apply Hv.
  - rewrite (insert_sorted_perm _ r' _), fmap_cons. constructor.
    + intros Hin. apply list_elem_of_fmap in Hin as (x & Hx & Hin).
      apply list_elem_of_filter in Hin as [Hne Hin].
      unfold key_of in Hr'. rewrite <- Hx, Hr' in Hne.
      rewrite key_eqb_refl in Hne; done.
    + eapply sublist_NoDup; [exact Hnd|]. apply fmap_sublist, sublist_filter.
Qed.

(** A delete keeps the store keyed. *)
Lemma keyed_delete (store store' : IDBObjectStore.t) (key : value) :
  keyed store -> IDBObjectStore.delete store key = inr store' -> keyed store'.
Proof.
  intros [Hv Hnd]. unfold IDBObjectStore.delete. destruct (valid_key key); [|done].
  intros [= <-]. unfold keyed, key_of in *. simpl. split.
  - apply Forall_forall. intros x Hx.
    apply list_elem_of_filter in Hx as [_ Hx]. rewrite Forall_forall in Hv. by apply Hv.
  - eapply sublist_NoDup; [exact Hnd|]. apply fmap_sublist, sublist_filter.
Qed.

Lemma store_of_set_records (table : TableSchema.t) (store : IDBObjectStore.t)
    (rs : list row) (g : Z) :
  store_of table store -> store_of table (IDBObjectStore.set_records store rs g).
Proof. unfold store_of. intros ->. reflexivity. Qed.

Lemma store_of_table_store (table : TableSchema.t) : store_of table (table_store table).
Proof. reflexivity. Qed.

Lemma keyed_table_store (table : TableSchema.t) : keyed (table_store table).
Proof. split; simpl; constructor. Qed.

(** The name, key path, indexes and key generator flag of a table's store. *)
Lemma store_of_name (table : TableSchema.t) (store : IDBObjectStore.t) :
  store_of table store ->
  IDBObjectStore.name store = TableSchema.name table /\
  IDBObjectStore.keyPath store = ColumnSchema.name (TableSchema.keyColumn table) /\
  IDBObjectStore.indexes store = column_index <$> TableSchema.otherColumns table /\
  IDBObjectStore.autoIncrement store = TableSchema.autoIncrement table.
Proof. unfold store_of. by intros ->. Qed.

(** ** States that are ready *)

(** A transaction logs its call and reaches the store of the open
    connection, if there is one. *)
Lemma transaction_open_store (connection table : string) (m : mode) (st : state) :
  transaction connection table m st
  = (match IDBFactory.databases (indexedDB st) !! connection with
     | None => inl InvalidStateError
     | Some db =>
         match IDBDatabase.objectStores db !! table with
         | None => inl NotFoundError
         | Some store => inr (db, store)
         end
     end, log (call_transaction connection table m) st).
Proof.
  unfold transaction. destruct (_ !! connection) as [db|]; [|done].
  by destruct (_ !! table).
Qed.

(** The stores a transaction reaches after a commit. *)
Lemma open_store_commit (connection table : string) (db : IDBDatabase.t)
    (store : IDBObjectStore.t) (st : state) :
  IDBDatabase.name db = connection ->
  open_store connection table (commit db store st)
  = if decide (IDBObjectStore.name store = table) then inr store
    else match IDBDatabase.objectStores db !! table with
         | None => inl NotFoundError
         | Some store' => inr store'
         end.
Proof.
  intros <-. unfold open_store, commit. simpl. rewrite lookup_insert_eq. simpl.
  destruct (decide (IDBObjectStore.name store = table)) as [<-|Hne].
  - by rewrite lookup_insert_eq.
  - by rewrite lookup_insert_ne.
Qed.

(** Readiness depends on the connection, the schema and the databases
    only. *)
Lemma ready_same_databases (s : DatabaseSchema.t) (st st' : state) :
  instance st' = instance st ->
  schema st' = schema st ->
  IDBFactory.databases (indexedDB st') = IDBFactory.databases (indexedDB st) ->
  ready s st -> ready s st'.
Proof. unfold ready. intros -> -> ->. done. Qed.

Lemma ready_log (s : DatabaseSchema.t) (c : call) (st : state) :
  ready s st -> ready s (log c st).
Proof. by apply ready_same_databases. Qed.

(** A table the schema maps a name to, and its store. *)
Lemma ready_table (s : DatabaseSchema.t) (st : state) (table : string)
    (tableSchema : TableSchema.t) :
  ready s st ->
  DatabaseSchema.tableMap s !! table = Some tableSchema ->
  tableSchema ∈ DatabaseSchema.tables s /\
  TableSchema.name tableSchema = table /\
  table ∈ DatabaseSchema.tableNames s /\
  exists db store,
    IDBFactory.databases (indexedDB st) !! DatabaseSchema.name s = Some db /\
    IDBDatabase.name db = DatabaseSchema.name s /\
    IDBDatabase.objectStores db !! table = Some store /\
    store_of tableSchema store /\ keyed store.
Proof.
  intros (Hs & Hi & Hsc & db & Hdb & Hname & Hstores) Hmap.
  rewrite Hs in Hmap. apply tableMap_constructor_Some in Hmap as [Hin Hn].
  split; [done|]. split; [done|]. split.
  - rewrite Hs, tableNames_constructor, <- Hn. by apply list_elem_of_fmap_2.
  - destruct (Hstores _ Hin) as (store & Hst & Hof & Hk). rewrite Hn in Hst.
    by exists db, store.
Qed.

(** In a ready state the guards pass for a table of the schema. *)
Lemma ready_check (s : DatabaseSchema.t) (st : state) (table : string)
    (tableSchema : TableSchema.t) (operation messageOperation noTable : string) :
  ready s st ->
  table <> EmptyString ->
  DatabaseSchema.tableMap s !! table = Some tableSchema ->
  check operation messageOperation noTable table st = inr (DatabaseSchema.name s, s).
Proof.
  intros Hr Ht Hmap. destruct (ready_table _ _ _ _ Hr Hmap) as (_ & _ & Hin & _).
  destruct Hr as (_ & Hi & Hsc & _). unfold check. rewrite Hi, Hsc.
  rewrite decide_False by done. by rewrite bool_decide_eq_true_2.
Qed.

(** In a ready state a transaction on a table of the schema reaches its
    keyed store. *)
Lemma ready_open_store (s : DatabaseSchema.t) (st : state) (table : string)
    (tableSchema : TableSchema.t) :
  ready s st ->
  DatabaseSchema.tableMap s !! table = Some tableSchema ->
  exists store,
    open_store (DatabaseSchema.name s) table st = inr store /\
    stored_rows table st = IDBObjectStore.records store /\
    store_of tableSchema store /\ keyed store.
Proof.
  intros Hr Hmap.
  destruct (ready_table _ _ _ _ Hr Hmap) as (_ & _ & _ & db & store & Hdb & _ & Hst & Hof & Hk).
  destruct Hr as (_ & Hi & _). exists store. unfold stored_rows, open_store.
  by rewrite Hi, Hdb, Hst.
Qed.

(** Committing new records for one store keeps the state ready. *)
Lemma ready_commit (s : DatabaseSchema.t) (st : state) (db : IDBDatabase.t)
    (store : IDBObjectStore.t) (rs : list row) (g : Z) :
  ready s st ->
  IDBFactory.databases (indexedDB st) !! DatabaseSchema.name s = Some db ->
  IDBDatabase.objectStores db !! IDBObjectStore.name store = Some store ->
  keyed (IDBObjectStore.set_records store rs g) ->
  ready s (commit db (IDBObjectStore.set_records store rs g) st).
Proof.
  intros (Hs & Hi & Hsc & db' & Hdb' & Hname & Hstores) Hdb Hst Hk.
  assert (db' = db) as -> by congruence.
  split; [done|]. split; [done|]. split; [done|].
  eexists. split; [|split].
  - unfold commit. simpl. rewrite Hname. apply lookup_insert_eq.
  - done.
  - intros table Hin. destruct (Hstores table Hin) as (store0 & Hst0 & Hof & Hk0).
    simpl. destruct (decide (IDBObjectStore.name store = TableSchema.name table)) as [Heq|Hne].
    + rewrite Heq, lookup_insert_eq. eexists. split; [done|].
      rewrite Heq in Hst. assert (store0 = store) as -> by congruence.
      split; [by apply store_of_set_records|done].
    + rewrite lookup_insert_ne by done. by exists store0.
Qed.

(** The rows of a table after a commit to one store. *)
Lemma stored_rows_commit (s : DatabaseSchema.t) (st : state) (db : IDBDatabase.t)
    (store : IDBObjectStore.t) (table : string) :
  instance st = Some (DatabaseSchema.name s) ->
  IDBFactory.databases (indexedDB st) !! DatabaseSchema.name s = Some db ->
  IDBDatabase.name db = DatabaseSchema.name s ->
  stored_rows table (commit db store st)
  = if decide (IDBObjectStore.name store = table) then IDBObjectStore.records store
    else stored_rows table st.
Proof.
  intros Hi Hdb Hname. unfold stored_rows. simpl. rewrite Hi.
  rewrite open_store_commit by done. destruct (decide _); [done|].
  unfold open_store. rewrite Hdb. by destruct (_ !! table).
Qed.

(** ** add *)

(** Without unique columns no write violates a unique index. *)
Lemma violates_unique_plain (table : TableSchema.t) (store : IDBObjectStore.t)
    (key : value) (r : row) :
  store_of table store -> plain table ->
  IDBObjectStore.violates_unique store key r = false.
Proof.
  intros Hof Hp. apply store_of_name in Hof as (_ & _ & Hix & _).
  unfold IDBObjectStore.violates_unique. rewrite Hix.
  apply not_true_is_false. intros H. apply existsb_exists in H as (ix & Hin & H).
  apply list_elem_of_In, list_elem_of_fmap in Hin as (column & -> & Hin).
  simpl in H. by rewrite (Hp column Hin) in H.
Qed.

(** No record holds the key. *)
Lemma has_key_false (store : IDBObjectStore.t) (key : value) :
  keyed store -> valid_key key = true ->
  IDBObjectStore.has_key store key = false <->
  forall r, r ∈ IDBObjectStore.records store -> key_of store r <> key.
Proof.
  intros Hk Hv. unfold IDBObjectStore.has_key. split.
  - intros H r Hr Heq. apply not_true_iff_false in H. apply H.
    apply existsb_exists. exists r. split; [by apply list_elem_of_In|].
    unfold key_of in Heq. rewrite Heq. by apply key_eqb_refl.
  - intros H. apply not_true_is_false. intros He.
    apply existsb_exists in He as (r & Hr & He). apply list_elem_of_In in Hr.
    apply (H r Hr). apply key_eqb_eq; [by apply keyed_valid|done|done].
Qed.

(** What [add] comes to in a ready state, by the engine's answer. *)
Lemma add_ready (s : DatabaseSchema.t) (st : state) (table : string)
    (tableSchema : TableSchema.t) (object : row) (upsert : bool) :
  ready s st ->
  table <> EmptyString ->
  DatabaseSchema.tableMap s !! table = Some tableSchema ->
  exists db store,
    IDBFactory.databases (indexedDB st) !! DatabaseSchema.name s = Some db /\
    IDBDatabase.name db = DatabaseSchema.name s /\
    IDBDatabase.objectStores db !! table = Some store /\
    IDBObjectStore.name store = table /\
    store_of tableSchema store /\ keyed store /\
    stored_rows table st = IDBObjectStore.records store /\
    add table object upsert st
    = let st' := log (if upsert then call_put table object else call_add table object)
                   (log (call_transaction (DatabaseSchema.name s) table readwrite) st) in
      match IDBObjectStore.store_row store upsert object with
      | IDBObjectStore.WriteThrows e => (Rejects e, st')
      | IDBObjectStore.WriteFails _ =>
          (Rejects (Error ("Error in LocalDatabase.add for store (" +:+ table
                           +:+ "). Check console.")), st')
      | IDBObjectStore.Written store' => (Resolves (), commit db store' st')
      end.
Proof.
  intros Hr Ht Hmap.
  destruct (ready_table _ _ _ _ Hr Hmap) as (_ & Hn & _ & db & store & Hdb & Hname & Hst & Hof & Hk).
  exists db, store. split; [done|]. split; [done|]. split; [done|].
  split; [by rewrite (proj1 (store_of_name _ _ Hof))|]. split; [done|]. split; [done|].
  split.
  - destruct (ready_open_store _ _ _ _ Hr Hmap) as (store' & Ho & Hrows & _).
    rewrite Hrows. unfold open_store in Ho. rewrite Hdb, Hst in Ho. congruence.
  - unfold add. rewrite (ready_check _ _ _ _ _ _ _ Hr Ht Hmap).
    rewrite transaction_open_store, Hdb, Hst. reflexivity.
Qed.

(** A row that brings its key is stored under it, as it is. *)
Lemma extract_key_given (store : IDBObjectStore.t) (r : row) :
  valid_key (key_of store r) = true ->
  exists g, IDBObjectStore.extract_key store r = inr (key_of store r, r, g).
Proof.
  intros Hv. unfold IDBObjectStore.extract_key, key_of in *. rewrite Hv. by eexists.
Qed.

(** A write of a row that brings its key, to a table without unique
    columns, is made unless it is a strict insert of a stored key. *)
Lemma store_row_given (table : TableSchema.t) (store : IDBObjectStore.t)
    (overwrite : bool) (r : row) :
  store_of table store -> plain table -> keyed store ->
  valid_key (key_of store r) = true ->
  (overwrite = false ->
   forall r', r' ∈ IDBObjectStore.records store -> key_of store r' <> key_of store r) ->
  exists g,
    IDBObjectStore.store_row store overwrite r
    = IDBObjectStore.Written (IDBObjectStore.set_records store
        (insert_sorted (fun a b => key_le (key_of store a) (key_of store b)) r
           (filter (fun x => key_eqb (key_of store x) (key_of store r) = false)
                   (IDBObjectStore.records store))) g).
Proof.
  intros Hof Hp Hk Hv Hfresh. destruct (extract_key_given store r Hv) as [g He].
  exists g. unfold IDBObjectStore.store_row. rewrite He.
  rewrite (violates_unique_plain table) by done.
  destruct overwrite; [done|]. simpl.
  rewrite (proj2 (has_key_false store _ Hk Hv)); [done|]. by apply Hfresh.
Qed.

(** An [add] of a row that brings its key resolves, and then the table
    holds the row and, of the rows before, those of another key; the other
    tables are as they were. *)
Lemma add_given_key (s : DatabaseSchema.t) (st : state) (table : string)
    (tableSchema : TableSchema.t) (object : row) (upsert : bool) :
  let keyColumn := ColumnSchema.name (TableSchema.keyColumn tableSchema) in
  ready s st ->
  table <> EmptyString ->
  DatabaseSchema.tableMap s !! table = Some tableSchema ->
  plain tableSchema ->
  valid_key (row_get object keyColumn) = true ->
  (upsert = false ->
   forall r, r ∈ stored_rows table st -> row_get r keyColumn <> row_get object keyColumn) ->
  exists st',
    add table object upsert st = (Resolves (), st') /\
    ready s st' /\
    (forall r, r ∈ stored_rows table st' <->
       r = object \/
       (r ∈ stored_rows table st /\ row_get r keyColumn <> row_get object keyColumn)) /\
    (forall table', table' <> table -> stored_rows table' st' = stored_rows table' st).
Proof.
  intros keyColumn Hr Ht Hmap Hp Hv Hfresh.
  destruct (add_ready s st table tableSchema object upsert Hr Ht Hmap)
    as (db & store & Hdb & Hname & Hst & Hsn & Hof & Hk & Hrows & Hadd).
  pose proof (store_of_name _ _ Hof) as (_ & Hkp & _).
  assert (forall r, key_of store r = row_get r keyColumn) as Hkey
    by (intros r; unfold key_of; by rewrite Hkp).
  destruct (store_row_given tableSchema store upsert object) as [g Hw]; try done.
  { by rewrite Hkey. }
  { intros Hu r' Hr'. rewrite !Hkey. apply Hfresh; [done|]. by rewrite Hrows. }
  rewrite Hw in Hadd. simpl in Hadd. eexists. split; [exact Hadd|].
  assert (keyed (IDBObjectStore.set_records store
        (insert_sorted (fun a b => key_le (key_of store a) (key_of store b)) object
           (filter (fun x => key_eqb (key_of store x) (key_of store object) = false)
                   (IDBObjectStore.records store))) g)) as Hk'.
  { eapply keyed_store_row; [exact Hk|exact Hw]. }
  destruct Hr as (Hs & Hi & Hsc & Hdbs).
  split; [|split].
  - apply ready_commit; [|done| |done].
    + do 2 apply ready_log. done.
    + by rewrite Hsn.
  - intros r. rewrite (stored_rows_commit s) by done. simpl.
    rewrite decide_True by done. rewrite elem_of_insert_sorted, list_elem_of_filter.
    rewrite Hrows, <- !Hkey.
    assert (valid_key (key_of store object) = true) as Hvo by (by rewrite Hkey).
    split.
    + intros [->|[Hne Hin]]; [by left|right]. split; [done|].
      apply key_eqb_ne in Hne; [done|by apply keyed_valid|done].
    + intros [->|[Hin Hne]]; [by left|right]. split; [|done].
      apply key_eqb_ne; [by apply keyed_valid|done|done].
  - intros table' Hne. rewrite (stored_rows_commit s) by done. simpl.
    rewrite decide_False by congruence. reflexivity.
Qed.

(** A second write of a row that brings its key changes nothing more. *)
Lemma extract_key_twice (store : IDBObjectStore.t) (r r' : row) (k : value) (g : Z)
    (rs : list row) :
  valid_key (key_of store r) = true ->
  IDBObjectStore.extract_key store r = inr (k, r', g) ->
  IDBObjectStore.extract_key (IDBObjectStore.set_records store rs g) r = inr (k, r', g).
Proof.
  unfold IDBObjectStore.extract_key, key_of. simpl. intros ->. intros [= <- <- <-].
  do 2 f_equal. destruct (row_get r _) as [| | |n|]; try done.
  destruct (IDBObjectStore.autoIncrement store); simpl; [|done].
  destruct (IDBObjectStore.generator store <=? n) eqn:Hg.
  - by case_match.
  - by rewrite Hg.
Qed.

(** A row that was written broke no unique index, and breaks none when
    written again. *)
Lemma store_row_unique (store store' : IDBObjectStore.t) (overwrite : bool) (r : row) :
  IDBObjectStore.store_row store overwrite r = IDBObjectStore.Written store' ->
  exists k r' g,
    IDBObjectStore.extract_key store r = inr (k, r', g) /\
    IDBObjectStore.violates_unique store k r' = false.
Proof.
  unfold IDBObjectStore.store_row.
  destruct (IDBObjectStore.extract_key store r) as [w|[[k r'] g]] eqn:He.
  - intros ->. by destruct (extract_key_failure _ _ _ He store').
  - destruct (_ && _); [done|].
    destruct (IDBObjectStore.violates_unique _ _ _) eqn:Hu; [done|].
    intros _. by eexists _, _, _.
Qed.

(** The row just written breaks no unique index of the store it is in. *)
Lemma violates_unique_stored (store : IDBObjectStore.t) (k : value) (r : row) (g : Z) :
  valid_key k = true ->
  key_of store r = k ->
  IDBObjectStore.violates_unique store k r = false ->
  IDBObjectStore.violates_unique
    (IDBObjectStore.set_records store
       (insert_sorted (fun a b => key_le (key_of store a) (key_of store b)) r
          (filter (fun x => key_eqb (key_of store x) k = false)
                  (IDBObjectStore.records store))) g) k r = false.
Proof.
  intros Hk Hr Hu. apply not_true_is_false. intros H.
  apply not_true_iff_false in Hu. apply Hu. clear Hu.
  unfold IDBObjectStore.violates_unique in *. simpl in H.
  apply existsb_exists in H as (ix & Hix & H). apply existsb_exists.
  exists ix. split; [done|].
  apply andb_true_iff in H as [Hunique H]. rewrite Hunique. simpl.
  apply existsb_exists in H as (r' & Hr' & H). apply existsb_exists.
  apply list_elem_of_In, elem_of_insert_sorted in Hr' as [->|Hr'].
  - apply andb_true_iff in H as [_ H]. unfold key_of in Hr. rewrite Hr in H.
    by rewrite key_eqb_refl in H.
  - apply list_elem_of_filter in Hr' as [_ Hr']. exists r'.
    split; [by apply list_elem_of_In|done].
Qed.

(** A [put] of a row that brings its key, made twice, writes the same
    store twice. *)
Lemma store_row_twice (store store' : IDBObjectStore.t) (r : row) :
  valid_key (key_of store r) = true ->
  IDBObjectStore.store_row store true r = IDBObjectStore.Written store' ->
  IDBObjectStore.store_row store' true r = IDBObjectStore.Written store'.
Proof.
  intros Hv Hw.
  pose proof (store_row_unique _ _ _ _ Hw) as (k0 & r0 & g0 & He0 & Hu).
  apply store_row_written in Hw as (k & r' & g & He & ->).
  rewrite He in He0. injection He0 as <- <- <-.
  pose proof (extract_key_valid _ _ _ _ _ He) as (Hk & Hr' & Hsame).
  rewrite (Hsame Hv) in *. clear Hsame.
  unfold IDBObjectStore.store_row.
  rewrite (extract_key_twice _ _ _ _ _ _ Hv He).
  rewrite violates_unique_stored by done.
  simpl. unfold IDBObjectStore.set_records. simpl. do 2 f_equal.
  fold (key_of store).
  rewrite (filter_insert_sorted _ (fun x => key_eqb (key_of store x) k = false)).
  - by rewrite filter_filter_same.
  - rewrite Hr', key_eqb_refl; done.
Qed.

Lemma set_store_id (db : IDBDatabase.t) (store : IDBObjectStore.t) :
  IDBDatabase.objectStores db !! IDBObjectStore.name store = Some store ->
  IDBDatabase.set_store db store = db.
Proof.
  intros H. unfold IDBDatabase.set_store. rewrite insert_id by done. by destruct db.
Qed.

(** Committing a store as the database holds it changes no database. *)
Lemma databases_commit_id (db : IDBDatabase.t) (store : IDBObjectStore.t) (st : state) :
  IDBFactory.databases (indexedDB st) !! IDBDatabase.name db = Some db ->
  IDBDatabase.objectStores db !! IDBObjectStore.name store = Some store ->
  IDBFactory.databases (indexedDB (commit db store st))
  = IDBFactory.databases (indexedDB st).
Proof.
  intros Hdb Hst. unfold commit. simpl. rewrite set_store_id by done.
  by apply insert_id.
Qed.

(** ** Scans of a table's store *)

Lemma store_of_index (table : TableSchema.t) (store : IDBObjectStore.t) (n : string) :
  store_of table store ->
  IDBObjectStore.index store n = IDBObjectStore.index (table_store table) n.
Proof. unfold store_of. by intros ->. Qed.

(** Every other column of the table is indexed in its store. *)
Lemma store_of_indexed (table : TableSchema.t) (store : IDBObjectStore.t) (n : string) :
  store_of table store ->
  n ∈ ColumnSchema.name <$> TableSchema.otherColumns table ->
  indexed store n.
Proof.
  intros Hof Hin. apply list_elem_of_fmap in Hin as (column & -> & Hin).
  unfold indexed. rewrite (store_of_index table) by done.
  by apply table_store_indexed.
Qed.

Lemma store_of_not_indexed (table : TableSchema.t) (store : IDBObjectStore.t) (n : string) :
  store_of table store ->
  n ∉ ColumnSchema.name <$> TableSchema.otherColumns table ->
  IDBObjectStore.index store n = inl NotFoundError.
Proof.
  intros Hof Hn. apply index_not_found.
  rewrite (proj1 (proj2 (proj2 (store_of_name _ _ Hof)))), <- list_fmap_compose.
  exact Hn.
Qed.

(** Every argument of [getAll] but a boolean stands for a key range. *)
Lemma query_to_range_key (q : value + IDBKeyRange.t) :
  (forall b, q <> inl (VBool b)) -> exists range, query_to_range q = inr range.
Proof.
  intros Hq. destruct q as [[| |b| |]|range]; simpl; try by eexists.
  by destruct (Hq b).
Qed.

(** The scan of a clause that can be scanned: the records that meet the
    clause, no content twice. *)
Lemma scan_clause (table : TableSchema.t) (store : IDBObjectStore.t) (c : clause) :
  store_of table store -> scannable table c ->
  exists batch,
    scan store c = inr batch /\
    (keyed store -> NoDup (stringify <$> batch)) /\
    forall r, r ∈ batch <->
      r ∈ IDBObjectStore.records store /\ clause_holds c r = true.
Proof.
  intros Hof [Hc Hq].
  destruct (store_of_indexed table store c.1 Hof Hc) as (ix & Hix & Hkp).
  destruct (query_to_range_key c.2 Hq) as [range Hrange].
  unfold scan, _getIndex. rewrite Hix. simpl.
  unfold IDBObjectStore.getAll. rewrite Hrange. eexists. split; [done|]. split.
  - intros Hk. eapply sublist_NoDup; [|apply fmap_sublist, sublist_filter].
    unfold IDBObjectStore.index_records. rewrite (sort_by_perm _ _).
    eapply sublist_NoDup; [by apply keyed_NoDup_contents|].
    apply fmap_sublist, sublist_filter.
  - intros r. rewrite list_elem_of_filter, elem_of_index_records, Hkp.
    unfold clause_holds. rewrite Hrange, andb_true_iff. tauto.
Qed.

(** The scan of a clause on a column without index is rejected. *)
Lemma scan_not_indexed (table : TableSchema.t) (store : IDBObjectStore.t) (c : clause) :
  store_of table store ->
  c.1 ∉ ColumnSchema.name <$> TableSchema.otherColumns table ->
  exists e, scan store c = inl e.
Proof.
  intros Hof Hc. unfold scan, _getIndex.
  rewrite (store_of_not_indexed table) by done. by eexists.
Qed.

(** The scans of clauses that can all be scanned, joined. *)
Lemma scans_clauses (table : TableSchema.t) (store : IDBObjectStore.t)
    (clauses : list clause) :
  store_of table store ->
  (forall c, c ∈ clauses -> scannable table c) ->
  exists batches,
    Promise_all (scan store <$> clauses) = inr batches /\
    Forall2 (fun c batch =>
               forall r, r ∈ batch <->
                 r ∈ IDBObjectStore.records store /\ clause_holds c r = true)
            clauses batches /\
    (keyed store -> Forall (fun batch => NoDup (stringify <$> batch)) batches).
Proof.
  intros Hof. induction clauses as [|c clauses IH]; intros Hc.
  - exists []. split; [done|]. split; constructor.
  - destruct IH as (batches & Hall & HF & Hnd).
    { intros c' Hin. apply Hc. by right. }
    destruct (scan_clause table store c Hof) as (batch & Hscan & Hndb & Hbatch).
    { apply Hc. by left. }
    exists (batch :: batches). rewrite fmap_cons, Promise_all_cons, Hscan, Hall.
    split; [done|]. split; [by constructor|].
    intros Hk. constructor; [by apply Hndb|by apply Hnd].
Qed.

(** One rejected promise rejects the join. *)
Lemma Promise_all_rejected {A : Type} (l : list (error + A)) (e : error) :
  inl e ∈ l -> exists e', Promise_all l = inl e'.
Proof.
  induction l as [|p l IH]; intros Hin; [by apply elem_of_nil in Hin|].
  rewrite Promise_all_cons. destruct p as [e'|x]; [by eexists|].
  apply elem_of_cons in Hin as [Hin|Hin]; [done|].
  destruct (IH Hin) as [e' ->]. by eexists.
Qed.

Lemma scans_not_indexed (table : TableSchema.t) (store : IDBObjectStore.t)
    (clauses : list clause) (c : clause) :
  store_of table store ->
  c ∈ clauses ->
  c.1 ∉ ColumnSchema.name <$> TableSchema.otherColumns table ->
  exists e, Promise_all (scan store <$> clauses) = inl e.
Proof.
  intros Hof Hin Hc. destruct (scan_not_indexed table store c Hof Hc) as [e He].
  apply (Promise_all_rejected _ e). rewrite <- He. by apply list_elem_of_fmap_2.
Qed.

(** The contents found in every batch are those of the rows that meet
    every clause. *)
Lemma in_all_batches_clauses (store : IDBObjectStore.t) (clauses : list clause)
    (batches : list (list row)) (content : string) :
  keyed store ->
  clauses <> [] ->
  Forall2 (fun c batch =>
             forall r, r ∈ batch <->
               r ∈ IDBObjectStore.records store /\ clause_holds c r = true)
          clauses batches ->
  in_all_batches batches content <->
  exists r, r ∈ IDBObjectStore.records store /\ stringify r = content /\
            forallb (fun c => clause_holds c r) clauses = true.
Proof.
  intros Hk Hne HF. unfold in_all_batches, _stringifyArrayElements. split.
  - intros Hall.
    assert (forall c, c ∈ clauses ->
              exists r, r ∈ IDBObjectStore.records store /\
                        stringify r = content /\ clause_holds c r = true) as Hc.
    { intros c Hin. apply list_elem_of_lookup in Hin as [i Hi].
      destruct (Forall2_lookup_l _ _ _ _ _ HF Hi) as (batch & Hb & Hbatch).
      apply list_elem_of_lookup_2 in Hb.
      destruct (proj1 (list_elem_of_fmap _ _ _) (Hall _ Hb)) as (r & Hs & Hr).
      apply Hbatch in Hr as [Hr Hh]. by exists r. }
    destruct clauses as [|c0 clauses]; [done|].
    destruct (Hc c0) as (r0 & Hr0 & Hs0 & Hh0); [by left|].
    exists r0. split; [done|]. split; [done|].
    apply forallb_forall. intros c Hin. apply list_elem_of_In in Hin.
    destruct (Hc c Hin) as (r & Hr & Hs & Hh).
    by rewrite (keyed_stringify_inj store r0 r) by congruence.
  - intros (r & Hr & Hs & Hall) batch Hb.
    apply list_elem_of_lookup in Hb as [i Hi].
    destruct (Forall2_lookup_r _ _ _ _ _ HF Hi) as (c & Hc & Hbatch).
    apply list_elem_of_fmap. exists r. split; [done|]. apply Hbatch. split; [done|].
    rewrite forallb_forall in Hall. apply Hall, list_elem_of_In.
    by eapply list_elem_of_lookup_2.
Qed.

(** ** What select returns *)

(** What [select] comes to in a ready state, by the scans of the table's
    store. *)
Lemma select_ready (s : DatabaseSchema.t) (st : state) (table : string)
    (tableSchema : TableSchema.t) (q : query) :
  ready s st ->
  table <> EmptyString ->
  DatabaseSchema.tableMap s !! table = Some tableSchema ->
  exists store,
    stored_rows table st = IDBObjectStore.records store /\
    store_of tableSchema store /\ keyed store /\
    (select table q st).1
    = match parse_query q with
      | inl e => Rejects e
      | inr (additiveQueries, subtractiveQueries) =>
          match Promise_all (scan store <$> additiveQueries) with
          | inl e => Pending e
          | inr additiveResult =>
              merge subtractiveQueries (scan store <$> subtractiveQueries)
                    additiveResult
          end
      end.
Proof.
  intros Hr Ht Hmap.
  destruct (ready_open_store _ _ _ _ Hr Hmap) as (store & Ho & Hrows & Hof & Hk).
  exists store. split; [done|]. split; [done|]. split; [done|].
  rewrite select_fst. unfold select_outcome.
  rewrite (ready_check _ _ _ _ _ _ _ Hr Ht Hmap).
  destruct (parse_query q) as [e|[a sub]]; [done|]. by rewrite Ho.
Qed.

Lemma selected_no_exclusion (additiveQueries : list clause) (r : row) :
  selected additiveQueries [] r = forallb (fun c => clause_holds c r) additiveQueries.
Proof. unfold selected. by rewrite andb_true_r. Qed.

Lemma selected_exclusion (additiveQueries subtractiveQueries : list clause) (r : row) :
  subtractiveQueries <> [] ->
  selected additiveQueries subtractiveQueries r
  = forallb (fun c => clause_holds c r) additiveQueries &&
    negb (forallb (fun c => clause_holds c r) subtractiveQueries).
Proof. intros Hne. unfold selected. by destruct subtractiveQueries. Qed.

(** Rows parsed from what [JSON.stringify] wrote have no [undefined]
    property. *)
Lemma parseArrayElements_normal (l : list string) (rows : list row) :
  stringified l ->
  _parseArrayElements l = inr rows ->
  forall row, row ∈ rows -> normal row = row.
Proof.
  revert rows. induction l as [|x l IH]; intros rows Hl Hp row Hin.
  - injection Hp as <-. by apply elem_of_nil in Hin.
  - rewrite parseArrayElements_cons in Hp.
    destruct (Hl x) as [r0 ->]; [by left|]. rewrite parse_stringify in Hp.
    destruct (_parseArrayElements l) as [e|rows'] eqn:Hp'; [done|].
    injection Hp as <-. apply elem_of_cons in Hin as [->|Hin].
    + apply filter_filter_same.
    + apply (IH rows'); [|done|done]. intros y Hy. apply Hl. by right.
Qed.

(** A row with the content of a record has its key, if it is a record
    itself or came out of [JSON.parse]. *)
Lemma key_of_content (store : IDBObjectStore.t) (row r : row) :
  keyed store ->
  r ∈ IDBObjectStore.records store ->
  stringify r = stringify row ->
  row ∈ IDBObjectStore.records store \/ normal row = row ->
  key_of store row = key_of store r.
Proof.
  intros Hk Hr Hs [Hrow|Hn].
  - by rewrite (keyed_stringify_inj store r row).
  - pose proof (keyed_valid store r Hk Hr) as Hv. unfold key_of in *.
    rewrite <- (row_get_normal_defined r) by by apply valid_key_defined.
    rewrite <- Hn. f_equal. symmetry. by apply stringify_inj.
Qed.

(** With at least one inclusion clause, and all clauses on indexed columns
    with arguments that are no booleans, the merge of the scans resolves
    with rows whose contents are those of the selected records, each
    once. *)
Lemma merge_scans (table : TableSchema.t) (store : IDBObjectStore.t)
    (additiveQueries subtractiveQueries : list clause) :
  store_of table store -> keyed store ->
  additiveQueries <> [] ->
  (forall c, c ∈ additiveQueries ++ subtractiveQueries -> scannable table c) ->
  exists additiveResult rows,
    Promise_all (scan store <$> additiveQueries) = inr additiveResult /\
    merge subtractiveQueries (scan store <$> subtractiveQueries) additiveResult
    = Resolves (Rows rows) /\
    NoDup (stringify <$> rows) /\
    (forall content,
       content ∈ stringify <$> rows <->
       exists r, r ∈ IDBObjectStore.records store /\
                 selected additiveQueries subtractiveQueries r = true /\
                 stringify r = content) /\
    (forall row, row ∈ rows ->
       row ∈ IDBObjectStore.records store \/ normal row = row).
Proof.
  intros Hof Hk Hne Hc.
  destruct (scans_clauses table store additiveQueries Hof) as (ar & Har & HFa & Hnda).
  { intros c Hin. apply Hc, elem_of_app. by left. }
  destruct (scans_clauses table store subtractiveQueries Hof) as (sr & Hsr & HFs & _).
  { intros c Hin. apply Hc, elem_of_app. by right. }
  specialize (Hnda Hk).
  assert (ar <> []) as Hne'.
  { apply Forall2_length in HFa. destruct ar; [|done]. by destruct additiveQueries. }
  assert (exists batch, last ar = Some batch /\ NoDup (stringify <$> batch))
    as (lastBatch & Hlast & Hndl).
  { destruct (last ar) as [b|] eqn:Hl; [|by apply last_None in Hl].
    exists b. split; [done|]. rewrite Forall_forall in Hnda. apply Hnda.
    apply last_Some in Hl as [l ->]. apply elem_of_app. right. by left. }
  exists ar. destruct (decide (direct subtractiveQueries ar)) as [Hd|Hd].
  - (* one scan, returned as it is *)
    destruct Hd as [Hs Hd].
    destruct subtractiveQueries; [|done].
    destruct ar as [|batch [|b ar]]; [done| |simpl in Hd; lia].
    destruct additiveQueries as [|c [|c' cs]];
      [done| |apply Forall2_length in HFa; done].
    apply (Forall2_cons_1 _ _ _ _ _) in HFa as [Hbatch _].
    exists batch. split; [done|]. rewrite merge_direct by done.
    split; [done|]. simpl in Hlast. injection Hlast as <-. split; [done|].
    split.
    + intros content. rewrite list_elem_of_fmap. simpl. split.
      * intros (r & -> & Hr). apply Hbatch in Hr as [Hr Hh]. exists r.
        unfold selected. simpl. by rewrite Hh.
      * intros (r & Hr & Hsel & <-). exists r. split; [done|]. apply Hbatch.
        split; [done|]. unfold selected in Hsel. simpl in Hsel.
        by rewrite !andb_true_r in Hsel.
    + intros row Hrow. left. by apply Hbatch in Hrow as [??].
  - rewrite merge_not_direct by done.
    destruct (intersectAndStringify_nonempty ar Hne') as [l Hl]. rewrite Hl.
    pose proof (stringified_intersect _ _ Hl) as Hstr.
    rewrite length_fmap.
    destruct subtractiveQueries as [|c0 subtractiveQueries].
    + (* inclusion clauses only *)
      destruct (parseArrayElements_stringified l Hstr) as (rows & Hparse & Hrows).
      simpl. rewrite Hparse. exists rows. split; [done|]. split; [done|].
      unfold _stringifyArrayElements in Hrows. rewrite Hrows. split; [|split].
      * eapply sublist_NoDup; [exact Hndl|].
        by apply (intersectAndStringify_sublist ar).
      * intros content. rewrite (elem_of_intersectAndStringify _ _ _ Hl).
        rewrite (in_all_batches_clauses store additiveQueries) by done.
        setoid_rewrite selected_no_exclusion. split.
        -- intros (r & Hr & Hs & Ha). by exists r.
        -- intros (r & Hr & Ha & Hs). by exists r.
      * intros row Hrow. right. by apply (parseArrayElements_normal l rows).
    + (* exclusion clauses as well *)
      rewrite bool_decide_eq_false_2 by done. rewrite Hsr.
      assert (sr <> []) as Hne''.
      { apply Forall2_length in HFs. by destruct sr. }
      destruct (intersectAndStringify_nonempty sr Hne'') as [l' Hl']. rewrite Hl'.
      pose proof (stringified_difference l l' Hstr) as Hstr'.
      destruct (parseArrayElements_stringified _ Hstr') as (rows & Hparse & Hrows).
      rewrite Hparse. exists rows. split; [done|]. split; [done|].
      unfold _stringifyArrayElements in Hrows. rewrite Hrows. split; [|split].
      * eapply sublist_NoDup; [exact Hndl|].
        etrans; [apply sublist_filter|].
        by apply (intersectAndStringify_sublist ar).
      * intros content. rewrite elem_of_difference.
        rewrite (elem_of_intersectAndStringify _ _ _ Hl).
        rewrite (elem_of_intersectAndStringify _ _ _ Hl').
        rewrite (in_all_batches_clauses store additiveQueries) by done.
        rewrite (in_all_batches_clauses store (c0 :: subtractiveQueries)) by done.
        setoid_rewrite selected_exclusion; [|done..].
        split.
        -- intros [(r & Hr & Hs & Ha) Hn]. exists r. split; [done|]. split; [|done].
           rewrite Ha. simpl. apply negb_true_iff, not_true_is_false.
           intros Hsub. apply Hn. by exists r.
        -- intros (r & Hr & Hsel & Hs). apply andb_true_iff in Hsel as [Ha Hsub].
           split; [by exists r|]. intros (r' & Hr' & Hs' & Hsub').
           rewrite (keyed_stringify_inj store r r') in Hsub by congruence.
           by rewrite Hsub' in Hsub.
      * intros row Hrow. right. by apply (parseArrayElements_normal _ rows Hstr').
Qed.

(** Some clause is on a column without index: the merge never settles. *)
Lemma merge_not_indexed (table : TableSchema.t) (store : IDBObjectStore.t)
    (additiveQueries subtractiveQueries : list clause) (c : clause) :
  store_of table store ->
  c ∈ additiveQueries ++ subtractiveQueries ->
  c.1 ∉ ColumnSchema.name <$> TableSchema.otherColumns table ->
  exists e,
    match Promise_all (scan store <$> additiveQueries) with
    | inl e => Pending e
    | inr additiveResult =>
        merge subtractiveQueries (scan store <$> subtractiveQueries) additiveResult
    end = Pending e.
Proof.
  intros Hof Hin Hc.
  destruct (Promise_all (scan store <$> additiveQueries)) as [e|ar] eqn:Har;
    [by eexists|].
  apply elem_of_app in Hin as [Hin|Hin].
  { destruct (scans_not_indexed table store _ c Hof Hin Hc) as [e He]. congruence. }
  destruct (scans_not_indexed table store _ c Hof Hin Hc) as [e He].
  rewrite merge_not_direct.
  2:{ intros [Hd _]. destruct subtractiveQueries; [by apply elem_of_nil in Hin|done]. }
  destruct (intersectAndStringifyArrayOfArrays ar); [by eexists|].
  rewrite bool_decide_eq_false_2.
  2:{ rewrite length_fmap. destruct subtractiveQueries; [by apply elem_of_nil in Hin|done]. }
  rewrite He. by eexists.
Qed.

(** ** select leaves the stored data alone *)

(** Starting the scans changes neither the connection nor the schema. *)
Lemma getPromises_state (connection table : string) (l : list clause) (st : state) :
  instance (getPromisesFromQueryArray connection table l st).2 = instance st /\
  schema (getPromisesFromQueryArray connection table l st).2 = schema st /\
  supported (getPromisesFromQueryArray connection table l st).2 = supported st.
Proof.
  unfold getPromisesFromQueryArray. rewrite transaction_open_store.
  destruct (_ !! connection) as [db|]; [|done].
  destruct (_ !! table) as [store|]; [|done]. simpl.
  assert (forall st0 : state,
    instance (foldl (log_scan store) st0 l) = instance st0 /\
    schema (foldl (log_scan store) st0 l) = schema st0 /\
    supported (foldl (log_scan store) st0 l) = supported st0) as H.
  { induction l as [|c l IH]; intros st0; [done|]. simpl.
    destruct (IH (log_scan store st0 c)) as (-> & -> & ->).
    unfold log_scan. by destruct (IDBObjectStore.index store c.1). }
  by destruct (H (log (call_transaction connection table readonly) st)) as (-> & -> & ->).
Qed.

(** What [select] leaves as it was. *)
Lemma select_state (table : string) (q : query) (st : state) :
  IDBFactory.databases (indexedDB (select table q st).2)
  = IDBFactory.databases (indexedDB st) /\
  instance (select table q st).2 = instance st /\
  schema (select table q st).2 = schema st /\
  supported (select table q st).2 = supported st.
Proof.
  unfold select. destruct (check _ _ _ _ _) as [e|[connection s]]; [done|].
  destruct (parse_query q) as [e|[a sub]]; [done|].
  pose proof (getPromises_databases connection table a st) as Hd.
  pose proof (getPromises_state connection table a st) as (Hi & Hs & Hp).
  destruct (getPromisesFromQueryArray connection table a st) as [[e|ap] st1]; [done|].
  pose proof (getPromises_databases connection table sub st1) as Hd'.
  pose proof (getPromises_state connection table sub st1) as (Hi' & Hs' & Hp').
  destruct (getPromisesFromQueryArray connection table sub st1) as [[e|sp] st2];
    simpl in *; repeat split; congruence.
Qed.

Lemma select_keeps_ready (s : DatabaseSchema.t) (table : string) (q : query) (st : state) :
  ready s st -> ready s (select table q st).2.
Proof.
  pose proof (select_state table q st) as (Hd & Hi & Hs & _).
  by apply ready_same_databases.
Qed.

Lemma stored_rows_same (table : string) (st st' : state) :
  instance st' = instance st ->
  IDBFactory.databases (indexedDB st') = IDBFactory.databases (indexedDB st) ->
  stored_rows table st' = stored_rows table st.
Proof. unfold stored_rows, open_store. by intros -> ->. Qed.

(** ** delete *)

(** Resolved promises join to their values. *)
Lemma Promise_all_resolved {A : Type} (n : nat) (x : A) :
  Promise_all (replicate n (@inr error A x)) = inr (replicate n x).
Proof.
  induction n as [|n IH]; [done|].
  change (replicate (S n) (@inr error A x)) with (inr x :: replicate n (@inr error A x)).
  by rewrite Promise_all_cons, IH.
Qed.

(** Deleting keys one transaction after the other: every delete is made,
    and the rows of those keys are gone. *)
Lemma delete_keys_ready (s : DatabaseSchema.t) (table : string)
    (tableSchema : TableSchema.t) (keyArray : list value) (st : state) :
  ready s st ->
  DatabaseSchema.tableMap s !! table = Some tableSchema ->
  Forall (fun key => valid_key key = true) keyArray ->
  (delete_keys (DatabaseSchema.name s) table keyArray st).1
  = replicate (length keyArray) (inr ()) /\
  ready s (delete_keys (DatabaseSchema.name s) table keyArray st).2 /\
  (forall r,
     r ∈ stored_rows table (delete_keys (DatabaseSchema.name s) table keyArray st).2 <->
     r ∈ stored_rows table st /\
     row_get r (ColumnSchema.name (TableSchema.keyColumn tableSchema)) ∉ keyArray) /\
  (forall table', table' <> table ->
     stored_rows table' (delete_keys (DatabaseSchema.name s) table keyArray st).2
     = stored_rows table' st).
Proof.
  intros Hr Hmap Hv. revert st Hr.
  induction Hv as [|key keyArray Hkey Hv IH]; intros st Hr.
  - simpl. split; [done|]. split; [done|]. split; [|done].
    intros r. split; [|tauto]. intros Hin. split; [done|]. apply not_elem_of_nil.
  - destruct (ready_table _ _ _ _ Hr Hmap)
      as (_ & Hn & _ & db & store & Hdb & Hname & Hst & Hof & Hk).
    destruct (ready_open_store _ _ _ _ Hr Hmap) as (store' & Ho & Hrows & _).
    assert (store' = store) as ->.
    { unfold open_store in Ho. rewrite Hdb, Hst in Ho. congruence. }
    pose proof (store_of_name _ _ Hof) as (Hsn & Hkp & _).
    cbn [delete_keys]. rewrite transaction_open_store, Hdb, Hst.
    unfold IDBObjectStore.delete. rewrite Hkey.
    set (store1 := IDBObjectStore.set_records store _ _).
    set (st1 := commit db store1 _).
    assert (ready s st1) as Hr1.
    { apply ready_commit; [by do 2 apply ready_log|done|by rewrite Hsn, Hn|].
      apply (keyed_delete store store1 key Hk).
      unfold IDBObjectStore.delete. by rewrite Hkey. }
    destruct (IH st1 Hr1) as (Hp & Hr' & Hrows' & Hother).
    destruct (delete_keys (DatabaseSchema.name s) table keyArray st1)
      as [promises st2] eqn:Hdel.
    simpl in *. split; [by rewrite Hp|]. split; [done|].
    destruct Hr as (_ & Hi & _).
    split.
    + intros r. rewrite Hrows'. unfold st1.
      rewrite (stored_rows_commit s) by done. simpl.
      rewrite decide_True by (by rewrite Hsn, Hn).
      rewrite list_elem_of_filter, Hrows, not_elem_of_cons, <- Hkp.
      fold (key_of store r). split.
      * intros [[Hne Hin] Hnotin]. split; [done|]. split; [|done].
        apply key_eqb_ne in Hne; [done|by apply keyed_valid|done].
      * intros [Hin [Hne Hnotin]]. split; [|done]. split; [|done].
        apply key_eqb_ne; [by apply keyed_valid|done|done].
    + intros table' Hne. rewrite (Hother table' Hne). unfold st1.
      rewrite (stored_rows_commit s) by done. simpl.
      rewrite decide_False; [done|]. rewrite Hsn, Hn. congruence.
Qed.

(** What [select] resolves with in a ready state, on a query with an
    inclusion clause and clauses that can all be scanned. *)
Lemma select_selected (s : DatabaseSchema.t) (st : state) (table : string)
    (tableSchema : TableSchema.t) (q : query)
    (additiveQueries subtractiveQueries : list clause) :
  ready s st ->
  table <> EmptyString ->
  DatabaseSchema.tableMap s !! table = Some tableSchema ->
  parse_query q = inr (additiveQueries, subtractiveQueries) ->
  additiveQueries <> [] ->
  (forall c, c ∈ additiveQueries ++ subtractiveQueries -> scannable tableSchema c) ->
  exists rows,
    (select table q st).1 = Resolves (Rows rows) /\
    NoDup (stringify <$> rows) /\
    (forall content,
       content ∈ stringify <$> rows <->
       exists r, r ∈ stored_rows table st /\
                 selected additiveQueries subtractiveQueries r = true /\
                 stringify r = content) /\
    (forall k,
       k ∈ (fun entry => row_get entry (ColumnSchema.name (TableSchema.keyColumn tableSchema)))
             <$> rows <->
       exists r, r ∈ stored_rows table st /\
                 selected additiveQueries subtractiveQueries r = true /\
                 row_get r (ColumnSchema.name (TableSchema.keyColumn tableSchema)) = k) /\
    Forall (fun row =>
              valid_key (row_get row (ColumnSchema.name (TableSchema.keyColumn tableSchema)))
              = true) rows.
Proof.
  intros Hr Ht Hmap Hq Hne Hc.
  destruct (select_ready s st table tableSchema q Hr Ht Hmap)
    as (store & Hrows & Hof & Hk & Hsel).
  rewrite Hq in Hsel.
  destruct (merge_scans tableSchema store additiveQueries subtractiveQueries Hof Hk Hne Hc)
    as (ar & rows & Har & Hm & Hnd & Hcontent & Hkeys).
  rewrite Har, Hm in Hsel. exists rows. rewrite Hrows.
  pose proof (store_of_name _ _ Hof) as (_ & Hkp & _). rewrite <- Hkp.
  fold (key_of store).
  assert (forall row, row ∈ rows ->
            exists r, r ∈ IDBObjectStore.records store /\
                      selected additiveQueries subtractiveQueries r = true /\
                      key_of store row = key_of store r) as Hrow.
  { intros row Hin.
    destruct (proj1 (Hcontent (stringify row))) as (r & Hr' & Hs & Hcon).
    { by apply list_elem_of_fmap_2. }
    exists r. split; [done|]. split; [done|].
    apply key_of_content; [done|done|done|by apply Hkeys]. }
  split; [done|]. split; [done|]. split; [done|]. split.
  - intros k. rewrite list_elem_of_fmap. split.
    + intros (row & -> & Hin). destruct (Hrow row Hin) as (r & Hr' & Hs & Hkey).
      by exists r.
    + intros (r & Hr' & Hs & <-).
      assert (stringify r ∈ stringify <$> rows) as Hin
        by (apply Hcontent; by exists r).
      apply list_elem_of_fmap in Hin as (row & Hcon & Hin). exists row. split; [|done].
      symmetry. apply key_of_content; [done|done|done|by apply Hkeys].
  - apply Forall_forall. intros row Hin. destruct (Hrow row Hin) as (r & Hr' & _ & Hkey).
    change (valid_key (key_of store row) = true). rewrite Hkey.
    by apply keyed_valid.
Qed.

(** The guards pass for one operation when they pass for another: only
    the messages differ. *)
Lemma check_operation (operation messageOperation noTable operation' messageOperation'
    noTable' table : string) (st : state) (x : string * DatabaseSchema.t) :
  check operation messageOperation noTable table st = inr x ->
  check operation' messageOperation' noTable' table st = inr x.
Proof.
  unfold check. destruct (instance st); [|done].
  destruct (decide (table = EmptyString)); [done|].
  destruct (schema st); [|done]. by destruct (bool_decide _).
Qed.

(** [delete] on such a query resolves, and then the table holds the rows
    that were not selected; the other tables are as they were. *)
Lemma delete_selected (s : DatabaseSchema.t) (st : state) (table : string)
    (tableSchema : TableSchema.t) (q : query)
    (additiveQueries subtractiveQueries : list clause) :
  ready s st ->
  table <> EmptyString ->
  DatabaseSchema.tableMap s !! table = Some tableSchema ->
  parse_query q = inr (additiveQueries, subtractiveQueries) ->
  additiveQueries <> [] ->
  (forall c, c ∈ additiveQueries ++ subtractiveQueries -> scannable tableSchema c) ->
  exists n st',
    delete table q st = (Resolves (replicate n ()), st') /\
    ready s st' /\
    (forall r, r ∈ stored_rows table st' <->
       r ∈ stored_rows table st /\
       selected additiveQueries subtractiveQueries r = false) /\
    (forall table', table' <> table -> stored_rows table' st' = stored_rows table' st).
Proof.
  intros Hr Ht Hmap Hq Hne Hc.
  destruct (select_selected s st table tableSchema q _ _ Hr Ht Hmap Hq Hne Hc)
    as (rows & Hsel & Hnd & _ & Hkeys & Hvalid).
  pose proof (select_keeps_ready s table q st Hr) as Hr2.
  pose proof (select_state table q st) as (Hd2 & Hi2 & _).
  pose proof (ready_table _ _ _ _ Hr Hmap) as (_ & Hn & _).
  destruct (ready_open_store _ _ _ _ Hr Hmap) as (store & _ & Hrows & Hof & Hk).
  pose proof (store_of_name _ _ Hof) as (_ & Hkp & _).
  unfold delete. rewrite (ready_check _ _ _ _ _ _ _ Hr Ht Hmap).
  destruct (select table q st) as [o st2]. simpl in *. subst o. rewrite Hmap, Hn.
  set (keyArray := (fun entry => row_get entry _) <$> rows) in *.
  destruct (delete_keys_ready s table tableSchema keyArray st2 Hr2 Hmap)
    as (Hp & Hr3 & Hrows3 & Hother).
  { unfold keyArray. apply Forall_fmap. exact Hvalid. }
  destruct (delete_keys (DatabaseSchema.name s) table keyArray st2)
    as [promises st3]. simpl in *. subst promises.
  rewrite Promise_all_resolved. eexists _, _. split; [done|]. split; [done|].
  split.
  - intros r. rewrite Hrows3, (stored_rows_same table st st2) by done.
    rewrite Hkeys. split.
    + intros [Hin Hn']. split; [done|]. apply not_true_is_false. intros Hsel.
      apply Hn'. by exists r.
    + intros [Hin Hsel]. split; [done|]. intros (r' & Hin' & Hsel' & Hkey).
      rewrite Hrows in Hin, Hin'. rewrite <- Hkp in Hkey.
      assert (r' = r) as ->; [|congruence].
      apply (NoDup_fmap_inj_on (key_of store) (IDBObjectStore.records store));
        [apply Hk|done|done|done].
  - intros table' Hne'. rewrite (Hother table' Hne').
    by apply stored_rows_same.
Qed.

(** ** Every operation keeps the state ready *)

(** In a ready state, where the guards pass the table is one of the
    schema. *)
Lemma ready_checked (s : DatabaseSchema.t) (st : state) (table : string)
    (operation messageOperation noTable connection : string) (s' : DatabaseSchema.t) :
  ready s st ->
  check operation messageOperation noTable table st = inr (connection, s') ->
  connection = DatabaseSchema.name s /\ s' = s /\ table <> EmptyString /\
  exists tableSchema, DatabaseSchema.tableMap s !! table = Some tableSchema.
Proof.
  intros (Hs & Hi & Hsc & _). unfold check. rewrite Hi, Hsc.
  destruct (decide (table = EmptyString)); [done|].
  destruct (bool_decide _) eqn:Hin; [|done]. intros [= <- <-].
  split; [done|]. split; [done|]. split; [done|].
  apply bool_decide_eq_true_1 in Hin. rewrite Hs in Hin |- *.
  rewrite tableNames_constructor in Hin. by apply tableMap_constructor_is_Some.
Qed.

Lemma add_keeps_ready (s : DatabaseSchema.t) (table : string) (object : row)
    (upsert : bool) (st : state) :
  ready s st -> ready s (add table object upsert st).2.
Proof.
  intros Hr. destruct (check "add" "select" "store" table st) as [e|[connection s']] eqn:Hc.
  { unfold add. by rewrite Hc. }
  destruct (ready_checked _ _ _ _ _ _ _ _ Hr Hc) as (-> & -> & Ht & tableSchema & Hmap).
  destruct (add_ready s st table tableSchema object upsert Hr Ht Hmap)
    as (db & store & Hdb & Hname & Hst & Hsn & Hof & Hk & Hrows & ->).
  destruct (IDBObjectStore.store_row store upsert object) as [e|e|store'] eqn:Hw;
    cbn zeta iota; cbn [snd]; try (by do 2 apply ready_log).
  pose proof (keyed_store_row _ _ _ _ Hk Hw) as Hk'.
  apply store_row_written in Hw as (k & r' & g & _ & ->).
  apply ready_commit; [by do 2 apply ready_log|done|by rewrite Hsn|done].
Qed.

Lemma delete_keys_keeps_ready (s : DatabaseSchema.t) (table : string)
    (tableSchema : TableSchema.t) (keyArray : list value) (st : state) :
  DatabaseSchema.tableMap s !! table = Some tableSchema ->
  ready s st -> ready s (delete_keys (DatabaseSchema.name s) table keyArray st).2.
Proof.
  intros Hmap. revert st. induction keyArray as [|key keyArray IH]; intros st Hr; [done|].
  destruct (ready_table _ _ _ _ Hr Hmap)
    as (_ & Hn & _ & db & store & Hdb & Hname & Hst & Hof & Hk).
  pose proof (store_of_name _ _ Hof) as (Hsn & _).
  cbn [delete_keys]. rewrite transaction_open_store, Hdb, Hst.
  destruct (IDBObjectStore.delete store key) as [e|store'] eqn:Hdel.
  - specialize (IH (log (call_delete table key)
                      (log (call_transaction (DatabaseSchema.name s) table readwrite) st))).
    destruct (delete_keys _ _ _ _). apply IH. by do 2 apply ready_log.
  - pose proof (keyed_delete _ _ _ Hk Hdel) as Hk'.
    unfold IDBObjectStore.delete in Hdel. destruct (valid_key key); [|done].
    injection Hdel as <-.
    match goal with |- context [commit db ?x ?y] => specialize (IH (commit db x y)) end.
    destruct (delete_keys _ _ _ _). apply IH.
    apply ready_commit; [by do 2 apply ready_log|done|by rewrite Hsn, Hn|done].
Qed.

Lemma delete_keeps_ready (s : DatabaseSchema.t) (table : string) (q : query) (st : state) :
  ready s st -> ready s (delete table q st).2.
Proof.
  intros Hr. unfold delete.
  destruct (check "delete" "delete" "table" table st) as [e|[connection s']] eqn:Hc; [done|].
  destruct (ready_checked _ _ _ _ _ _ _ _ Hr Hc) as (-> & -> & Ht & tableSchema & Hmap).
  pose proof (select_keeps_ready s table q st Hr) as Hr2.
  destruct (select table q st) as [[e|e|[|results]|e] st2]; try done.
  rewrite Hmap. simpl in Hr2.
  pose proof (ready_table _ _ _ _ Hr Hmap) as (_ & -> & _).
  pose proof (delete_keys_keeps_ready s table tableSchema
                ((fun entry => row_get entry (ColumnSchema.name (TableSchema.keyColumn tableSchema)))
                   <$> results) st2 Hmap Hr2) as Hr3.
  destruct (delete_keys _ _ _ _) as [promises st3].
  by destruct (Promise_all promises).
Qed.

(** ** multiAdd *)

(** An [add] that throws does so at the guards, for every row alike, and
    leaves the state as it was. *)
Lemma add_throws (table : string) (object : row) (upsert : bool) (st : state) (e : error) :
  (add table object upsert st).1 = Throws e ->
  forall object', add table object' upsert st = (Throws e, st).
Proof.
  unfold add. destruct (check _ _ _ _ _) as [e'|[connection s]].
  - by intros [= ->].
  - rewrite transaction_open_store.
    destruct (_ !! connection) as [db|]; [|done].
    destruct (_ !! table) as [store|]; [|done].
    by destruct (IDBObjectStore.store_row store upsert object).
Qed.

Lemma adds_throw (table : string) (objects : list row) (upsert : bool) (st : state)
    (e : error) :
  (forall object, add table object upsert st = (Throws e, st)) ->
  foldl (fun st object => (add table object upsert st).2) st objects = st.
Proof.
  intros H. induction objects as [|object objects IH]; [done|].
  simpl. by rewrite H.
Qed.

Lemma multiAdd_map_state (table : string) (objects : list row) (upsert : bool) (st : state) :
  (multiAdd_map table objects upsert st).2
  = foldl (fun st object => (add table object upsert st).2) st objects.
Proof.
  revert st. induction objects as [|object objects IH]; intros st; [done|].
  cbn [multiAdd_map foldl]. specialize (IH (add table object upsert st).2).
  destruct (add table object upsert st) as [[e|e|[]|e] st'] eqn:Hadd; simpl in *.
  - pose proof (add_throws table object upsert st e) as Ht. rewrite Hadd in Ht.
    specialize (Ht eq_refl). rewrite Ht in Hadd. injection Hadd as <-.
    symmetry. by apply (adds_throw _ _ _ _ e).
  - by destruct (multiAdd_map table objects upsert st').
  - by destruct (multiAdd_map table objects upsert st').
  - by destruct (multiAdd_map table objects upsert st').
Qed.

(** The state [multiAdd] leaves is that of its [add]s in order. *)
Lemma multiAdd_state (table : string) (objects : list row) (upsert : bool) (st : state) :
  (multiAdd table objects upsert st).2
  = foldl (fun st object => (add table object upsert st).2) st objects.
Proof.
  rewrite <- multiAdd_map_state. unfold multiAdd.
  destruct (multiAdd_map table objects upsert st) as [[e|promises] st']; [done|].
  by destruct (Promise_all promises).
Qed.

Lemma multiAdd_keeps_ready (s : DatabaseSchema.t) (table : string) (objects : list row)
    (upsert : bool) (st : state) :
  ready s st -> ready s (multiAdd table objects upsert st).2.
Proof.
  rewrite multiAdd_state. revert st.
  induction objects as [|object objects IH]; intros st Hr; [done|].
  simpl. by apply IH, add_keeps_ready.
Qed.

(** [multiAdd] resolves exactly when every [add] does. *)
Lemma multiAdd_resolves (table : string) (objects : list row) (upsert : bool) (st : state) :
  (multiAdd table objects upsert st).1 = Resolves (replicate (length objects) ()) <->
  Forall (fun o => o = Resolves ()) (add_each table objects upsert st).
Proof.
  unfold multiAdd. pose proof (@Promise_all_cons unit) as Hcons.
  pose proof (@Promise_all_nil unit) as Hnil.
  remember (@Promise_all unit) as all eqn:Hall. clear Hall.
  assert (forall st,
    match (multiAdd_map table objects upsert st).1 with
    | inl _ => ~ Forall (fun o => o = Resolves ()) (add_each table objects upsert st)
    | inr promises =>
        length promises = length objects /\
        (all promises = inr (replicate (length objects) ()) <->
         Forall (fun o => o = Resolves ()) (add_each table objects upsert st))
    end) as H.
  { clear st. induction objects as [|object objects IH]; intros st.
    - simpl. split; [done|]. split; [intros _; constructor|intros _; exact Hnil].
    - cbn [multiAdd_map add_each]. specialize (IH (add table object upsert st).2).
      destruct (add table object upsert st) as [[e|e|[]|e] st'] eqn:Hadd; simpl in *.
      + intros HF. by apply Forall_cons in HF as [? _].
      + destruct (multiAdd_map table objects upsert st') as [[e'|promises] st''];
          simpl in *.
        * intros HF. by apply Forall_cons in HF as [? _].
        * destruct IH as [Hlen IH]. split; [by rewrite Hlen|].
          rewrite Hcons. split; [done|].
          intros HF. by apply Forall_cons in HF as [? _].
      + destruct (multiAdd_map table objects upsert st') as [[e'|promises] st''];
          simpl in *.
        * intros HF. apply Forall_cons in HF as [_ HF]. by apply IH.
        * destruct IH as [Hlen IH]. split; [by rewrite Hlen|].
          rewrite Hcons, Forall_cons, <- IH.
          destruct (all promises) as [e'|evs]; [split; [done|by intros [_ ?]]|].
          split; [intros [= ->]|intros [_ [= ->]]]; done.
      + destruct (multiAdd_map table objects upsert st') as [[e'|promises] st''];
          simpl in *.
        * intros HF. by apply Forall_cons in HF as [? _].
        * destruct IH as [Hlen IH]. split; [by rewrite Hlen|].
          rewrite Hcons. split; [done|].
          intros HF. by apply Forall_cons in HF as [? _]. }
  specialize (H st).
  destruct (multiAdd_map table objects upsert st) as [[e|promises] st']; simpl in *.
  - split; [done|]. intros HF. by destruct H.
  - destruct H as [_ H]. rewrite <- H.
    destruct (all promises) as [e|evs]; split; intros [=]; by subst.
Qed.

(** Rows that bring distinct keys, added one after the other. *)
Lemma adds_given_keys (s : DatabaseSchema.t) (table : string)
    (tableSchema : TableSchema.t) (objects : list row) (upsert : bool) (st : state) :
  let keyColumn := ColumnSchema.name (TableSchema.keyColumn tableSchema) in
  ready s st ->
  table <> EmptyString ->
  DatabaseSchema.tableMap s !! table = Some tableSchema ->
  plain tableSchema ->
  Forall (fun object => valid_key (row_get object keyColumn) = true) objects ->
  NoDup ((fun object => row_get object keyColumn) <$> objects) ->
  (upsert = false ->
   forall r, r ∈ stored_rows table st ->
     row_get r keyColumn ∉ (fun object => row_get object keyColumn) <$> objects) ->
  Forall (fun o => o = Resolves ()) (add_each table objects upsert st) /\
  (forall r,
     r ∈ stored_rows table
           (foldl (fun st object => (add table object upsert st).2) st objects) <->
     r ∈ objects \/
     (r ∈ stored_rows table st /\
      row_get r keyColumn ∉ (fun object => row_get object keyColumn) <$> objects)).
Proof.
  intros keyColumn. subst keyColumn. intros Hr Ht Hmap Hp Hv. revert st Hr.
  induction Hv as [|object objects Hkey Hv IH]; intros st Hr Hnd Hfresh.
  - simpl. split; [constructor|]. intros r. split; [|by intros [?%elem_of_nil|[? _]]].
    intros Hin. right. split; [done|]. apply not_elem_of_nil.
  - rewrite fmap_cons, NoDup_cons in Hnd. destruct Hnd as [Hfirst Hnd].
    destruct (add_given_key s st table tableSchema object upsert) as
      (st1 & Hadd & Hr1 & Hrows1 & _); try done.
    { intros Hu r Hin Heq. apply (Hfresh Hu r Hin). rewrite fmap_cons, Heq. by left. }
    cbn [add_each foldl]. rewrite Hadd. cbn [fst snd].
    destruct (IH st1 Hr1 Hnd) as [HF Hrows].
    { intros Hu r Hin. apply Hrows1 in Hin as [->|[Hin Hne]]; [done|].
      specialize (Hfresh Hu r Hin). rewrite fmap_cons, not_elem_of_cons in Hfresh.
      tauto. }
    split; [by constructor|]. intros r. rewrite Hrows, Hrows1.
    rewrite fmap_cons, not_elem_of_cons, elem_of_cons.
    split.
    + intros [Hin|[[->|[Hin Hne]] Hnot]]; [by left; right|by left; left|by right].
    + intros [[->|Hin]|[Hin [Hne Hnot]]]; [|by left|by right; split; [right|]].
      right. split; [by left|done].
Qed.

(** ** The parser, by the operators given *)

(** When the larger of two operands is the second. *)
Lemma max_is_second (a b : Z) :
  bool_decide (Some (a `max` b) = Some b) = negb (bool_decide (b < a)).
Proof.
  destruct (decide (b < a)) as [H|H].
  - rewrite (bool_decide_eq_true_2 (b < a)) by done.
    apply bool_decide_eq_false_2. intros [= ?]. lia.
  - rewrite (bool_decide_eq_false_2 (b < a)) by done.
    apply bool_decide_eq_true_2. f_equal. lia.
Qed.

Lemma min_is_second (a b : Z) :
  bool_decide (Some (a `min` b) = Some b) = negb (bool_decide (a < b)).
Proof.
  destruct (decide (a < b)) as [H|H].
  - rewrite (bool_decide_eq_true_2 (a < b)) by done.
    apply bool_decide_eq_false_2. intros [= ?]. lia.
  - rewrite (bool_decide_eq_false_2 (a < b)) by done.
    apply bool_decide_eq_true_2. f_equal. lia.
Qed.

(** The clauses of an operator object, by the bound its operators put
    on each side. *)
Lemma entry_clauses_operators (column : string) (o : operators) :
  entry_clauses (column, inr o)
  = (additiveQueries ←
       match lower_operand o, upper_operand o with
       | Some (lo, lowerOpen), Some (hi, upperOpen) =>
           range ← IDBKeyRange.bound (VNum lo) (VNum hi) lowerOpen upperOpen;
           mret [(column, @inr value _ range)]
       | None, Some (_, upperOpen) =>
           range ← IDBKeyRange.upperBound (number (op_lt o)) upperOpen;
           mret [(column, inr range)]
       | Some (_, lowerOpen), None =>
           range ← IDBKeyRange.lowerBound (number (op_gt o)) lowerOpen;
           mret [(column, inr range)]
       | None, None => mret []
       end;
     mret (additiveQueries,
           if bool_decide (op_ne o <> VUndefined)
           then [(column, inl (op_ne o))] else [])).
Proof.
  destruct o as [[gt|] [gte|] [lt|] [lte|] ne];
    unfold entry_clauses, parse_entry, lower_operand, upper_operand, Math_max, Math_min;
    cbn [op_gt op_gte op_lt op_lte op_ne number];
    repeat match goal with
    | |- context [bool_decide (Some ?x <> None)] =>
        rewrite (bool_decide_eq_true_2 (Some x <> None)) by done
    | |- context [bool_decide (@None Z <> None)] =>
        rewrite (bool_decide_eq_false_2 (@None Z <> None)) by (by intros ?)
    | |- context [bool_decide (Some ?x = None)] =>
        rewrite (bool_decide_eq_false_2 (Some x = None)) by done
    | |- context [bool_decide (@None Z = None)] =>
        rewrite (bool_decide_eq_true_2 (@None Z = None)) by done
    | |- context [bool_decide (None = Some ?x)] =>
        rewrite (bool_decide_eq_false_2 (None = Some x)) by done
    | |- context [bool_decide (Some ?x = Some ?x)] =>
        rewrite (bool_decide_eq_true_2 (Some x = Some x)) by done
    end;
    cbn [andb negb];
    rewrite ?max_is_second, ?min_is_second;
    rewrite ?negb_involutive;
    cbn [mbind mret throw_bind throw_ret app number];
    repeat match goal with
    | |- context [IDBKeyRange.bound ?a ?b ?c ?d] =>
        destruct (IDBKeyRange.bound a b c d)
    | |- context [IDBKeyRange.upperBound ?a ?c] =>
        destruct (IDBKeyRange.upperBound a c)
    | |- context [IDBKeyRange.lowerBound ?a ?c] =>
        destruct (IDBKeyRange.lowerBound a c)
    end;
    reflexivity.
Qed.

(** When the engine refuses a range with both bounds. *)
Lemma bound_fails (lo hi : Z) (lowerOpen upperOpen : bool) :
  (exists e, IDBKeyRange.bound (VNum lo) (VNum hi) lowerOpen upperOpen = inl e) <->
  hi < lo \/ (lo = hi /\ (lowerOpen = true \/ upperOpen = true)).
Proof.
  unfold IDBKeyRange.bound. simpl.
  destruct (Z.compare_spec lo hi) as [->|Hlt|Hgt].
  - destruct lowerOpen, upperOpen; simpl; split;
      try (intros _; by eexists); try (intros [e [=]]);
      try (right; split; [done|]; by (left + right));
      intros [?|[_ [[=]|[=]]]]; lia.
  - split; [by intros [e [=]]|]. intros [?|[? _]]; lia.
  - split; [by left|]. intros _. by eexists.
Qed.

(** The entries the parser fails on. *)
Lemma entry_rejected (column : string) (entry : columnEntry) :
  (exists e, entry_clauses (column, entry) = inl e) <-> rejected entry.
Proof.
  destruct entry as [v|o].
  - unfold entry_clauses, parse_entry, rejected.
    destruct v; simpl; split; try done; try (by intros [e [=]]); intros _; by eexists.
  - rewrite entry_clauses_operators. unfold rejected.
    destruct (lower_operand o) as [[lo lowerOpen]|], (upper_operand o) as [[hi upperOpen]|].
    + rewrite <- bound_fails.
      destruct (IDBKeyRange.bound _ _ _ _); simpl; split;
        try (by intros [e [=]]); intros _; by eexists.
    + destruct (op_gt o); simpl; split; try done; try (by intros [e [=]]).
      intros _; by eexists.
    + destruct (op_lt o); simpl; split; try done; try (by intros [e [=]]).
      intros _; by eexists.
    + simpl. split; [by intros [e [=]]|done].
Qed.

Lemma for_of_parse_rejected (q : query) (acc : list clause * list clause) :
  (exists e, for_of parse_entry q acc = inl e) <->
  exists column entry, (column, entry) ∈ q /\ rejected entry.
Proof.
  revert acc. induction q as [|[column entry] q IH]; intros acc.
  - simpl. split; [by intros [e [=]]|]. intros (c & en & Hin & _).
    by apply elem_of_nil in Hin.
  - rewrite for_of_parse_entry_cons.
    destruct (entry_clauses (column, entry)) as [e|[a sub]] eqn:He.
    + split; [|intros _; by eexists]. intros _. exists column, entry.
      split; [by left|]. apply (entry_rejected column). by eexists.
    + rewrite IH. split.
      * intros (c & en & Hin & Hrej). exists c, en. split; [by right|done].
      * intros (c & en & Hin & Hrej). apply elem_of_cons in Hin as [[= -> ->]|Hin].
        -- apply (entry_rejected column) in Hrej as [e Hrej]. congruence.
        -- by exists c, en.
Qed.

Lemma parse_query_rejected (q : query) :
  (exists e, parse_query q = inl e) <->
  exists column entry, (column, entry) ∈ q /\ rejected entry.
Proof. apply for_of_parse_rejected. Qed.

(** ** Ranges with both bounds *)

(** Meeting the operators is lying within the bounds they put. *)
Lemma satisfies_bounds (o : operators) (lo hi : Z) (lowerOpen upperOpen : bool) (n : Z) :
  untied o ->
  lower_operand o = Some (lo, lowerOpen) ->
  upper_operand o = Some (hi, upperOpen) ->
  satisfies o n = true <->
  (if lowerOpen then lo < n else lo <= n) /\ (if upperOpen then n < hi else n <= hi).
Proof.
  intros [Hl Hu]. unfold lower_operand, upper_operand, satisfies.
  destruct o as [[gt|] [gte|] [lt|] [lte|] ne]; simpl in *; intros [= <- <-] [= <- <-];
    try (assert (gt <> gte) by (intros ->; by apply (Hl gte)));
    try (assert (lt <> lte) by (intros ->; by apply (Hu lte)));
    repeat case_bool_decide;
    rewrite ?andb_true_iff, ?andb_true_r, ?Z.ltb_lt, ?Z.leb_le; lia.
Qed.

(** The keys a range with both bounds includes: the numbers within. *)
Lemma includes_bound (lo hi : Z) (lowerOpen upperOpen : bool) (range : IDBKeyRange.t)
    (v : value) :
  IDBKeyRange.bound (VNum lo) (VNum hi) lowerOpen upperOpen = inr range ->
  valid_key v = true ->
  IDBKeyRange.includes range v = true <->
  exists n, v = VNum n /\
    (if lowerOpen then lo < n else lo <= n) /\ (if upperOpen then n < hi else n <= hi).
Proof.
  intros Hb Hv.
  assert (range = {| IDBKeyRange.lower := VNum lo; IDBKeyRange.upper := VNum hi;
                     IDBKeyRange.lowerOpen := lowerOpen;
                     IDBKeyRange.upperOpen := upperOpen |}) as ->.
  { unfold IDBKeyRange.bound in Hb. simpl in Hb.
    destruct (lo ?= hi); [destruct (_ || _)| |]; congruence. }
  unfold IDBKeyRange.includes. simpl. destruct v as [| | |n|s]; try done.
  - simpl. rewrite andb_true_iff. split.
    + intros [H1 H2]. exists n. split; [done|]. split.
      * destruct (Z.compare_spec lo n), lowerOpen; simpl in H1; try done; lia.
      * destruct (Z.compare_spec n hi), upperOpen; simpl in H2; try done; lia.
    + intros (m & [= <-] & H1 & H2). split.
      * destruct (Z.compare_spec lo n), lowerOpen; simpl; try done; lia.
      * destruct (Z.compare_spec n hi), upperOpen; simpl; try done; lia.
  - simpl. split; [done|]. by intros (m & [=] & _).
Qed.

(** ** Small facts for the properties below *)

Lemma parse_query_singleton (entry : string * columnEntry) :
  parse_query [entry] = entry_clauses entry.
Proof.
  unfold parse_query. rewrite for_of_parse_entry_cons.
  by destruct (entry_clauses entry) as [e|[a sub]].
Qed.

Lemma normal_id (r : row) :
  (forall column v, (column, v) ∈ r -> v <> VUndefined) -> normal r = r.
Proof.
  intros H. induction r as [|[k v] r IH]; [done|].
  rewrite normal_cons by (apply (H k); by left).
  rewrite IH; [done|]. intros c w Hin. apply (H c). by right.
Qed.

(** The merge runs in a continuation: nothing it does is thrown to the
    caller. *)
Lemma merge_not_thrown (subtractiveQueries : list clause)
    (subtractivePromises : list (error + list row)) (additiveResult : list (list row))
    (e : error) :
  merge subtractiveQueries subtractivePromises additiveResult <> Throws e.
Proof. unfold merge. by repeat case_match. Qed.

(** ** init, and schemas that are not well formed *)

(** An index of that name is found. *)
Lemma index_found (store : IDBObjectStore.t) (n : string) :
  n ∈ IDBIndex.name <$> IDBObjectStore.indexes store ->
  exists ix, IDBObjectStore.index store n = inr ix.
Proof.
  intros Hin. unfold IDBObjectStore.index.
  destruct (list_find _ _) as [[i ix]|] eqn:Hf; [by eexists|].
  apply list_find_None in Hf. rewrite Forall_forall in Hf.
  apply list_elem_of_fmap in Hin as (ix & -> & Hin). by destruct (Hf ix Hin).
Qed.

(** An index that was made had a new name and a key path that the engine
    accepts. *)
Lemma createIndex_made (store store' : IDBObjectStore.t) (n keyPath : string)
    (options : ColumnSchema.ColumnSchemaOptions) :
  IDBObjectStore.createIndex store n keyPath options = inr store' ->
  (n ∉ IDBIndex.name <$> IDBObjectStore.indexes store) /\
  valid_key_path keyPath = true /\
  (IDBIndex.name <$> IDBObjectStore.indexes store')
  = (IDBIndex.name <$> IDBObjectStore.indexes store) ++ [n].
Proof.
  unfold IDBObjectStore.createIndex. intros H. split.
  - intros Hin. apply index_found in Hin as [ix Hix]. by rewrite Hix in H.
  - destruct (IDBObjectStore.index store n); [|done].
    destruct (valid_key_path keyPath); [|done]. split; [done|].
    injection H as <-. simpl. by rewrite fmap_app.
Qed.

(** Indexes that were all made had distinct names and key paths that the
    engine accepts. *)
Lemma createIndex_columns_made (columns : list ColumnSchema.t)
    (store store' : IDBObjectStore.t) :
  for_of (fun store column =>
            IDBObjectStore.createIndex store (ColumnSchema.name column)
              (ColumnSchema.name column) (ColumnSchema.options column))
         columns store = inr store' ->
  NoDup (ColumnSchema.name <$> columns) /\
  IDBObjectStore.name store' = IDBObjectStore.name store /\
  forall column, column ∈ columns -> valid_key_path (ColumnSchema.name column) = true.
Proof.
  revert store. induction columns as [|column columns IH]; intros store.
  - intros [= <-]. split; [constructor|]. split; [done|].
    intros column Hin. by apply elem_of_nil in Hin.
  - rewrite for_of_cons.
    destruct (IDBObjectStore.createIndex store _ _ _) as [e|store1] eqn:Hc; [done|].
    intros Hfor.
    assert (forall columns store1 store',
      for_of (fun store column =>
                IDBObjectStore.createIndex store (ColumnSchema.name column)
                  (ColumnSchema.name column) (ColumnSchema.options column))
             columns store1 = inr store' ->
      forall n, n ∈ IDBIndex.name <$> IDBObjectStore.indexes store1 ->
                n ∉ ColumnSchema.name <$> columns) as Hfresh.
    { clear. induction columns as [|column columns IH]; intros store1 store' Hfor n Hn.
      - apply not_elem_of_nil.
      - rewrite for_of_cons in Hfor.
        destruct (IDBObjectStore.createIndex store1 _ _ _) as [e|store2] eqn:Hc; [done|].
        apply createIndex_made in Hc as (Hc & _ & Hnames).
        rewrite fmap_cons, not_elem_of_cons. split; [by intros ->|].
        apply (IH store2 store' Hfor). rewrite Hnames, elem_of_app. by left. }
    pose proof (createIndex_records _ _ _ _ _ Hc) as [Hname _].
    apply createIndex_made in Hc as (Hc & Hpath & Hnames).
    destruct (IH store1 Hfor) as (Hnd & Hname' & Hpaths).
    split; [|split; [congruence|]].
    + rewrite fmap_cons. constructor; [|done].
      apply (Hfresh columns store1 store' Hfor). rewrite Hnames, elem_of_app.
      right. by left.
    + intros c Hin. apply elem_of_cons in Hin as [->|Hin]; [done|by apply Hpaths].
Qed.

(** Tables that were all made had distinct names, each with distinct
    column names, and key paths that the engine accepts. *)
Lemma upgrade_tables_made (tables : list TableSchema.t) (db db' : IDBDatabase.t) :
  for_of (fun db table =>
    tableStore ← IDBDatabase.createObjectStore db (TableSchema.name table)
                   (ColumnSchema.name (TableSchema.keyColumn table))
                   (TableSchema.autoIncrement table);
    tableStore ← for_of (fun store column =>
                   IDBObjectStore.createIndex store (ColumnSchema.name column)
                     (ColumnSchema.name column) (ColumnSchema.options column))
                   (TableSchema.otherColumns table) tableStore;
    mret (IDBDatabase.set_store db tableStore)) tables db = inr db' ->
  NoDup (TableSchema.name <$> tables) /\
  forall table, table ∈ tables ->
    NoDup (ColumnSchema.name <$> TableSchema.otherColumns table) /\
    IDBDatabase.objectStores db !! TableSchema.name table = None /\
    valid_key_path (ColumnSchema.name (TableSchema.keyColumn table)) = true /\
    (TableSchema.autoIncrement table = true ->
     ColumnSchema.name (TableSchema.keyColumn table) <> EmptyString) /\
    forall column, column ∈ TableSchema.otherColumns table ->
      valid_key_path (ColumnSchema.name column) = true.
Proof.
  revert db. induction tables as [|table tables IH]; intros db.
  - intros _. split; [constructor|]. intros t Ht. by apply elem_of_nil in Ht.
  - rewrite for_of_cons. unfold IDBDatabase.createObjectStore at 1.
    destruct (valid_key_path (ColumnSchema.name (TableSchema.keyColumn table)))
      eqn:Hkey; [|done]. cbn [negb].
    destruct (IDBDatabase.objectStores db !! TableSchema.name table) eqn:Hnone; [done|].
    destruct (TableSchema.autoIncrement table && bool_decide _) eqn:Hauto; [done|].
    cbn [mbind throw_bind].
    destruct (for_of _ (TableSchema.otherColumns table) _) as [e|tableStore] eqn:Hcols;
      [done|].
    apply createIndex_columns_made in Hcols as (Hcols & Hname & Hpaths). simpl in Hname.
    cbn [mbind mret throw_bind throw_ret]. intros Hfor.
    destruct (IH _ Hfor) as [Hnd Hrest].
    assert (forall t, t ∈ tables -> TableSchema.name t <> TableSchema.name table) as Hne.
    { intros t Ht Heq. destruct (Hrest t Ht) as (_ & Hl & _). simpl in Hl.
      by rewrite Hname, Heq, lookup_insert_eq in Hl. }
    split.
    + rewrite fmap_cons. constructor; [|done]. intros Hin.
      apply list_elem_of_fmap in Hin as (t & Heq & Ht). by apply (Hne t Ht).
    + intros t Ht. apply elem_of_cons in Ht as [->|Ht].
      * split; [done|]. split; [done|]. split; [done|]. split; [|done].
        intros Ha Hempty. rewrite Ha, bool_decide_eq_true_2 in Hauto; done.
      * destruct (Hrest t Ht) as (Hc & Hl & Hrest'). split; [done|]. split; [|done].
        simpl in Hl.
        rewrite lookup_insert_ne in Hl; [done|]. rewrite Hname. by apply not_eq_sym, Hne.
Qed.

(** An upgrade that went through was for a schema the engine accepts. *)
Lemma upgrade_accepted (schema : DatabaseSchema.t) (db db' : IDBDatabase.t) :
  upgrade schema db = inr db' -> well_formed schema /\ key_paths_accepted schema.
Proof.
  intros H. apply upgrade_tables_made in H as [Hnd Hrest]. split; [split; [done|]|].
  - intros table Hin. by apply Hrest.
  - intros table Hin. by apply Hrest.
Qed.

(** What [init] comes to, by what the upgrade comes to. *)
Lemma init_upgrade (schema : DatabaseSchema.t) (st : state) :
  supported st = true ->
  init schema st
  = let f := IDBFactory.log (call_open (DatabaseSchema.name schema) version)
               (IDBFactory.deleteDatabase (DatabaseSchema.name schema) (indexedDB st)) in
    match upgrade schema {| IDBDatabase.name := DatabaseSchema.name schema;
                            IDBDatabase.version := 0;
                            IDBDatabase.objectStores := ∅ |} with
    | inl _ =>
        (Rejects (opening_error "AbortError" (error_message (DOMException "AbortError"))),
         {| supported := supported st; indexedDB := f;
            instance := Some (DatabaseSchema.name schema); schema := Some schema |})
    | inr db' =>
        (Resolves (),
         {| supported := supported st;
            indexedDB := IDBFactory.set_database (IDBDatabase.set_version db' version) f;
            instance := Some (DatabaseSchema.name schema); schema := Some schema |})
    end.
Proof.
  intros Hs. unfold init. rewrite Hs. simpl.
  unfold IDBFactory.open, IDBFactory.deleteDatabase. simpl.
  rewrite lookup_delete_eq. simpl. by destruct (upgrade schema _).
Qed.

Lemma init_ready (schema : DatabaseSchema.t) (st : state) :
  supported st = true ->
  constructed schema ->
  well_formed schema ->
  key_paths_accepted schema ->
  (init schema st).1 = Resolves () /\ ready schema (init schema st).2.
Proof.
  intros Hs Hcon [Hnd Hcols] Hpaths. rewrite init_upgrade by done. unfold upgrade.
  destruct (upgrade_tables (DatabaseSchema.tables schema)
              {| IDBDatabase.name := DatabaseSchema.name schema;
                 IDBDatabase.version := 0; IDBDatabase.objectStores := ∅ |} Hnd)
    as (db' & -> & Hname & _ & Hin & _).
  { intros t Ht. split; [by apply Hcols|]. split; [apply lookup_empty|].
    by apply Hpaths. }
  simpl in Hname. cbn zeta iota. split; [done|].
  split; [done|]. split; [done|]. split; [done|].
  exists (IDBDatabase.set_version db' version). simpl.
  split; [by rewrite Hname, lookup_insert_eq|]. split; [done|].
  intros table Ht. exists (table_store table). split; [by apply Hin|].
  split; [apply store_of_table_store|apply keyed_table_store].
Qed.

(** For a schema the engine does not accept, [init] is rejected and leaves
    a connection that names no database. *)
Lemma init_not_accepted (schema : DatabaseSchema.t) (st : state) :
  supported st = true ->
  ~ (well_formed schema /\ key_paths_accepted schema) ->
  (exists message,
     (init schema st).1 = Rejects (opening_error "AbortError" message)) /\
  instance (init schema st).2 = Some (DatabaseSchema.name schema) /\
  IDBFactory.databases (indexedDB (init schema st).2) !! DatabaseSchema.name schema = None.
Proof.
  intros Hs Hwf. rewrite init_upgrade by done.
  destruct (upgrade schema _) as [e|db'] eqn:Hup.
  - cbn zeta iota. split; [by eexists|]. split; [done|]. simpl. apply lookup_delete_eq.
  - by apply upgrade_accepted in Hup.
Qed.

(** ** The calls of select *)

(** The scans log [getAll] calls only. *)
Lemma calls_log_scans (store : IDBObjectStore.t) (l : list clause) (st : state) :
  exists calls,
    IDBFactory.calls (indexedDB (foldl (log_scan store) st l))
    = IDBFactory.calls (indexedDB st) ++ calls /\
    forallb reads calls = true.
Proof.
  revert st. induction l as [|c l IH]; intros st.
  - exists []. by rewrite app_nil_r.
  - simpl. destruct (IH (log_scan store st c)) as (calls & -> & Hreads).
    unfold log_scan. destruct (IDBObjectStore.index store c.1) as [e|ix].
    + by exists calls.
    + eexists (_ :: calls). simpl. rewrite <- app_assoc. split; [done|]. exact Hreads.
Qed.

Lemma calls_getPromises (connection table : string) (l : list clause) (st : state) :
  exists calls,
    IDBFactory.calls (indexedDB (getPromisesFromQueryArray connection table l st).2)
    = IDBFactory.calls (indexedDB st) ++ calls /\
    forallb reads calls = true.
Proof.
  unfold getPromisesFromQueryArray. rewrite transaction_open_store.
  destruct (_ !! connection) as [db|]; [|by eexists [_]].
  destruct (_ !! table) as [store|]; [|by eexists [_]]. simpl.
  destruct (calls_log_scans store l (log (call_transaction connection table readonly) st))
    as (calls & -> & Hreads).
  eexists (_ :: calls). simpl. rewrite <- app_assoc. split; [done|]. exact Hreads.
Qed.

Lemma calls_select (table : string) (q : query) (st : state) :
  exists calls,
    IDBFactory.calls (indexedDB (select table q st).2)
    = IDBFactory.calls (indexedDB st) ++ calls /\
    forallb reads calls = true.
Proof.
  unfold select. destruct (check _ _ _ _ _) as [e|[connection s]].
  { exists []. by rewrite app_nil_r. }
  destruct (parse_query q) as [e|[a sub]].
  { exists []. by rewrite app_nil_r. }
  destruct (calls_getPromises connection table a st) as (calls1 & H1 & Hr1).
  destruct (getPromisesFromQueryArray connection table a st) as [[e|ap] st1];
    [by exists calls1|].
  destruct (calls_getPromises connection table sub st1) as (calls2 & H2 & Hr2).
  destruct (getPromisesFromQueryArray connection table sub st1) as [[e|sp] st2];
    simpl in *; exists (calls1 ++ calls2);
    rewrite H2, H1, <- app_assoc, forallb_app, Hr1, Hr2; done.
Qed.

(** ** Sequences of operations *)

(** Every operation keeps a ready state ready. *)
Lemma perform_keeps_ready (s : DatabaseSchema.t) (op : operation) (st : state) :
  ready s st -> ready s (perform st op).
Proof.
  intros Hr. destruct op; simpl.
  - by apply select_keeps_ready.
  - by apply add_keeps_ready.
  - by apply multiAdd_keeps_ready.
  - by apply delete_keeps_ready.
Qed.

Lemma performs_keep_ready (s : DatabaseSchema.t) (ops : list operation) (st : state) :
  ready s st -> ready s (foldl perform st ops).
Proof.
  revert st. induction ops as [|op ops IH]; intros st Hr; [done|].
  simpl. by apply IH, perform_keeps_ready.
Qed.

(** ** The example page, ready *)

Lemma dbSchema_constructed : constructed dbSchema.
Proof. reflexivity. Qed.

Lemma dbSchema_well_formed : well_formed dbSchema.
Proof.
  split.
  - apply (bool_decide_unpack _). vm_compute. reflexivity.
  - intros table Hin. apply list_elem_of_singleton in Hin as ->.
    apply (bool_decide_unpack _). vm_compute. reflexivity.
Qed.

(** The column names of the example are identifiers. *)
Lemma dbSchema_key_paths : key_paths_accepted dbSchema.
Proof.
  intros table Hin. apply list_elem_of_singleton in Hin as ->.
  split; [reflexivity|]. split; [discriminate|].
  intros column Hin. unfold peopleTable in Hin. simpl in Hin.
  repeat (apply elem_of_cons in Hin as [->|Hin]; [reflexivity|]).
  by apply elem_of_nil in Hin.
Qed.

Lemma inserted_ready : ready dbSchema inserted.
Proof.
  unfold inserted. apply multiAdd_keeps_ready. do 2 apply add_keeps_ready.
  apply init_ready; [reflexivity|apply dbSchema_constructed|apply dbSchema_well_formed|].
  apply dbSchema_key_paths.
Qed.

Lemma populated_ready : ready dbSchema populated.
Proof. apply delete_keeps_ready, inserted_ready. Qed.

Lemma people_table : DatabaseSchema.tableMap dbSchema !! "People" = Some peopleTable.
Proof. vm_compute. reflexivity. Qed.

Lemma people_plain : plain peopleTable.
Proof.
  intros column Hin. unfold peopleTable in Hin. simpl in Hin.
  repeat (apply elem_of_cons in Hin as [->|Hin]; [reflexivity|]).
  by apply elem_of_nil in Hin.
Qed.

(** Equality clauses on the three indexed columns of the example can be
    scanned. *)
Lemma people_scannable (column : string) (v : value) :
  column ∈ ["firstName"; "lastName"; "age"] ->
  (forall b, v <> VBool b) ->
  scannable peopleTable (column, inl v).
Proof. intros Hin Hv. split; [exact Hin|]. intros b [= ->]. by apply (Hv b). Qed.

(** ** After a failed init

The connection that the upgrade handler stored names no database, and
    no operation brings one about. *)

Lemma add_keeps_closed (connection table : string) (object : row) (upsert : bool)
    (st : state) :
  instance st = Some connection ->
  IDBFactory.databases (indexedDB st) !! connection = None ->
  instance (add table object upsert st).2 = Some connection /\
  IDBFactory.databases (indexedDB (add table object upsert st).2) !! connection = None.
Proof.
  intros Hi Hd. unfold add.
  destruct (check _ _ _ _ _) as [e|[connection' s]] eqn:Hc; [done|].
  apply check_instance in Hc. assert (connection' = connection) as -> by congruence.
  by rewrite transaction_open_store, Hd.
Qed.

Lemma delete_keys_keeps_closed (connection table : string) (keyArray : list value)
    (st : state) :
  instance st = Some connection ->
  IDBFactory.databases (indexedDB st) !! connection = None ->
  instance (delete_keys connection table keyArray st).2 = Some connection /\
  IDBFactory.databases (indexedDB (delete_keys connection table keyArray st).2)
    !! connection = None.
Proof.
  revert st. induction keyArray as [|key keyArray IH]; intros st Hi Hd; [done|].
  cbn [delete_keys]. rewrite transaction_open_store, Hd.
  specialize (IH (log (call_transaction connection table readwrite) st) Hi Hd).
  by destruct (delete_keys _ _ _ _).
Qed.

Lemma perform_keeps_closed (connection : string) (op : operation) (st : state) :
  instance st = Some connection ->
  IDBFactory.databases (indexedDB st) !! connection = None ->
  instance (perform st op) = Some connection /\
  IDBFactory.databases (indexedDB (perform st op)) !! connection = None.
Proof.
  intros Hi Hd. destruct op as [table q|table object upsert|table objects upsert|table q];
    simpl.
  - pose proof (select_state table q st) as (-> & -> & _). done.
  - by apply add_keeps_closed.
  - rewrite multiAdd_state. revert st Hi Hd.
    induction objects as [|object objects IH]; intros st Hi Hd; [done|].
    simpl. by apply IH; apply add_keeps_closed.
  - unfold delete. destruct (check _ _ _ _ _) as [e|[connection' s]] eqn:Hc; [done|].
    apply check_instance in Hc. assert (connection' = connection) as -> by congruence.
    pose proof (select_state table q st) as (Hd' & Hi' & _).
    destruct (select table q st) as [[e|e|[|results]|e] st1]; cbn [fst snd] in *;
      try (by rewrite Hi', Hd').
    destruct (DatabaseSchema.tableMap s !! table) as [tableSchema|].
    2:{ cbn [fst snd]. by rewrite Hi', Hd'. }
    pose proof (delete_keys_keeps_closed connection (TableSchema.name tableSchema)
                  ((fun entry => row_get entry
                      (ColumnSchema.name (TableSchema.keyColumn tableSchema))) <$> results)
                  st1) as Hk.
    destruct (delete_keys _ _ _ _) as [promises st2]. cbn [fst snd] in Hk.
    destruct (Promise_all promises); cbn [fst snd]; apply Hk; by rewrite ?Hi', ?Hd'.
Qed.

Lemma performs_keep_closed (connection : string) (ops : list operation) (st : state) :
  instance st = Some connection ->
  IDBFactory.databases (indexedDB st) !! connection = None ->
  instance (foldl perform st ops) = Some connection /\
  IDBFactory.databases (indexedDB (foldl perform st ops)) !! connection = None.
Proof.
  revert st. induction ops as [|op ops IH]; intros st Hi Hd; [done|].
  simpl. by apply IH; apply perform_keeps_closed.
Qed.

Lemma stored_rows_closed (connection table : string) (st : state) :
  instance st = Some connection ->
  IDBFactory.databases (indexedDB st) !! connection = None ->
  stored_rows table st = [].
Proof. intros Hi Hd. unfold stored_rows, open_store. by rewrite Hi, Hd. Qed.

(** * Further properties of the operations *)

(** X1. The constructor of a database schema lists the names of its tables
    in their order and maps every name to the last table that has it; so a
    name is listed exactly when it is mapped. *)
Theorem schema_constructor_indexes_tables (n : string) (tables : list TableSchema.t) :
  let s := DatabaseSchema.constructor n tables in
  DatabaseSchema.tableNames s = TableSchema.name <$> tables /\
  (forall k, DatabaseSchema.tableMap s !! k
             = last (filter (fun table => TableSchema.name table = k) tables)) /\
  (forall k, k ∈ DatabaseSchema.tableNames s <->
             is_Some (DatabaseSchema.tableMap s !! k)).
Proof.
  intros s. split; [apply tableNames_constructor|].
  split; [intros k; apply tableMap_constructor|].
  intros k. unfold s. rewrite tableNames_constructor. split.
  - apply tableMap_constructor_is_Some.
  - intros [table Hk]. apply tableMap_constructor_Some in Hk as [Hin <-].
    by apply list_elem_of_fmap_2.
Qed.

(** X2. In a browser with IndexedDB, [init] resolves exactly when the
    engine accepts the schema: the table names are distinct and so are the
    column names of each table, every column name is a key path (empty, or
    identifiers separated by periods), and no table with a key generator
    has the empty name for its key column. Otherwise the upgrade is
    aborted: [init] is rejected with the opening error for an AbortError,
    whatever message the engine gives it, and no database of the schema's
    name is left. *)
Theorem init_resolves_iff_schema_accepted (schema : DatabaseSchema.t) (st : state) :
  supported st = true ->
  ((init schema st).1 = Resolves () <->
   well_formed schema /\ key_paths_accepted schema) /\
  (~ (well_formed schema /\ key_paths_accepted schema) ->
   (exists message,
      (init schema st).1 = Rejects (opening_error "AbortError" message)) /\
   IDBFactory.databases (indexedDB (init schema st).2) !! DatabaseSchema.name schema
   = None).
Proof.
  intros Hs. split.
  - split.
    + rewrite init_upgrade by done.
      destruct (upgrade schema _) as [e|db'] eqn:Hup; [done|].
      intros _. by apply upgrade_accepted in Hup.
    + intros [[Hnd Hcols] Hpaths]. rewrite init_upgrade by done. unfold upgrade.
      destruct (upgrade_tables (DatabaseSchema.tables schema)
                  {| IDBDatabase.name := DatabaseSchema.name schema;
                     IDBDatabase.version := 0; IDBDatabase.objectStores := ∅ |} Hnd)
        as (db' & -> & _); [|done].
      intros t Ht. split; [by apply Hcols|]. split; [apply lookup_empty|].
      by apply Hpaths.
  - intros Hno. destruct (init_not_accepted schema st Hs Hno) as (Hinit & _ & Hdb).
    by split.
Qed.

(** X2, on the example page. *)
Lemma init_resolves_iff_schema_accepted_witness :
  ((init dbSchema browser).1 = Resolves () <->
   well_formed dbSchema /\ key_paths_accepted dbSchema) /\
  (~ (well_formed dbSchema /\ key_paths_accepted dbSchema) ->
   (exists message,
      (init dbSchema browser).1 = Rejects (opening_error "AbortError" message)) /\
   IDBFactory.databases (indexedDB (init dbSchema browser).2) !! DatabaseSchema.name dbSchema
   = None).
Proof. apply (init_resolves_iff_schema_accepted dbSchema browser). reflexivity. Defined.

(** X3. For a well-formed schema out of its constructor, whose column
    names the engine accepts as key paths, [init] leaves a ready state:
    the connection is to the schema's database, which holds for every
    table the store that [upgrade] makes for it, with the key column for
    its key path and an index for every other column. *)
Theorem init_makes_ready (schema : DatabaseSchema.t) (st : state) :
  supported st = true ->
  constructed schema ->
  well_formed schema ->
  key_paths_accepted schema ->
  ready schema (init schema st).2 /\
  forall table, table ∈ DatabaseSchema.tables schema ->
    open_store (DatabaseSchema.name schema) (TableSchema.name table) (init schema st).2
    = inr (table_store table).
Proof.
  intros Hs Hcon Hwf Hpaths.
  destruct (init_ready schema st Hs Hcon Hwf Hpaths) as [_ Hr].
  split; [done|]. intros table Hin.
  destruct (init_resolves schema st Hs Hwf Hpaths)
    as (st' & db & Hinit & _ & _ & Hdb & Hstores).
  rewrite Hinit. unfold open_store. simpl. by rewrite Hdb, (Hstores table Hin).
Qed.

(** X3, on the example page. *)
Lemma init_makes_ready_witness :
  ready dbSchema (init dbSchema browser).2 /\
  forall table, table ∈ DatabaseSchema.tables dbSchema ->
    open_store (DatabaseSchema.name dbSchema) (TableSchema.name table)
      (init dbSchema browser).2
    = inr (table_store table).
Proof.
  apply (init_makes_ready dbSchema browser).
  - reflexivity.
  - apply dbSchema_constructed.
  - apply dbSchema_well_formed.
  - apply dbSchema_key_paths.
Defined.

(** X4. [select], [add], [multiAdd] and [delete], in any number and order
    and whatever they come to, keep a ready state ready. *)
Theorem operations_keep_ready (s : DatabaseSchema.t) (ops : list operation) (st : state) :
  ready s st -> ready s (foldl perform st ops).
Proof. apply performs_keep_ready. Qed.

(** X4, on the example page. *)
Lemma operations_keep_ready_witness :
  ready dbSchema
    (foldl perform populated
       [Add "People" anonymous false; Delete "People" aged_69;
        MultiAdd "People" [john; anonymous] true; Select "People" all_entries]).
Proof. apply (operations_keep_ready dbSchema). apply populated_ready. Defined.

(** X5. After [init] on a well-formed schema and any operations, every
    row stored in a table of the schema holds a key in the key column, and
    no two rows of the table hold the same. *)
Theorem keys_stay_distinct (schema : DatabaseSchema.t) (st : state)
    (ops : list operation) (table : string) (tableSchema : TableSchema.t) :
  let keyColumn := ColumnSchema.name (TableSchema.keyColumn tableSchema) in
  let st' := foldl perform (init schema st).2 ops in
  supported st = true ->
  constructed schema ->
  well_formed schema ->
  DatabaseSchema.tableMap schema !! table = Some tableSchema ->
  Forall (fun r => valid_key (row_get r keyColumn) = true) (stored_rows table st') /\
  NoDup ((fun r => row_get r keyColumn) <$> stored_rows table st').
Proof.
  intros keyColumn st' Hs Hcon Hwf Hmap.
  pose proof (init_upgrade schema st Hs) as Hinit.
  destruct (upgrade schema _) as [e|db'] eqn:Hup.
  - assert (stored_rows table st' = []) as ->; [|by split; constructor].
    destruct (performs_keep_closed (DatabaseSchema.name schema) ops (init schema st).2)
      as [Hi Hd].
    + by rewrite Hinit.
    + rewrite Hinit. cbn zeta iota. simpl. apply lookup_delete_eq.
    + by apply (stored_rows_closed (DatabaseSchema.name schema)).
  - apply upgrade_accepted in Hup as [_ Hpaths].
    assert (ready schema st') as Hr.
    { apply performs_keep_ready. by apply init_ready. }
    destruct (ready_open_store _ _ _ _ Hr Hmap) as (store & _ & -> & Hof & Hk).
    pose proof (store_of_name _ _ Hof) as (_ & Hkp & _).
    unfold keyColumn. rewrite <- Hkp. exact Hk.
Qed.

(** X5, on the example page. *)
Lemma keys_stay_distinct_witness :
  let st' := foldl perform (init dbSchema browser).2
               [Add "People" john true; Add "People" john false;
                MultiAdd "People" [anonymous; john] true] in
  Forall (fun r => valid_key (row_get r "id") = true) (stored_rows "People" st') /\
  NoDup ((fun r => row_get r "id") <$> stored_rows "People" st').
Proof.
  apply (keys_stay_distinct dbSchema browser _ "People" peopleTable).
  - reflexivity.
  - apply dbSchema_constructed.
  - apply dbSchema_well_formed.
  - apply people_table.
Defined.

(** X6. An [add] of a row that holds a key in the key column, into a table
    without unique columns, resolves (a strict insert: when no stored row
    has that key). Then the table holds the row together with the rows
    that had another key, the other tables hold what they held, and the
    state is ready. *)
Theorem add_stores_row (s : DatabaseSchema.t) (st : state) (table : string)
    (tableSchema : TableSchema.t) (object : row) (upsert : bool) :
  let keyColumn := ColumnSchema.name (TableSchema.keyColumn tableSchema) in
  ready s st ->
  table <> EmptyString ->
  DatabaseSchema.tableMap s !! table = Some tableSchema ->
  plain tableSchema ->
  valid_key (row_get object keyColumn) = true ->
  (upsert = false ->
   forall r, r ∈ stored_rows table st -> row_get r keyColumn <> row_get object keyColumn) ->
  exists st',
    add table object upsert st = (Resolves (), st') /\
    ready s st' /\
    (forall r, r ∈ stored_rows table st' <->
       r = object \/
       (r ∈ stored_rows table st /\ row_get r keyColumn <> row_get object keyColumn)) /\
    (forall table', table' <> table -> stored_rows table' st' = stored_rows table' st).
Proof. apply add_given_key. Qed.

(** X6, on the example page. *)
Lemma add_stores_row_witness :
  exists st',
    add "People" anonymous true populated = (Resolves (), st') /\
    ready dbSchema st' /\
    (forall r, r ∈ stored_rows "People" st' <->
       r = anonymous \/
       (r ∈ stored_rows "People" populated /\ row_get r "id" <> row_get anonymous "id")) /\
    (forall table', table' <> "People" ->
       stored_rows table' st' = stored_rows table' populated).
Proof.
  apply (add_stores_row dbSchema populated "People" peopleTable anonymous true).
  - apply populated_ready.
  - discriminate.
  - apply people_table.
  - apply people_plain.
  - reflexivity.
  - discriminate.
Defined.

(** X7. An upsert of a row that holds a key, when it resolves and is made
    a second time, resolves again and leaves every database as the first
    upsert left it. *)
Theorem upsert_twice_is_once (s : DatabaseSchema.t) (st : state) (table : string)
    (tableSchema : TableSchema.t) (object : row) :
  ready s st ->
  table <> EmptyString ->
  DatabaseSchema.tableMap s !! table = Some tableSchema ->
  valid_key (row_get object (ColumnSchema.name (TableSchema.keyColumn tableSchema))) = true ->
  (add table object true st).1 = Resolves () ->
  (add table object true (add table object true st).2).1 = Resolves () /\
  IDBFactory.databases (indexedDB (add table object true (add table object true st).2).2)
  = IDBFactory.databases (indexedDB (add table object true st).2).
Proof.
  intros Hr Ht Hmap Hv Hfirst.
  pose proof (add_keeps_ready s table object true st Hr) as Hr1.
  destruct (add_ready s st table tableSchema object true Hr Ht Hmap)
    as (db & store & Hdb & Hname & Hst & Hsn & Hof & Hk & Hrows & Hadd).
  pose proof (store_of_name _ _ Hof) as (_ & Hkp & _).
  assert (valid_key (key_of store object) = true) as Hvo
    by (unfold key_of; by rewrite Hkp).
  rewrite Hadd in Hfirst, Hr1 |- *. cbn zeta in Hfirst, Hr1 |- *.
  destruct (IDBObjectStore.store_row store true object) as [e|e|store'] eqn:Hw;
    [done|done|]. cbn [fst snd] in Hr1 |- *. clear Hfirst.
  match type of Hr1 with ready s ?st => set (st1 := st) in * end.
  destruct (add_ready s st1 table tableSchema object true Hr1 Ht Hmap)
    as (db1 & store1 & Hdb1 & Hname1 & Hst1 & Hsn1 & Hof1 & Hk1 & Hrows1 & Hadd2).
  assert (store1 = store') as ->.
  { unfold st1, commit in Hdb1. simpl in Hdb1.
    rewrite Hname, lookup_insert_eq in Hdb1. injection Hdb1 as <-.
    simpl in Hst1. apply store_row_written in Hw as (k & r' & g & _ & ->).
    simpl in Hst1. rewrite Hsn, lookup_insert_eq in Hst1. congruence. }
  rewrite (store_row_twice store store' object Hvo Hw) in Hadd2.
  cbn zeta iota in Hadd2. rewrite Hadd2. cbn [fst snd].
  split; [done|]. rewrite databases_commit_id.
  - reflexivity.
  - simpl. by rewrite Hname1.
  - by rewrite Hsn1.
Qed.

(** X7, on the example page. *)
Lemma upsert_twice_is_once_witness :
  (add "People" anonymous true (add "People" anonymous true populated).2).1
  = Resolves () /\
  IDBFactory.databases
    (indexedDB (add "People" anonymous true (add "People" anonymous true populated).2).2)
  = IDBFactory.databases (indexedDB (add "People" anonymous true populated).2).
Proof.
  apply (upsert_twice_is_once dbSchema populated "People" peopleTable anonymous).
  - apply populated_ready.
  - discriminate.
  - apply people_table.
  - reflexivity.
  - vm_compute. reflexivity.
Defined.

(** X8. An [add] that does not resolve has stored nothing: the databases,
    the connection and the schema are as they were. *)
Theorem add_failure_stores_nothing (table : string) (object : row) (upsert : bool) (st : state) :
  (add table object upsert st).1 <> Resolves () ->
  IDBFactory.databases (indexedDB (add table object upsert st).2)
  = IDBFactory.databases (indexedDB st) /\
  instance (add table object upsert st).2 = instance st /\
  schema (add table object upsert st).2 = schema st.
Proof.
  unfold add. destruct (check _ _ _ _ _) as [e|[connection s]]; [done|].
  rewrite transaction_open_store.
  destruct (_ !! connection) as [db|]; [|done].
  destruct (_ !! table) as [store|]; [|done].
  by destruct (IDBObjectStore.store_row store upsert object).
Qed.

(** X8, on the example page: a row without key. *)
Lemma add_failure_stores_nothing_witness :
  (add "People" [("firstName", VStr "Nobody")] true populated).1 = Rejects DataError /\
  IDBFactory.databases
    (indexedDB (add "People" [("firstName", VStr "Nobody")] true populated).2)
  = IDBFactory.databases (indexedDB populated).
Proof.
  assert ((add "People" [("firstName", VStr "Nobody")] true populated).1
          = Rejects DataError) as H by (vm_compute; reflexivity).
  split; [exact H|].
  apply (add_failure_stores_nothing "People" [("firstName", VStr "Nobody")] true populated).
  rewrite H. discriminate.
Defined.

(** X9. A strict insert of a row whose key a stored row holds is rejected
    with the error of [add] for the table. *)
Theorem insert_of_stored_key_is_rejected (s : DatabaseSchema.t) (st : state) (table : string)
    (tableSchema : TableSchema.t) (object r : row) :
  let keyColumn := ColumnSchema.name (TableSchema.keyColumn tableSchema) in
  ready s st ->
  table <> EmptyString ->
  DatabaseSchema.tableMap s !! table = Some tableSchema ->
  r ∈ stored_rows table st ->
  row_get object keyColumn = row_get r keyColumn ->
  (add table object false st).1
  = Rejects (Error ("Error in LocalDatabase.add for store (" +:+ table
                    +:+ "). Check console.")).
Proof.
  intros keyColumn Hr Ht Hmap Hin Hkey.
  destruct (add_ready s st table tableSchema object false Hr Ht Hmap)
    as (db & store & Hdb & Hname & Hst & Hsn & Hof & Hk & Hrows & Hadd).
  pose proof (store_of_name _ _ Hof) as (_ & Hkp & _).
  rewrite Hrows in Hin.
  assert (key_of store object = key_of store r) as Hkey'
    by (unfold key_of; by rewrite Hkp).
  assert (valid_key (key_of store object) = true) as Hvo
    by (rewrite Hkey'; by apply keyed_valid).
  destruct (extract_key_given store object Hvo) as [g He].
  rewrite Hadd. unfold IDBObjectStore.store_row. rewrite He. simpl.
  assert (IDBObjectStore.has_key store (key_of store object) = true) as ->; [|done].
  apply existsb_exists. exists r. split; [by apply list_elem_of_In|].
  fold (key_of store r). rewrite Hkey'. apply key_eqb_refl. by rewrite <- Hkey'.
Qed.

(** X9, on the example page. *)
Lemma insert_of_stored_key_is_rejected_witness :
  (add "People" (person 1 "Jane" "Doe" 40) false populated).1
  = Rejects (Error ("Error in LocalDatabase.add for store (" +:+ "People"
                    +:+ "). Check console.")).
Proof.
  apply (insert_of_stored_key_is_rejected dbSchema populated "People" peopleTable
           (person 1 "Jane" "Doe" 40) john).
  - apply populated_ready.
  - discriminate.
  - apply people_table.
  - apply (bool_decide_unpack _). vm_compute. reflexivity.
  - reflexivity.
Defined.

(** X10. [multiAdd] leaves the state that its [add]s leave when made one
    after the other, none undone and none skipped after a failure, and it
    resolves exactly when each of them resolves. *)
Theorem multiAdd_is_adds_in_order (table : string) (objects : list row) (upsert : bool)
    (st : state) :
  (multiAdd table objects upsert st).2
  = foldl (fun st object => (add table object upsert st).2) st objects /\
  ((multiAdd table objects upsert st).1 = Resolves (replicate (length objects) ()) <->
   Forall (fun o => o = Resolves ()) (add_each table objects upsert st)).
Proof. split; [apply multiAdd_state|apply multiAdd_resolves]. Qed.

(** X11. [multiAdd] of rows that hold distinct keys, into a table without
    unique columns, resolves (strict inserts: when no stored row has one
    of the keys), and then the table holds these rows together with the
    rows that had none of their keys. *)
Theorem multiAdd_stores_rows (s : DatabaseSchema.t) (st : state) (table : string)
    (tableSchema : TableSchema.t) (objects : list row) (upsert : bool) :
  let keyColumn := ColumnSchema.name (TableSchema.keyColumn tableSchema) in
  ready s st ->
  table <> EmptyString ->
  DatabaseSchema.tableMap s !! table = Some tableSchema ->
  plain tableSchema ->
  Forall (fun object => valid_key (row_get object keyColumn) = true) objects ->
  NoDup ((fun object => row_get object keyColumn) <$> objects) ->
  (upsert = false ->
   forall r, r ∈ stored_rows table st ->
     row_get r keyColumn ∉ (fun object => row_get object keyColumn) <$> objects) ->
  (multiAdd table objects upsert st).1 = Resolves (replicate (length objects) ()) /\
  forall r,
    r ∈ stored_rows table (multiAdd table objects upsert st).2 <->
    r ∈ objects \/
    (r ∈ stored_rows table st /\
     row_get r keyColumn ∉ (fun object => row_get object keyColumn) <$> objects).
Proof.
  intros keyColumn Hr Ht Hmap Hp Hv Hnd Hfresh.
  destruct (adds_given_keys s table tableSchema objects upsert st Hr Ht Hmap Hp Hv Hnd Hfresh)
    as [Hall Hrows].
  split; [by apply multiAdd_resolves|]. by rewrite multiAdd_state.
Qed.

(** X11, on the example page. *)
Lemma multiAdd_stores_rows_witness :
  let objects := [person 12 "Eve" "Stone" 31; person 1 "John" "Doe" 43] in
  (multiAdd "People" objects true populated).1 = Resolves [(); ()] /\
  forall r,
    r ∈ stored_rows "People" (multiAdd "People" objects true populated).2 <->
    r ∈ objects \/
    (r ∈ stored_rows "People" populated /\
     row_get r "id" ∉ (fun object => row_get object "id") <$> objects).
Proof.
  apply (multiAdd_stores_rows dbSchema populated "People" peopleTable
           [person 12 "Eve" "Stone" 31; person 1 "John" "Doe" 43] true).
  - apply populated_ready.
  - discriminate.
  - apply people_table.
  - apply people_plain.
  - apply (bool_decide_unpack _). vm_compute. reflexivity.
  - apply (bool_decide_unpack _). vm_compute. reflexivity.
  - discriminate.
Defined.

(** X12. For a query with at least one inclusion clause, all of whose
    clauses are on indexed columns with arguments that are no booleans,
    [select] resolves with rows of pairwise different contents, which are
    the contents of the stored rows that meet every inclusion clause and,
    if there are exclusion clauses, fail at least one of them. *)
Theorem select_returns_selected (s : DatabaseSchema.t) (st : state) (table : string)
    (tableSchema : TableSchema.t) (q : query)
    (additiveQueries subtractiveQueries : list clause) :
  ready s st ->
  table <> EmptyString ->
  DatabaseSchema.tableMap s !! table = Some tableSchema ->
  parse_query q = inr (additiveQueries, subtractiveQueries) ->
  additiveQueries <> [] ->
  (forall c, c ∈ additiveQueries ++ subtractiveQueries -> scannable tableSchema c) ->
  exists rows,
    (select table q st).1 = Resolves (Rows rows) /\
    NoDup (stringify <$> rows) /\
    forall content,
      content ∈ stringify <$> rows <->
      exists r, r ∈ stored_rows table st /\
                selected additiveQueries subtractiveQueries r = true /\
                stringify r = content.
Proof.
  intros Hr Ht Hmap Hq Hne Hc.
  destruct (select_selected s st table tableSchema q _ _ Hr Ht Hmap Hq Hne Hc)
    as (rows & Hsel & Hnd & Hcontent & _).
  by exists rows.
Qed.

(** X12, on the example page: two exclusions are ANDed. *)
Lemma select_returns_selected_witness :
  let additiveQueries := [("firstName", @inl value IDBKeyRange.t (VStr "John"))] in
  let subtractiveQueries :=
    [("lastName", @inl value IDBKeyRange.t (VStr "Gilmore"));
     ("age", @inl value IDBKeyRange.t (VNum 42))] in
  exists rows,
    (select "People"
       [("firstName", inl (VStr "John"));
        ("lastName", inr {| op_gt := None; op_gte := None; op_lt := None;
                            op_lte := None; op_ne := VStr "Gilmore" |});
        ("age", inr {| op_gt := None; op_gte := None; op_lt := None;
                       op_lte := None; op_ne := VNum 42 |})] populated).1
    = Resolves (Rows rows) /\
    NoDup (stringify <$> rows) /\
    forall content,
      content ∈ stringify <$> rows <->
      exists r, r ∈ stored_rows "People" populated /\
                selected additiveQueries subtractiveQueries r = true /\
                stringify r = content.
Proof.
  apply (select_returns_selected dbSchema populated "People" peopleTable).
  - apply populated_ready.
  - discriminate.
  - apply people_table.
  - vm_compute. reflexivity.
  - discriminate.
  - intros c Hin. simpl in Hin.
    repeat (apply elem_of_cons in Hin as [->|Hin];
            [apply people_scannable;
             [apply (bool_decide_unpack _); vm_compute; reflexivity|discriminate]|]).
    by apply elem_of_nil in Hin.
Defined.

(** X13. A field with bounds on both sides, the two operators of a side
    differing when both are given, and no [$ne], on an indexed column:
    unless the parser rejects the bounds, [select] resolves with exactly
    the stored rows whose column holds a number that meets every operator
    given. *)
Theorem select_range_within_bounds (s : DatabaseSchema.t) (st : state) (table : string)
    (tableSchema : TableSchema.t) (column : string) (o : operators) :
  ready s st ->
  table <> EmptyString ->
  DatabaseSchema.tableMap s !! table = Some tableSchema ->
  column ∈ ColumnSchema.name <$> TableSchema.otherColumns tableSchema ->
  lower_operand o <> None ->
  upper_operand o <> None ->
  untied o ->
  ~ rejected (inr o) ->
  op_ne o = VUndefined ->
  exists rows,
    (select table [(column, inr o)] st).1 = Resolves (Rows rows) /\
    forall r, r ∈ rows <->
      r ∈ stored_rows table st /\
      exists n, row_get r column = VNum n /\ satisfies o n = true.
Proof.
  intros Hr Ht Hmap Hcol Hlo Hhi Hu Hrej Hne.
  destruct (lower_operand o) as [[lo lowerOpen]|] eqn:Hlower; [|done].
  destruct (upper_operand o) as [[hi upperOpen]|] eqn:Hupper; [|done].
  assert (exists range,
            IDBKeyRange.bound (VNum lo) (VNum hi) lowerOpen upperOpen = inr range)
    as [range Hrange].
  { destruct (IDBKeyRange.bound _ _ _ _) as [e|range] eqn:Hb; [|by eexists].
    destruct Hrej. unfold rejected. rewrite Hlower, Hupper.
    apply bound_fails. by eexists. }
  destruct (select_ready s st table tableSchema [(column, inr o)] Hr Ht Hmap)
    as (store & Hrows & Hof & Hk & ->).
  rewrite parse_query_singleton, entry_clauses_operators, Hlower, Hupper, Hrange, Hne.
  cbn [mbind mret throw_bind throw_ret]. rewrite bool_decide_eq_false_2 by (by intros ?).
  destruct (scan_clause tableSchema store (column, inr range) Hof)
    as (batch & Hscan & _ & Hbatch).
  { split; [done|]. by intros b. }
  rewrite fmap_cons, fmap_nil, Promise_all_cons, Hscan, Promise_all_nil.
  exists batch. split; [done|]. intros r. rewrite Hbatch, Hrows.
  unfold clause_holds. simpl. rewrite andb_true_iff.
  split.
  - intros (Hin & Hv & Hinc). split; [done|].
    apply (includes_bound _ _ _ _ _ _ Hrange Hv) in Hinc as (n & Hn & Hb).
    exists n. split; [done|]. by apply (satisfies_bounds o lo hi lowerOpen upperOpen).
  - intros (Hin & n & Hn & Hsat). split; [done|]. rewrite Hn. split; [done|].
    apply (includes_bound _ _ _ _ _ _ Hrange); [done|]. exists n. split; [done|].
    by apply (satisfies_bounds o lo hi lowerOpen upperOpen).
Qed.

(** X13, on the example page. *)
Lemma select_range_within_bounds_witness :
  let o := {| op_gt := None; op_gte := Some 20; op_lt := Some 60; op_lte := None;
              op_ne := VUndefined |} in
  exists rows,
    (select "People" [("age", inr o)] populated).1 = Resolves (Rows rows) /\
    forall r, r ∈ rows <->
      r ∈ stored_rows "People" populated /\
      exists n, row_get r "age" = VNum n /\ satisfies o n = true.
Proof.
  apply (select_range_within_bounds dbSchema populated "People" peopleTable "age").
  - apply populated_ready.
  - discriminate.
  - apply people_table.
  - apply (bool_decide_unpack _). vm_compute. reflexivity.
  - discriminate.
  - discriminate.
  - split; intros n Hn; [discriminate Hn|discriminate].
  - unfold rejected. simpl. intros [H|[H _]]; lia.
  - reflexivity.
Defined.

(** X14. When a clause is on a column that has no index (the key column
    is one, and so is a property that is no column of the table),
    [select] never settles: the error of the scan is handled nowhere. *)
Theorem select_unindexed_never_settles (s : DatabaseSchema.t) (st : state) (table : string)
    (tableSchema : TableSchema.t) (q : query)
    (additiveQueries subtractiveQueries : list clause) (c : clause) :
  ready s st ->
  table <> EmptyString ->
  DatabaseSchema.tableMap s !! table = Some tableSchema ->
  parse_query q = inr (additiveQueries, subtractiveQueries) ->
  c ∈ additiveQueries ++ subtractiveQueries ->
  c.1 ∉ ColumnSchema.name <$> TableSchema.otherColumns tableSchema ->
  exists e, (select table q st).1 = Pending e.
Proof.
  intros Hr Ht Hmap Hq Hin Hc.
  destruct (select_ready s st table tableSchema q Hr Ht Hmap)
    as (store & Hrows & Hof & Hk & ->).
  rewrite Hq. by apply (merge_not_indexed tableSchema store _ _ c).
Qed.

(** X14, on the example page: the key column. *)
Lemma select_unindexed_never_settles_witness :
  exists e, (select "People" [("firstName", inl (VStr "John")); ("id", inl (VNum 1))]
               populated).1 = Pending e.
Proof.
  apply (select_unindexed_never_settles dbSchema populated "People" peopleTable
           [("firstName", inl (VStr "John")); ("id", inl (VNum 1))]
           [("firstName", inl (VStr "John")); ("id", inl (VNum 1))] []
           ("id", inl (VNum 1))).
  - apply populated_ready.
  - discriminate.
  - apply people_table.
  - vm_compute. reflexivity.
  - simpl. apply elem_of_cons. right. apply elem_of_cons. by left.
  - apply (bool_decide_unpack _). vm_compute. reflexivity.
Defined.

(** X15. [select] only reads: the databases, the connection and the
    schema are as they were, and the calls it made to the engine are
    read-only transactions and [getAll]s. *)
Theorem select_only_reads (table : string) (q : query) (st : state) :
  IDBFactory.databases (indexedDB (select table q st).2)
  = IDBFactory.databases (indexedDB st) /\
  instance (select table q st).2 = instance st /\
  schema (select table q st).2 = schema st /\
  exists calls,
    IDBFactory.calls (indexedDB (select table q st).2)
    = IDBFactory.calls (indexedDB st) ++ calls /\
    forallb reads calls = true.
Proof.
  destruct (select_state table q st) as (Hd & Hi & Hs & _).
  split; [done|]. split; [done|]. split; [done|]. apply calls_select.
Qed.

(** X16. Parsing a query fails exactly when one of its entries is
    rejected: a value that is [undefined], bounds on both sides that leave
    no key between them, or on one side alone an inclusive operator
    without the strict one. Past the guards, [select] is then rejected
    with the parser's error before any call to the engine. *)
Theorem rejected_entry_rejects_select (table : string) (q : query) (st : state)
    (connection : string) (s : DatabaseSchema.t) :
  check "select" "select" "table" table st = inr (connection, s) ->
  ((exists e, parse_query q = inl e) <->
   exists column entry, (column, entry) ∈ q /\ rejected entry) /\
  (forall e, parse_query q = inl e -> select table q st = (Rejects e, st)).
Proof.
  intros Hc. split; [apply parse_query_rejected|].
  intros e He. unfold select. by rewrite Hc, He.
Qed.

(** X16, on the example page: bounds in the wrong order. *)
Lemma rejected_entry_rejects_select_witness :
  let q := [("age", inr {| op_gt := Some 60; op_gte := None; op_lt := Some 20;
                           op_lte := None; op_ne := VUndefined |})] in
  ((exists e, parse_query q = inl e) <->
   exists column entry, (column, entry) ∈ q /\ rejected entry) /\
  (forall e, parse_query q = inl e -> select "People" q populated = (Rejects e, populated)).
Proof.
  apply (rejected_entry_rejects_select "People" _ populated "MyDatabase" dbSchema).
  vm_compute. reflexivity.
Defined.

(** X17. [delete] on such a query resolves, once for every row that
    [select] finds; then the table holds the rows that were not selected,
    the other tables hold what they held, and the state is ready. *)
Theorem delete_removes_selected (s : DatabaseSchema.t) (st : state) (table : string)
    (tableSchema : TableSchema.t) (q : query)
    (additiveQueries subtractiveQueries : list clause) :
  ready s st ->
  table <> EmptyString ->
  DatabaseSchema.tableMap s !! table = Some tableSchema ->
  parse_query q = inr (additiveQueries, subtractiveQueries) ->
  additiveQueries <> [] ->
  (forall c, c ∈ additiveQueries ++ subtractiveQueries -> scannable tableSchema c) ->
  exists n st',
    delete table q st = (Resolves (replicate n ()), st') /\
    ready s st' /\
    (forall r, r ∈ stored_rows table st' <->
       r ∈ stored_rows table st /\
       selected additiveQueries subtractiveQueries r = false) /\
    (forall table', table' <> table -> stored_rows table' st' = stored_rows table' st).
Proof. apply delete_selected. Qed.

(** X17, on the example page. *)
Lemma delete_removes_selected_witness :
  let additiveQueries := [("age", @inl value IDBKeyRange.t (VNum 69))] in
  exists n st',
    delete "People" aged_69 populated = (Resolves (replicate n ()), st') /\
    ready dbSchema st' /\
    (forall r, r ∈ stored_rows "People" st' <->
       r ∈ stored_rows "People" populated /\
       selected additiveQueries [] r = false) /\
    (forall table', table' <> "People" ->
       stored_rows table' st' = stored_rows table' populated).
Proof.
  apply (delete_removes_selected dbSchema populated "People" peopleTable aged_69).
  - apply populated_ready.
  - discriminate.
  - apply people_table.
  - vm_compute. reflexivity.
  - discriminate.
  - intros c Hin. simpl in Hin.
    repeat (apply elem_of_cons in Hin as [->|Hin];
            [apply people_scannable;
             [apply (bool_decide_unpack _); vm_compute; reflexivity|discriminate]|]).
    by apply elem_of_nil in Hin.
Defined.

(** X18. After [delete] on such a query, [select] on the same query
    resolves with no rows. *)
Theorem select_after_delete_is_empty (s : DatabaseSchema.t) (st : state) (table : string)
    (tableSchema : TableSchema.t) (q : query)
    (additiveQueries subtractiveQueries : list clause) :
  ready s st ->
  table <> EmptyString ->
  DatabaseSchema.tableMap s !! table = Some tableSchema ->
  parse_query q = inr (additiveQueries, subtractiveQueries) ->
  additiveQueries <> [] ->
  (forall c, c ∈ additiveQueries ++ subtractiveQueries -> scannable tableSchema c) ->
  (select table q (delete table q st).2).1 = Resolves (Rows []).
Proof.
  intros Hr Ht Hmap Hq Hne Hc.
  destruct (delete_selected s st table tableSchema q _ _ Hr Ht Hmap Hq Hne Hc)
    as (n & st' & -> & Hr' & Hrows & _). simpl.
  destruct (select_selected s st' table tableSchema q _ _ Hr' Ht Hmap Hq Hne Hc)
    as (rows & -> & _ & Hcontent & _).
  destruct rows as [|row rows]; [done|].
  destruct (proj1 (Hcontent (stringify row))) as (r & Hin & Hsel & _); [by left|].
  apply Hrows in Hin as [_ Hin]. congruence.
Qed.

(** X18, on the example page. *)
Lemma select_after_delete_is_empty_witness :
  (select "People" john_69_not_gilmore
     (delete "People" john_69_not_gilmore populated).2).1 = Resolves (Rows []).
Proof.
  apply (select_after_delete_is_empty dbSchema populated "People" peopleTable
           john_69_not_gilmore
           [("firstName", inl (VStr "John")); ("age", inl (VNum 69))]
           [("lastName", inl (VStr "Gilmore"))]).
  - apply populated_ready.
  - discriminate.
  - apply people_table.
  - vm_compute. reflexivity.
  - discriminate.
  - intros c Hin. simpl in Hin.
    repeat (apply elem_of_cons in Hin as [->|Hin];
            [apply people_scannable;
             [apply (bool_decide_unpack _); vm_compute; reflexivity|discriminate]|]).
    by apply elem_of_nil in Hin.
Defined.

(** X19. The promise of [delete] is never rejected: whatever goes wrong
    after the guards leaves it pending. *)
Theorem delete_is_never_rejected (table : string) (q : query) (st : state) (e : error) :
  (delete table q st).1 <> Rejects e.
Proof.
  unfold delete.
  destruct (check "delete" "delete" "table" table st) as [e'|[connection s]] eqn:Hc; [done|].
  pose proof (select_fst table q st) as Hsel. unfold select_outcome in Hsel.
  rewrite (check_operation _ _ _ "select" "select" "table" _ _ _ Hc) in Hsel.
  destruct (select table q st) as [[e'|e'|[|results]|e'] st2]; simpl in Hsel; try done.
  - destruct (parse_query q) as [?|[??]]; [done|].
    destruct (open_store connection table st); [done|].
    destruct (Promise_all _); [done|]. symmetry in Hsel.
    by apply merge_not_thrown in Hsel.
  - destruct (DatabaseSchema.tableMap s !! table); [|done].
    destruct (delete_keys _ _ _ _) as [promises st3].
    by destruct (Promise_all promises).
Qed.

(** X20. Past the guards, [delete] on a query without inclusion clause
    (the empty query, or [$ne] fields only) never settles and deletes
    nothing. *)
Theorem delete_without_inclusion_never_settles (table : string) (q : query) (st : state)
    (subtractiveQueries : list clause) (connection : string) (s : DatabaseSchema.t) :
  check "delete" "delete" "table" table st = inr (connection, s) ->
  parse_query q = inr ([], subtractiveQueries) ->
  (exists e, (delete table q st).1 = Pending e) /\
  IDBFactory.databases (indexedDB (delete table q st).2)
  = IDBFactory.databases (indexedDB st).
Proof.
  intros Hc Hq. unfold delete. rewrite Hc.
  pose proof (select_fst table q st) as Hsel. unfold select_outcome in Hsel.
  rewrite (check_operation _ _ _ "select" "select" "table" _ _ _ Hc), Hq in Hsel.
  pose proof (select_state table q st) as (Hd & _).
  destruct (select table q st) as [o st2]. cbn [fst snd] in *. subst o.
  destruct (open_store connection table st) as [e|store]; [by eauto|].
  rewrite fmap_nil, Promise_all_nil.
  destruct subtractiveQueries as [|c sub]; [by eauto|].
  rewrite merge_no_inclusion by done. by eauto.
Qed.

(** X20, on the example page: the empty query. *)
Lemma delete_without_inclusion_never_settles_witness :
  (exists e, (delete "People" [] populated).1 = Pending e) /\
  IDBFactory.databases (indexedDB (delete "People" [] populated).2)
  = IDBFactory.databases (indexedDB populated).
Proof.
  apply (delete_without_inclusion_never_settles "People" [] populated []
           "MyDatabase" dbSchema).
  - vm_compute. reflexivity.
  - reflexivity.
Defined.

(** X21. Parsing what [_stringifyArrayElements] wrote gives the rows back
    without their [undefined] properties; rows that have none come back
    as they were. *)
Theorem array_helpers_round_trip (array : list row) :
  _parseArrayElements (_stringifyArrayElements array) = inr (normal <$> array) /\
  ((forall r column v, r ∈ array -> (column, v) ∈ r -> v <> VUndefined) ->
   _parseArrayElements (_stringifyArrayElements array) = inr array).
Proof.
  assert (_parseArrayElements (_stringifyArrayElements array) = inr (normal <$> array))
    as H.
  { induction array as [|r array IH]; [done|].
    unfold _stringifyArrayElements in *. rewrite fmap_cons, parseArrayElements_cons.
    by rewrite parse_stringify, IH. }
  split; [exact H|]. intros Hdef. rewrite H. f_equal. clear H.
  induction array as [|r array IH]; [done|]. rewrite fmap_cons. f_equal.
  - apply normal_id. intros column v. apply Hdef. by left.
  - apply IH. intros r' column v Hin. apply Hdef. by right.
Qed.

(** X22. Before [init], every operation throws the not-initialised error
    of its name and touches nothing, whatever the table and the query;
    only a [multiAdd] of no rows resolves. *)
Theorem operations_before_init_throw (table : string) (q : query) (object : row)
    (objects : list row) (upsert : bool) (st : state) :
  instance st = None ->
  select table q st = (Throws (not_initialised_error "select"), st) /\
  add table object upsert st = (Throws (not_initialised_error "add"), st) /\
  multiAdd table (object :: objects) upsert st
  = (Throws (not_initialised_error "add"), st) /\
  multiAdd table [] upsert st = (Resolves [], st) /\
  delete table q st = (Throws (not_initialised_error "delete"), st).
Proof.
  intros H. unfold multiAdd, multiAdd_map, select, add, delete, check.
  by rewrite H.
Qed.

(** X22, on the example page. *)
Lemma operations_before_init_throw_witness :
  select "People" aged_69 browser = (Throws (not_initialised_error "select"), browser) /\
  add "People" john true browser = (Throws (not_initialised_error "add"), browser) /\
  multiAdd "People" [john; anonymous] true browser
  = (Throws (not_initialised_error "add"), browser) /\
  multiAdd "People" [] true browser = (Resolves [], browser) /\
  delete "People" aged_69 browser = (Throws (not_initialised_error "delete"), browser).
Proof.
  apply (operations_before_init_throw "People" aged_69 john [anonymous] true browser).
  reflexivity.
Defined.

(** X23. [_difference] and [_intersect] split the base array: the entries
    [_difference] keeps and those [_intersect] finds in the other array,
    taken together, are the entries of the base, and no entry is in both. *)
Theorem difference_and_intersect_split (baseArray otherArray : list string) :
  _difference baseArray otherArray ++ _intersect otherArray baseArray ≡ₚ baseArray /\
  forall entry,
    entry ∈ _difference baseArray otherArray ->
    entry ∉ _intersect otherArray baseArray.
Proof.
  split.
  - unfold _difference, _intersect. rewrite Permutation_app_comm.
    apply filter_app_complement.
  - intros entry. rewrite elem_of_difference, elem_of_intersect. tauto.
Qed.

(** X24. A strict operator alone, on an indexed column. With [$lt],
    [select] resolves with the stored rows whose column holds a smaller
    number. With [$gt], it resolves with the stored rows whose column
    holds a greater number and also with those whose column holds a
    string, since every string key sorts after every number. *)
Theorem select_strict_bound_alone (s : DatabaseSchema.t) (st : state) (table : string)
    (tableSchema : TableSchema.t) (column : string) (bound : Z) :
  ready s st ->
  table <> EmptyString ->
  DatabaseSchema.tableMap s !! table = Some tableSchema ->
  column ∈ ColumnSchema.name <$> TableSchema.otherColumns tableSchema ->
  (exists rows,
     (select table [(column, inr (only_lt bound))] st).1 = Resolves (Rows rows) /\
     forall r, r ∈ rows <->
       r ∈ stored_rows table st /\
       exists n, row_get r column = VNum n /\ n < bound) /\
  (exists rows,
     (select table [(column, inr (only_gt bound))] st).1 = Resolves (Rows rows) /\
     forall r, r ∈ rows <->
       r ∈ stored_rows table st /\
       ((exists n, row_get r column = VNum n /\ bound < n) \/
        exists text, row_get r column = VStr text)).
Proof.
  intros Hr Ht Hmap Hcol. split.
  - destruct (select_ready s st table tableSchema [(column, inr (only_lt bound))] Hr Ht Hmap)
      as (store & Hrows & Hof & Hk & ->).
    rewrite parse_query_singleton, entry_clauses_operators.
    cbn [lower_operand upper_operand only_lt op_gt op_gte op_lt op_lte op_ne number].
    unfold IDBKeyRange.upperBound. cbn [valid_key mbind mret throw_bind throw_ret].
    rewrite bool_decide_eq_false_2 by (by intros ?).
    destruct (scan_clause tableSchema store
                (column, inr {| IDBKeyRange.lower := VUndefined;
                                IDBKeyRange.upper := VNum bound;
                                IDBKeyRange.lowerOpen := true;
                                IDBKeyRange.upperOpen := true |}) Hof)
      as (batch & Hscan & _ & Hbatch).
    { split; [done|]. by intros b. }
    rewrite fmap_cons, fmap_nil, Promise_all_cons, Hscan, Promise_all_nil.
    exists batch. split; [done|]. intros r. rewrite Hbatch, Hrows.
    unfold clause_holds, IDBKeyRange.includes. simpl.
    destruct (row_get r column) as [| | |n|text]; simpl.
    + split; [by intros [_ [=]]|]. by intros [_ (n & [=] & _)].
    + split; [by intros [_ [=]]|]. by intros [_ (n & [=] & _)].
    + split; [by intros [_ [=]]|]. by intros [_ (n & [=] & _)].
    + destruct (Z.compare_spec n bound) as [->|Hlt|Hgt]; simpl.
      * split; [by intros [_ [=]]|]. intros [_ (m & Hm & ?)]. injection Hm as <-. lia.
      * split; [|by intros [Hin _]]. intros [Hin _]. split; [done|].
        exists n. split; [done|lia].
      * split; [by intros [_ [=]]|]. intros [_ (m & Hm & ?)]. injection Hm as <-. lia.
    + split; [by intros [_ [=]]|]. by intros [_ (n & [=] & _)].
  - destruct (select_ready s st table tableSchema [(column, inr (only_gt bound))] Hr Ht Hmap)
      as (store & Hrows & Hof & Hk & ->).
    rewrite parse_query_singleton, entry_clauses_operators.
    cbn [lower_operand upper_operand only_gt op_gt op_gte op_lt op_lte op_ne number].
    unfold IDBKeyRange.lowerBound. cbn [valid_key mbind mret throw_bind throw_ret].
    rewrite bool_decide_eq_false_2 by (by intros ?).
    destruct (scan_clause tableSchema store
                (column, inr {| IDBKeyRange.lower := VNum bound;
                                IDBKeyRange.upper := VUndefined;
                                IDBKeyRange.lowerOpen := true;
                                IDBKeyRange.upperOpen := true |}) Hof)
      as (batch & Hscan & _ & Hbatch).
    { split; [done|]. by intros b. }
    rewrite fmap_cons, fmap_nil, Promise_all_cons, Hscan, Promise_all_nil.
    exists batch. split; [done|]. intros r. rewrite Hbatch, Hrows.
    unfold clause_holds, IDBKeyRange.includes. simpl.
    destruct (row_get r column) as [| | |n|text]; simpl.
    + split; [by intros [_ [=]]|]. by intros [_ [(n & [=] & _)|(text & [=])]].
    + split; [by intros [_ [=]]|]. by intros [_ [(n & [=] & _)|(text & [=])]].
    + split; [by intros [_ [=]]|]. by intros [_ [(n & [=] & _)|(text & [=])]].
    + destruct (Z.compare_spec bound n) as [->|Hlt|Hgt]; simpl.
      * split; [by intros [_ [=]]|].
        intros [_ [(m & Hm & ?)|(text & [=])]]. injection Hm as <-. lia.
      * split; [|by intros [Hin _]]. intros [Hin _]. split; [done|]. left.
        exists n. split; [done|lia].
      * split; [by intros [_ [=]]|].
        intros [_ [(m & Hm & ?)|(text & [=])]]. injection Hm as <-. lia.
    + split; [|by intros [Hin _]]. intros [Hin _]. split; [done|]. right. by exists text.
Qed.

(** X24, on the example page. *)
Lemma select_strict_bound_alone_witness :
  (exists rows,
     (select "People" [("age", inr (only_lt 20))] populated).1 = Resolves (Rows rows) /\
     forall r, r ∈ rows <->
       r ∈ stored_rows "People" populated /\
       exists n, row_get r "age" = VNum n /\ n < 20) /\
  (exists rows,
     (select "People" [("age", inr (only_gt 20))] populated).1 = Resolves (Rows rows) /\
     forall r, r ∈ rows <->
       r ∈ stored_rows "People" populated /\
       ((exists n, row_get r "age" = VNum n /\ 20 < n) \/
        exists text, row_get r "age" = VStr text)).
Proof.
  apply (select_strict_bound_alone dbSchema populated "People" peopleTable "age" 20).
  - apply populated_ready.
  - discriminate.
  - apply people_table.
  - apply (bool_decide_unpack _). vm_compute. reflexivity.
Defined.

(** X25. A field whose value is [null], on an indexed column, is no test
    for null: [select] resolves with every stored row whose column holds
    a key, a number or a string. *)
Theorem select_null_selects_indexed (s : DatabaseSchema.t) (st : state) (table : string)
    (tableSchema : TableSchema.t) (column : string) :
  ready s st ->
  table <> EmptyString ->
  DatabaseSchema.tableMap s !! table = Some tableSchema ->
  column ∈ ColumnSchema.name <$> TableSchema.otherColumns tableSchema ->
  exists rows,
    (select table [(column, inl VNull)] st).1 = Resolves (Rows rows) /\
    forall r, r ∈ rows <->
      r ∈ stored_rows table st /\ valid_key (row_get r column) = true.
Proof.
  intros Hr Ht Hmap Hcol.
  destruct (select_ready s st table tableSchema [(column, inl VNull)] Hr Ht Hmap)
    as (store & Hrows & Hof & Hk & ->).
  rewrite parse_query_singleton.
  change (entry_clauses (column, inl VNull)) with
    (@inr error _ ([(column, @inl value IDBKeyRange.t VNull)], @nil clause)).
  destruct (scan_clause tableSchema store (column, inl VNull) Hof)
    as (batch & Hscan & _ & Hbatch).
  { split; [done|]. by intros b. }
  rewrite fmap_cons, fmap_nil, Promise_all_cons, Hscan, Promise_all_nil.
  exists batch. split; [done|]. intros r. rewrite Hbatch, Hrows.
  unfold clause_holds. simpl. by rewrite andb_true_r.
Qed.

(** X25, on the example page. *)
Lemma select_null_selects_indexed_witness :
  exists rows,
    (select "People" [("lastName", inl VNull)] with_anonymous).1 = Resolves (Rows rows) /\
    forall r, r ∈ rows <->
      r ∈ stored_rows "People" with_anonymous /\
      valid_key (row_get r "lastName") = true.
Proof.
  apply (select_null_selects_indexed dbSchema with_anonymous "People" peopleTable "lastName").
  - apply add_keeps_ready, populated_ready.
  - discriminate.
  - apply people_table.
  - apply (bool_decide_unpack _). vm_compute. reflexivity.
Defined.

(** X26. Unless the merge returns the single batch as it is, the rows it
    resolves with have been through JSON: none of them has a property that
    is [undefined]. *)
Theorem merged_rows_have_no_undefined (subtractiveQueries : list clause)
    (subtractivePromises : list (error + list row)) (additiveResult : list (list row))
    (rows : list row) :
  ~ direct subtractiveQueries additiveResult ->
  merge subtractiveQueries subtractivePromises additiveResult = Resolves (Rows rows) ->
  forall row column v, row ∈ rows -> (column, v) ∈ row -> v <> VUndefined.
Proof.
  intros Hd Hm.
  assert (forall row, row ∈ rows -> normal row = row) as Hn.
  { rewrite merge_not_direct in Hm by done.
    destruct (intersectAndStringifyArrayOfArrays additiveResult) as [e|l] eqn:Hl; [done|].
    pose proof (stringified_intersect _ _ Hl) as Hstr.
    destruct (bool_decide (length subtractivePromises = 0%nat)).
    - destruct (_parseArrayElements l) as [e|rows'] eqn:Hp; [done|].
      injection Hm as <-. by apply (parseArrayElements_normal l).
    - destruct (Promise_all subtractivePromises) as [e|subtractiveResult]; [done|].
      destruct (intersectAndStringifyArrayOfArrays subtractiveResult) as [e|l']; [done|].
      destruct (_parseArrayElements (_difference l l')) as [e|rows'] eqn:Hp; [done|].
      injection Hm as <-. apply (parseArrayElements_normal (_difference l l')); [|done].
      by apply stringified_difference. }
  intros row column v Hrow Hin. rewrite <- (Hn row Hrow) in Hin.
  by apply list_elem_of_filter in Hin as [Hv _].
Qed.

(** X26, on the row with an [undefined] property. *)
Lemma merged_rows_have_no_undefined_witness :
  merge [] [] [[anonymous]; [anonymous]]
  = Resolves (Rows [[("id", VNum 11); ("firstName", VStr "Ann"); ("age", VNum 30)]]) /\
  forall row column v,
    row ∈ [[("id", VNum 11); ("firstName", VStr "Ann"); ("age", VNum 30)]] ->
    (column, v) ∈ row -> v <> VUndefined.
Proof.
  assert (merge [] [] [[anonymous]; [anonymous]]
          = Resolves (Rows [[("id", VNum 11); ("firstName", VStr "Ann"); ("age", VNum 30)]]))
    as H by (vm_compute; reflexivity).
  split; [exact H|].
  apply (merged_rows_have_no_undefined [] [] [[anonymous]; [anonymous]]); [|exact H].
  intros [_ Hlen]. simpl in Hlen. lia.
Defined.
